(** * Glow normalizing flow and discriminator rejection sampling

    A shallow embedding of [model.py], of the sampling loops of
    [generate.py], and of the functions of [utils.py] and [train.py] that
    prepare the data, evaluate the model and group its parameters.  Tensors are logical arrays: a shape and a function from
    multi-indices to elements.  Operations of the tensor library raise the
    exceptions the library raises (size mismatch of a view, shapes that do
    not broadcast, too few values to unpack).  Finite floating-point values
    are idealised as real numbers; the rejection sampler, whose behaviour
    depends on the special values, uses reals extended with the two
    infinities and NaN. *)

From Stdlib Require Import List Arith Bool Lia Reals Lra.
From Stdlib Require String Ascii.
Import ListNotations.

Set Implicit Arguments.

(** ** Exceptions and results *)

Inductive exn : Type :=
| RuntimeError   (* raised by the tensor library *)
| ValueError     (* tuple unpacking of the wrong length *)
| IndexError     (* dimension out of range *)
| TypeError.     (* a tuple where a tensor is expected *)

Inductive result (A : Type) : Type :=
| Ok (a : A)
| Raise (e : exn).

Arguments Ok {A} a.
Arguments Raise {A} e.

Definition bind {A B : Type} (r : result A) (k : A -> result B) : result B :=
  match r with
  | Ok a => k a
  | Raise e => Raise e
  end.

Declare Scope result_scope.
Delimit Scope result_scope with result.
Notation "x <- r ;; k" := (bind r (fun x => k))
  (at level 61, r at next level, right associativity) : result_scope.
Notation "' p <- r ;; k" := (bind r (fun p => k))
  (at level 61, p pattern, r at next level, right associativity)
  : result_scope.
Open Scope result_scope.

(** ** Shapes and row-major index arithmetic *)

Fixpoint numel (s : list nat) : nat :=
  match s with
  | [] => 1
  | d :: s' => d * numel s'
  end.

(** Offset of a multi-index in a contiguous row-major buffer. *)
Fixpoint ravel (s idx : list nat) : nat :=
  match s, idx with
  | _ :: s', i :: idx' => i * numel s' + ravel s' idx'
  | _, _ => 0
  end.

(** Multi-index of an offset. *)
Fixpoint unravel (s : list nat) (n : nat) : list nat :=
  match s with
  | [] => []
  | _ :: s' => (n / numel s') :: unravel s' (n mod numel s')
  end.

Definition in_range (idx s : list nat) : Prop := Forall2 lt idx s.

(** ** Tensors *)

Record tensor (A : Type) : Type := mkT {
  shape : list nat;
  get : list nat -> A
}.

Arguments mkT {A} shape get.

(** Two tensors are equal when they have the same shape and the same element
    at every index of that shape. *)
Definition teq {A : Type} (x y : tensor A) : Prop :=
  shape x = shape y /\
  forall idx, in_range idx (shape x) -> get x idx = get y idx.

(** [x.view(s)] with every size of [s] given. *)
Definition view {A : Type} (x : tensor A) (s : list nat) : result (tensor A) :=
  if numel s =? numel (shape x)
  then Ok (mkT s (fun idx => get x (unravel (shape x) (ravel s idx))))
  else Raise RuntimeError.

Fixpoint index_of (m : nat) (p : list nat) : nat :=
  match p with
  | [] => 0
  | k :: p' => if k =? m then 0 else S (index_of m p')
  end.

Definition is_permutation (p : list nat) (n : nat) : bool :=
  (length p =? n) && forallb (fun m => existsb (Nat.eqb m) p) (seq 0 n).

(** [x.permute(dims).contiguous()]: dimension [k] of the result is
    dimension [dims[k]] of [x].  Making the result contiguous changes its
    layout in memory, not its elements. *)
Definition permute {A : Type} (x : tensor A) (dims : list nat)
  : result (tensor A) :=
  if is_permutation dims (length (shape x))
  then Ok (mkT (map (fun d => nth d (shape x) 0) dims)
               (fun idx => get x (map (fun m => nth (index_of m dims) idx 0)
                                      (seq 0 (length dims)))))
  else Raise RuntimeError.

(** ** [squeeze] *)

Definition squeeze {A : Type} (x : tensor A) (reverse : bool)
  : result (tensor A) :=
  match shape x with
  | [b; c; h; w] =>
      if reverse then
        x1 <- view x [b; c / 4; 2; 2; h; w];;
        x2 <- permute x1 [0; 1; 4; 2; 5; 3];;
        view x2 [b; c / 4; h * 2; w * 2]
      else
        x1 <- view x [b; c; h / 2; 2; w / 2; 2];;
        x2 <- permute x1 [0; 1; 3; 5; 2; 4];;
        view x2 [b; c * 2 * 2; h / 2; w / 2]
  | _ => Raise ValueError
  end.

(** [x = squeeze(x, reverse)] as the callers run it: they hold the pair of
    the activations and the optional log-determinant accumulator, and the
    assignment rebinds the first component only. *)
Definition squeeze_step {A S : Type} (reverse : bool) (st : tensor A * option S)
  : result (tensor A * option S) :=
  x <- squeeze (fst st) reverse;;
  Ok (x, snd st).


(** ** Tensor library operations on real tensors *)

Open Scope R_scope.

Abbreviation rtensor := (tensor R).

Definition zeros (s : list nat) : rtensor := mkT s (fun _ => 0).
Definition ones (s : list nat) : rtensor := mkT s (fun _ => 1).

(** A Python number used as an operand: a tensor without dimensions. *)
Definition scalar (r : R) : rtensor := mkT [] (fun _ => r).

(** [x.size(d)] *)
Definition size {A : Type} (x : tensor A) (d : nat) : result nat :=
  match nth_error (shape x) d with
  | Some n => Ok n
  | None => Raise IndexError
  end.

Definition tmap (f : R -> R) (x : rtensor) : rtensor :=
  mkT (shape x) (fun idx => f (get x idx)).

(** Broadcasting aligns the shapes at their last dimension; two sizes are
    compatible when they are equal or one of them is 1. *)
Fixpoint broadcast_rev (s1 s2 : list nat) : option (list nat) :=
  match s1, s2 with
  | [], _ => Some s2
  | _, [] => Some s1
  | d1 :: r1, d2 :: r2 =>
      match broadcast_rev r1 r2 with
      | Some r =>
          if (d1 =? d2)%nat then Some (d1 :: r)
          else if (d1 =? 1)%nat then Some (d2 :: r)
          else if (d2 =? 1)%nat then Some (d1 :: r)
          else None
      | None => None
      end
  end.

Definition broadcast_shapes (s1 s2 : list nat) : option (list nat) :=
  option_map (@rev nat) (broadcast_rev (rev s1) (rev s2)).

Fixpoint zip_index (s idx : list nat) : list nat :=
  match s, idx with
  | d :: s', i :: idx' => (if (d =? 1)%nat then 0%nat else i) :: zip_index s' idx'
  | _, _ => []
  end.

(** Index into an operand of shape [s] for the index [idx] of the
    broadcast result. *)
Definition bidx (s idx : list nat) : list nat :=
  zip_index s (skipn (length idx - length s) idx).

Definition binop (f : R -> R -> R) (x y : rtensor) : result rtensor :=
  match broadcast_shapes (shape x) (shape y) with
  | Some s =>
      Ok (mkT s (fun idx => f (get x (bidx (shape x) idx))
                              (get y (bidx (shape y) idx))))
  | None => Raise RuntimeError
  end.

Definition tadd := binop Rplus.
Definition tsub := binop Rminus.
Definition tmul := binop Rmult.

Fixpoint shape_eqb (s t : list nat) : bool :=
  match s, t with
  | [], [] => true
  | a :: s', b :: t' => (a =? b)%nat && shape_eqb s' t'
  | _, _ => false
  end.

(** [dst.copy_(src)]: [src] is broadcast to the shape of [dst]. *)
Definition copy_ (dst src : rtensor) : result rtensor :=
  match broadcast_shapes (shape dst) (shape src) with
  | Some s =>
      if shape_eqb s (shape dst)
      then Ok (mkT (shape dst) (fun idx => get src (bidx (shape src) idx)))
      else Raise RuntimeError
  | None => Raise RuntimeError
  end.

Fixpoint Rsum (n : nat) (f : nat -> R) : R :=
  match n with
  | O => 0
  | S k => Rsum k f + f k
  end.

(** The mean over the batch, then over the rows, then over the columns. *)
Definition mean3 (nb nh nw : nat) (f : nat -> nat -> nat -> R) : R :=
  Rsum nw (fun k3 =>
    Rsum nh (fun k2 =>
      Rsum nb (fun k0 => f k0 k2 k3) / INR nb) / INR nh) / INR nw.

Fixpoint set_nth (d v : nat) (l : list nat) : list nat :=
  match l, d with
  | [], _ => []
  | _ :: t, O => v :: t
  | a :: t, S d' => a :: set_nth d' v t
  end.

(** [x.sum(dim=d, keepdim=True)] and [x.mean(dim=d, keepdim=True)], with the
    sum and the division of the real numbers: the float32 reduction agrees
    with them up to the rounding of its additions. *)
Definition sum_keepdim (x : rtensor) (d : nat) : result rtensor :=
  match nth_error (shape x) d with
  | Some n =>
      Ok (mkT (set_nth d 1%nat (shape x))
              (fun idx => Rsum n (fun k => get x (set_nth d k idx))))
  | None => Raise IndexError
  end.

Definition mean_keepdim (x : rtensor) (d : nat) : result rtensor :=
  match nth_error (shape x) d with
  | Some n =>
      Ok (mkT (set_nth d 1%nat (shape x))
              (fun idx => Rsum n (fun k => get x (set_nth d k idx)) / INR n))
  | None => Raise IndexError
  end.

(** [x.sum()]: the sum of all elements, a tensor without dimensions. *)
Definition sum_all (x : rtensor) : rtensor :=
  scalar (Rsum (numel (shape x)) (fun n => get x (unravel (shape x) n))).

(** [x.mean()] *)
Definition mean_all (x : rtensor) : rtensor :=
  scalar (Rsum (numel (shape x)) (fun n => get x (unravel (shape x) n))
          / INR (numel (shape x))).

Fixpoint remove_nth (d : nat) (l : list nat) : list nat :=
  match l, d with
  | [], _ => []
  | _ :: t, O => t
  | a :: t, S d' => a :: remove_nth d' t
  end.

Fixpoint insert_nth (d v : nat) (l : list nat) : list nat :=
  match d, l with
  | O, _ => v :: l
  | S d', a :: t => a :: insert_nth d' v t
  | S _, [] => [v]
  end.

(** [x.squeeze_(d)]: drops dimension [d] when its size is 1. *)
Definition squeeze_ (x : rtensor) (d : nat) : result rtensor :=
  match nth_error (shape x) d with
  | Some 1%nat =>
      Ok (mkT (remove_nth d (shape x)) (fun idx => get x (insert_nth d 0%nat idx)))
  | Some _ => Ok x
  | None => Raise IndexError
  end.

(** [x.view(pre, -1)]: the last size is inferred from the number of
    elements. *)
Definition view_infer {A : Type} (x : tensor A) (pre : list nat)
  : result (tensor A) :=
  if (numel pre =? 0)%nat then Raise RuntimeError
  else if (numel (shape x) mod numel pre =? 0)%nat
       then view x (pre ++ [(numel (shape x) / numel pre)%nat])
       else Raise RuntimeError.

(** [x.flatten(1)] *)
Definition flatten1 {A : Type} (x : tensor A) : result (tensor A) :=
  match shape x with
  | b :: rest =>
      match rest with
      | [] => Raise IndexError
      | _ => Ok (mkT [b; numel rest]
                     (fun idx => match idx with
                                 | [i; k] => get x (i :: unravel rest k)
                                 | _ => get x idx
                                 end))
      end
  | [] => Raise IndexError
  end.

(** [x.sum(-1)] *)
Definition sum_last (x : rtensor) : result rtensor :=
  match rev (shape x) with
  | n :: _ =>
      Ok (mkT (removelast (shape x))
              (fun idx => Rsum n (fun k => get x (idx ++ [k]))))
  | [] => Ok x
  end.

Fixpoint add_nth (d v : nat) (l : list nat) : list nat :=
  match l, d with
  | [], _ => []
  | i :: t, O => (i + v)%nat :: t
  | i :: t, S d' => i :: add_nth d' v t
  end.

(** [x.narrow(d, start, len)] *)
Definition narrow {A : Type} (x : tensor A) (d start len : nat) : tensor A :=
  mkT (set_nth d len (shape x)) (fun idx => get x (add_nth d start idx)).

(** Sizes of the pieces of [x.chunk(chunks, dim)] for a dimension of size
    [n]: pieces of [ceil(n / chunks)] and a shorter last one; fewer than
    [chunks] pieces when that covers [n]. *)
Definition chunk_sizes (n chunks : nat) : list nat :=
  let split_size := ((n + chunks - 1) / chunks)%nat in
  if (n =? 0)%nat then repeat 0%nat chunks
  else
    let num_splits := Nat.max ((n + split_size - 1) / split_size) 1 in
    repeat split_size (num_splits - 1)
      ++ [(split_size - (split_size * num_splits - n))%nat].

Fixpoint narrow_all {A : Type} (x : tensor A) (d start : nat) (sizes : list nat)
  : list (tensor A) :=
  match sizes with
  | [] => []
  | len :: rest => narrow x d start len :: narrow_all x d (start + len) rest
  end.

Definition chunk {A : Type} (x : tensor A) (chunks d : nat)
  : result (list (tensor A)) :=
  match nth_error (shape x) d with
  | Some n => Ok (narrow_all x d 0 (chunk_sizes n chunks))
  | None => Raise IndexError
  end.

Fixpoint scale_nth (d step start : nat) (l : list nat) : list nat :=
  match l, d with
  | [], _ => []
  | i :: t, O => (start + i * step)%nat :: t
  | i :: t, S d' => i :: scale_nth d' step start t
  end.

(** [x[:, start::step, ...]] along dimension [d] *)
Definition slice_step {A : Type} (x : tensor A) (d start step : nat)
  : result (tensor A) :=
  match nth_error (shape x) d with
  | Some n =>
      Ok (mkT (set_nth d ((n - start + step - 1) / step)%nat (shape x))
              (fun idx => get x (scale_nth d step start idx)))
  | None => Raise IndexError
  end.

Fixpoint sub_nth (d v : nat) (l : list nat) : list nat :=
  match l, d with
  | [], _ => []
  | i :: t, O => (i - v)%nat :: t
  | i :: t, S d' => i :: sub_nth d' v t
  end.

(** [torch.cat((x, y), dim=d)]: all sizes but that of [d] agree. *)
Definition cat {A : Type} (x y : tensor A) (d : nat) : result (tensor A) :=
  match nth_error (shape x) d, nth_error (shape y) d with
  | Some nx, Some ny =>
      if shape_eqb (set_nth d 0%nat (shape x)) (set_nth d 0%nat (shape y))
      then Ok (mkT (set_nth d (nx + ny)%nat (shape x))
                   (fun idx => if (nth d idx 0%nat <? nx)%nat
                               then get x idx
                               else get y (sub_nth d nx idx)))
      else Raise RuntimeError
  | _, _ => Raise IndexError
  end.

(** Iterating a tensor yields its slices along the first dimension;
    unpacking into two names needs exactly two of them. *)
Definition unpack2 {A : Type} (x : tensor A) : result (tensor A * tensor A) :=
  match shape x with
  | [] => Raise TypeError
  | 2%nat :: rest =>
      Ok (mkT rest (fun idx => get x (0%nat :: idx)),
          mkT rest (fun idx => get x (1%nat :: idx)))
  | _ :: _ => Raise ValueError
  end.

(** Element of the zero-padded input of a convolution. *)
Definition padded (x : rtensor) (p h w n c u v : nat) : R :=
  if ((p <=? u) && (u <? h + p) && (p <=? v) && (v <? w + p))%nat
  then get x [n; c; (u - p)%nat; (v - p)%nat]
  else 0.

(** [F.conv2d(x, weight, bias, padding=padding)] with stride 1 on a batched
    input. *)
Definition conv2d (x weight : rtensor) (bias : option rtensor) (padding : nat)
  : result rtensor :=
  match shape x, shape weight with
  | [b; cin; h; w], [cout; cin'; kh; kw] =>
      if ((cin =? cin') && (kh <=? h + 2 * padding) && (kw <=? w + 2 * padding)
          && match bias with
             | Some bs => shape_eqb (shape bs) [cout]
             | None => true
             end)%nat
      then
        Ok (mkT [b; cout; (h + 2 * padding + 1 - kh)%nat;
                          (w + 2 * padding + 1 - kw)%nat]
                (fun idx =>
                   match idx with
                   | [n; o; i; j] =>
                       Rsum cin (fun c =>
                         Rsum kh (fun di =>
                           Rsum kw (fun dj =>
                             get weight [o; c; di; dj]
                             * padded x padding h w n c (i + di) (j + dj))))
                       + match bias with
                         | Some bs => get bs [o]
                         | None => 0
                         end
                   | _ => 0
                   end))
      else Raise RuntimeError
  | _, _ => Raise RuntimeError
  end.

Definition relu (x : rtensor) : rtensor := tmap (Rmax 0) x.

Definition sigmoid (r : R) : R := 1 / (1 + exp (- r)).

(** ** [mean_dim] *)

Fixpoint insert_sorted (d : nat) (l : list nat) : list nat :=
  match l with
  | [] => [d]
  | a :: t => if (d <=? a)%nat then d :: l else a :: insert_sorted d t
  end.

Definition sorted (l : list nat) : list nat := fold_right insert_sorted [] l.

Fixpoint mean_over (x : rtensor) (dims : list nat) : result rtensor :=
  match dims with
  | [] => Ok x
  | d :: rest => x' <- mean_keepdim x d;; mean_over x' rest
  end.

Fixpoint squeeze_over (x : rtensor) (dims : list nat) (i : nat)
  : result rtensor :=
  match dims with
  | [] => Ok x
  | d :: rest => x' <- squeeze_ x (d - i);; squeeze_over x' rest (S i)
  end.

(** [dim] is [None] or the list of dimensions (an integer [d] is the list
    [[d]]). *)
Definition mean_dim (x : rtensor) (dim : option (list nat)) (keepdims : bool)
  : result rtensor :=
  match dim with
  | None => Ok (mean_all x)
  | Some dim =>
      let dim := sorted dim in
      x' <- mean_over x dim;;
      if keepdims then Ok x' else squeeze_over x' dim 0
  end.

(** ** [ActNorm] *)

(** [is_initialized] is a one-element buffer that holds 0 until the
    data-dependent initialization adds 1 to it; it is kept as the integer it
    holds. *)
Record ActNorm : Type := mkActNorm {
  an_is_initialized : nat;
  an_bias : rtensor;
  an_logs : rtensor;
  an_num_features : nat;
  an_scale : R;
  an_eps : R;
  an_return_ldj : bool;
  an_training : bool
}.

Definition ActNorm_new (num_features : nat) (scale : R) (return_ldj : bool)
  : ActNorm :=
  {| an_is_initialized := 0;
     an_bias := zeros [1%nat; num_features; 1%nat; 1%nat];
     an_logs := zeros [1%nat; num_features; 1%nat; 1%nat];
     an_num_features := num_features;
     an_scale := scale;
     an_eps := 1 / 1000000;
     an_return_ldj := return_ldj;
     an_training := true |}.

(** [self.train(mode)] and [self.eval()] of [nn.Module] *)
Definition ActNorm_train (self : ActNorm) (mode : bool) : ActNorm :=
  {| an_is_initialized := an_is_initialized self;
     an_bias := an_bias self;
     an_logs := an_logs self;
     an_num_features := an_num_features self;
     an_scale := an_scale self;
     an_eps := an_eps self;
     an_return_ldj := an_return_ldj self;
     an_training := mode |}.

Definition ActNorm_eval (self : ActNorm) : ActNorm := ActNorm_train self false.

(** The statistics of the batch that the initialization stores. *)
Definition ActNorm_batch_bias (x : rtensor) : result rtensor :=
  m <- mean_dim x (Some [0; 2; 3]%nat) true;;
  Ok (tmap Ropp m).

Definition ActNorm_batch_logs (self : ActNorm) (x bias : rtensor)
  : result rtensor :=
  xb <- tadd x bias;;
  v <- mean_dim (tmap (fun r => r ^ 2) xb) (Some [0; 2; 3]%nat) true;;
  Ok (tmap ln (tmap (fun r => an_scale self / r)
                 (tmap (fun r => r + an_eps self) (tmap sqrt v)))).

Definition ActNorm_initialize_parameters (self : ActNorm) (x : rtensor)
  : result ActNorm :=
  if negb (an_training self) then Ok self
  else
    bias <- ActNorm_batch_bias x;;
    logs <- ActNorm_batch_logs self x bias;;
    bias' <- copy_ (an_bias self) bias;;
    logs' <- copy_ (an_logs self) logs;;
    Ok {| an_is_initialized := an_is_initialized self + 1;
          an_bias := bias';
          an_logs := logs';
          an_num_features := an_num_features self;
          an_scale := an_scale self;
          an_eps := an_eps self;
          an_return_ldj := an_return_ldj self;
          an_training := an_training self |}.

Definition ActNorm__center (self : ActNorm) (x : rtensor) (reverse : bool)
  : result rtensor :=
  if reverse then tsub x (an_bias self) else tadd x (an_bias self).

Definition ActNorm__scale (self : ActNorm) (x : rtensor) (sldj : option rtensor)
  (reverse : bool) : result (rtensor * option rtensor) :=
  let logs := an_logs self in
  x <- (if reverse
        then tmul x (tmap exp (tmap (fun r => r * -1) logs))
        else tmul x (tmap exp logs));;
  sldj <- match sldj with
          | Some s =>
              h <- size x 2;;
              w <- size x 3;;
              let ldj := tmap (fun r => r * INR h * INR w) (sum_all logs) in
              s' <- (if reverse then tsub s ldj else tadd s ldj);;
              Ok (Some s')
          | None => Ok None
          end;;
  Ok (x, sldj).

(** What a call returns: the tensor alone, or the pair of the tensor and
    the accumulator. *)
Inductive ret : Type :=
| RetTensor (x : rtensor)
| RetPair (x : rtensor) (ldj : option rtensor).


(** The transformation with the parameters as they are: scale then center
    in the reverse direction, center then scale otherwise. *)
Definition ActNorm_transform (self : ActNorm) (x : rtensor) (ldj : option rtensor)
  (reverse : bool) : result (rtensor * option rtensor) :=
  if reverse then
    ' (x, ldj) <- ActNorm__scale self x ldj reverse;;
    x <- ActNorm__center self x reverse;;
    Ok (x, ldj)
  else
    x <- ActNorm__center self x reverse;;
    ActNorm__scale self x ldj reverse.

Definition ActNorm_forward (self : ActNorm) (x : rtensor) (ldj : option rtensor)
  (reverse : bool) : result (ret * ActNorm) :=
  self <- (if (an_is_initialized self =? 0)%nat
           then ActNorm_initialize_parameters self x
           else Ok self);;
  ' (x, ldj) <- ActNorm_transform self x ldj reverse;;
  Ok (if an_return_ldj self then RetPair x ldj else RetTensor x, self).

(** The parameters of a layer have one entry per channel. *)
Definition per_channel (self : ActNorm) (nc : nat) : Prop :=
  shape (an_bias self) = [1; nc; 1; 1]%nat /\
    shape (an_logs self) = [1; nc; 1; 1]%nat.

(** ** [LogitTransform] *)

Record LogitTransform : Type := mkLogit { lt_alpha : R }.

Definition LogitTransform_new : LogitTransform := {| lt_alpha := 1 / 1000000 |}.

Definition LogitTransform__logdetgrad (self : LogitTransform) (x : rtensor)
  : rtensor :=
  let alpha := lt_alpha self in
  tmap (fun r => let s := alpha + (1 - 2 * alpha) * r in
                 - ln (s - s * s) + ln (1 - 2 * alpha)) x.

(** [_logdetgrad(x).view(x.size(0), -1).sum(1, keepdim=True)] *)
Definition LogitTransform_batch_logdet (self : LogitTransform) (x : rtensor)
  : result rtensor :=
  b <- size x 0;;
  g <- view_infer (LogitTransform__logdetgrad self x) [b];;
  sum_keepdim g 1.

Definition LogitTransform_inverse (self : LogitTransform) (y : rtensor)
  (sldj : option rtensor) : result (rtensor * option rtensor) :=
  let alpha := lt_alpha self in
  let x := tmap (fun r => (sigmoid r - alpha) / (1 - 2 * alpha)) y in
  match sldj with
  | None => Ok (x, None)
  | Some s =>
      g <- LogitTransform_batch_logdet self x;;
      s' <- tsub s g;;
      Ok (x, Some s')
  end.

Definition LogitTransform_forward (self : LogitTransform) (x : rtensor)
  (sldj : option rtensor) (reverse : bool)
  : result (rtensor * option rtensor) :=
  if reverse then LogitTransform_inverse self x sldj
  else
    let alpha := lt_alpha self in
    let y := tmap (fun r => let s := alpha + (1 - 2 * alpha) * r in
                            ln s - ln (1 - s)) x in
    match sldj with
    | None => Ok (y, None)
    | Some s =>
        g <- LogitTransform_batch_logdet self x;;
        g <- view_infer g [];;
        s' <- tadd s g;;
        Ok (y, Some s')
    end.

(** ** Discriminator rejection sampling

    [drs] runs on tensors of one element; it is modelled on their value.  A
    value is a real number, an infinity or NaN, and the operations follow
    the rules of IEEE 754 for the special values (zero is the positive
    zero: the density ratio is an exponential, never negative).

    The finite values are real numbers and are not rounded.  The code
    computes in float32, where two things differ in kind and not only in
    the last digit: the product [(pq / M) * exp eps] at [pq = M] is rounded
    to 1 when [exp eps] is closer to 1 than to the next float32 number, and
    a sigmoid or an exponential far from 0 is rounded to 0 or to 1.  The
    theorems that depend on the sign of the argument of the logarithm
    therefore take [eps_drs] at least [float32_spacing], and bounds on
    probabilities and density ratios are stated with [<=]. *)

Inductive xreal : Type :=
| Fin (r : R)
| PInf
| NInf
| NaN.

Definition xlog (a : xreal) : xreal :=
  match a with
  | Fin r =>
      if Rlt_dec 0 r then Fin (ln r)
      else if Req_dec_T r 0 then NInf
      else NaN
  | PInf => PInf
  | NInf => NaN
  | NaN => NaN
  end.

Definition xopp (a : xreal) : xreal :=
  match a with
  | Fin r => Fin (- r)
  | PInf => NInf
  | NInf => PInf
  | NaN => NaN
  end.

Definition xadd (a b : xreal) : xreal :=
  match a, b with
  | NaN, _ | _, NaN => NaN
  | Fin r, Fin s => Fin (r + s)
  | PInf, NInf | NInf, PInf => NaN
  | PInf, _ | _, PInf => PInf
  | NInf, _ | _, NInf => NInf
  end.

Definition xsub (a b : xreal) : xreal := xadd a (xopp b).

Definition xmul (a b : xreal) : xreal :=
  match a, b with
  | NaN, _ | _, NaN => NaN
  | Fin r, Fin s => Fin (r * s)
  | Fin r, PInf | PInf, Fin r =>
      if Rlt_dec 0 r then PInf else if Req_dec_T r 0 then NaN else NInf
  | Fin r, NInf | NInf, Fin r =>
      if Rlt_dec 0 r then NInf else if Req_dec_T r 0 then NaN else PInf
  | PInf, PInf | NInf, NInf => PInf
  | PInf, NInf | NInf, PInf => NInf
  end.

Definition xdiv (a b : xreal) : xreal :=
  match a, b with
  | NaN, _ | _, NaN => NaN
  | Fin r, Fin s =>
      if Req_dec_T s 0 then
        if Rlt_dec 0 r then PInf else if Req_dec_T r 0 then NaN else NInf
      else Fin (r / s)
  | Fin _, PInf | Fin _, NInf => Fin 0
  | PInf, Fin s => if Rlt_dec s 0 then NInf else PInf
  | NInf, Fin s => if Rlt_dec s 0 then PInf else NInf
  | PInf, PInf | PInf, NInf | NInf, PInf | NInf, NInf => NaN
  end.

Definition xsigmoid (a : xreal) : xreal :=
  match a with
  | Fin r => Fin (sigmoid r)
  | PInf => Fin 1
  | NInf => Fin 0
  | NaN => NaN
  end.

(** [a < b]; a comparison with NaN is false. *)
Definition xlt (a b : xreal) : bool :=
  match a, b with
  | NaN, _ | _, NaN => false
  | Fin r, Fin s => if Rlt_dec r s then true else false
  | NInf, NInf | PInf, _ | _, NInf => false
  | NInf, _ | _, PInf => true
  end.

(** [torch.max] of the two values: NaN when one of them is. *)
Definition xmax (a b : xreal) : xreal :=
  match a, b with
  | NaN, _ | _, NaN => NaN
  | _, _ => if xlt a b then b else a
  end.

Record drs_args : Type := mkArgs { eps_drs : R; gamma_drs : R }.

Definition default_args : drs_args :=
  {| eps_drs := 1 / 1000; gamma_drs := -3 |}.

(** The distance from 1 to the next float32 number, [2^-23]: for [eps] at
    least this much, [exp eps >= 1 + eps] stays above 1 when it is rounded
    to float32. *)
Definition float32_spacing : R := / 2 ^ 23.

(** The argument of the third logarithm, [1-pq/M*np.exp(args.eps_drs)]. *)
Definition drs_log_arg (pq M : xreal) (args : drs_args) : xreal :=
  xsub (Fin 1) (xmul (xdiv pq M) (Fin (exp (eps_drs args)))).

Definition drs (pq M : xreal) (args : drs_args) : xreal :=
  xsigmoid
    (xsub
       (xsub (xsub (xlog pq) (xlog M)) (xlog (drs_log_arg pq M args)))
       (Fin (gamma_drs args))).

(** One proposal of the generation loop, from the density ratio [pq] of the
    drawn sample and the uniform draw [u]: the new running maximum and
    whether the sample is accepted. *)
Definition proposal (M pq u : xreal) (args : drs_args) : xreal * bool :=
  let M := xmax pq M in
  let p_accept := drs pq M args in
  (M, xlt u p_accept).

(** ** Inputs of the examples *)

(** [torch.full(s, r)] *)
Definition full (s : list nat) (r : R) : rtensor := mkT s (fun _ => r).

(** A batch of two different images of one channel and 4 x 4 pixels. *)
Definition two_images : rtensor :=
  mkT [2; 1; 4; 4]%nat
      (fun idx => match idx with
                  | O :: _ => 1 / 4
                  | _ => 1 / 2
                  end).

(** A batch of two images of one pixel, with the values 1 and 3: their
    mean is 2 and their standard deviation is 1. *)
Definition two_pixels : rtensor :=
  mkT [2; 1; 1; 1]%nat
      (fun idx => match idx with
                  | O :: _ => 1
                  | _ => 3
                  end).

(** An instance of what the model takes from the libraries, for the
    examples: initial weights drawn as 0, the identity matrix as the
    orthogonal factor (its inverse is itself and the logarithm of its
    determinant is 0), and a batch normalization that is never selected. *)
Definition zero_draw : nat -> list nat -> R := fun _ _ => 0.

Definition identity_Q : rtensor -> list nat -> R :=
  fun _ idx => match idx with
               | [i; j] => if (i =? j)%nat then 1 else 0
               | _ => 0
               end.

Definition identity_logabsdet : rtensor -> R := fun _ => 0.

Definition identity_inverse : rtensor -> result rtensor := fun w => Ok w.

Definition no_batchnorm_new : nat -> unit := fun _ => tt.

Definition no_batchnorm_forward : unit -> rtensor -> result (rtensor * unit) :=
  fun b x => Ok (x, b).

(** ** The layers that use linear algebra, batch normalization or random
    initial weights *)

Section Model.

(** [torch.slogdet(w)[1]], the logarithm of the absolute value of the
    determinant, and [torch.inverse]. *)
Variable logabsdet : rtensor -> R.
Variable torch_inverse : rtensor -> result rtensor.

(** The generator of random initial weights: the element at each index of
    the draw made at a given generator state; and the orthogonal factor of a
    QR decomposition. *)
Variable rng_normal : nat -> list nat -> R.
Variable qr_Q : rtensor -> list nat -> R.

(** [nn.BatchNorm2d], the normalization selected by [params.batchnorm]. *)
Variable BatchNorm2d : Type.
Variable BatchNorm2d_new : nat -> BatchNorm2d.
Variable BatchNorm2d_forward : BatchNorm2d -> rtensor -> result (rtensor * BatchNorm2d).

Record params : Type := mkParams { batchnorm : bool }.

Definition randn (seed : nat) (s : list nat) : rtensor :=
  mkT s (rng_normal seed).

(** [nn.init.normal_(w, mean, std)] *)
Definition normal_ (seed : nat) (s : list nat) (mean std : R) : rtensor :=
  mkT s (fun idx => mean + std * rng_normal seed idx).

(** *** [InvConv] *)

Record InvConv : Type := mkInvConv {
  ic_num_channels : nat;
  ic_weight : rtensor
}.

Definition InvConv_new (num_channels seed : nat) : InvConv * nat :=
  let w_init := randn seed [num_channels; num_channels] in
  ({| ic_num_channels := num_channels;
      ic_weight := mkT [num_channels; num_channels] (qr_Q w_init) |},
   S seed).

(** [torch.slogdet(self.weight)[1] * x.size(2) * x.size(3)] *)
Definition InvConv_ldj (self : InvConv) (h w : nat) : rtensor :=
  scalar (logabsdet (ic_weight self) * INR h * INR w).

(** The first statement of [forward]: the update of the accumulator. *)
Definition InvConv_sldj (self : InvConv) (x : rtensor) (sldj : option rtensor)
  (reverse : bool) : result (option rtensor) :=
  match sldj with
  | Some s =>
      h <- size x 2;;
      w <- size x 3;;
      let ldj := InvConv_ldj self h w in
      s' <- (if reverse then tsub s ldj else tadd s ldj);;
      Ok (Some s')
  | None => Ok None
  end.

Definition InvConv_forward (self : InvConv) (x : rtensor) (sldj : option rtensor)
  (reverse : bool) : result (rtensor * option rtensor) :=
  sldj <- InvConv_sldj self x sldj reverse;;
  weight <- (if reverse then torch_inverse (ic_weight self)
             else Ok (ic_weight self));;
  weight <- view weight [ic_num_channels self; ic_num_channels self; 1; 1]%nat;;
  z <- conv2d x weight None 0;;
  Ok (z, sldj).

(** *** [NN], the conditioner of the coupling layer *)

Inductive norm_fn : Type :=
| NormAct (a : ActNorm)
| NormBatch (b : BatchNorm2d).

Definition norm_fn_new (p : params) (num_features : nat) : norm_fn :=
  if batchnorm p then NormBatch (BatchNorm2d_new num_features)
  else NormAct (ActNorm_new num_features 1 false).

(** [x = norm(x)]: a call with the tensor as its only argument. *)
Definition norm_fn_call (n : norm_fn) (x : rtensor) : result (rtensor * norm_fn) :=
  match n with
  | NormAct a =>
      ' (r, a') <- ActNorm_forward a x None false;;
      match r with
      | RetTensor y => Ok (y, NormAct a')
      | RetPair _ _ => Raise TypeError
      end
  | NormBatch b =>
      ' (y, b') <- BatchNorm2d_forward b x;;
      Ok (y, NormBatch b')
  end.

Record NN : Type := mkNN {
  nn_in_norm : norm_fn;
  nn_in_conv : rtensor;
  nn_mid_conv1 : rtensor;
  nn_mid_norm : norm_fn;
  nn_mid_conv2 : rtensor;
  nn_out_norm : norm_fn;
  nn_out_conv_weight : rtensor;
  nn_out_conv_bias : rtensor
}.

Definition NN_new (in_channels mid_channels out_channels : nat) (p : params)
  (seed : nat) : NN * nat :=
  ({| nn_in_norm := norm_fn_new p in_channels;
      nn_in_conv := normal_ seed [mid_channels; in_channels; 3; 3]%nat 0 (5 / 100);
      nn_mid_conv1 :=
        normal_ (seed + 1) [mid_channels; mid_channels; 3; 3]%nat 0 (5 / 100);
      nn_mid_norm := norm_fn_new p mid_channels;
      nn_mid_conv2 :=
        normal_ (seed + 2) [mid_channels; mid_channels; 1; 1]%nat 0 (5 / 100);
      nn_out_norm := norm_fn_new p mid_channels;
      nn_out_conv_weight := zeros [out_channels; mid_channels; 3; 3]%nat;
      nn_out_conv_bias := zeros [out_channels] |},
   (seed + 3)%nat).

Definition NN_forward (self : NN) (x : rtensor) : result (rtensor * NN) :=
  ' (x, in_norm) <- norm_fn_call (nn_in_norm self) x;;
  x1 <- conv2d x (nn_in_conv self) None 1;;
  x <- conv2d x (nn_in_conv self) None 1;;
  let x := relu x in
  x <- conv2d x (nn_mid_conv1 self) None 1;;
  ' (x, mid_norm) <- norm_fn_call (nn_mid_norm self) x;;
  let x := relu x in
  x <- conv2d x (nn_mid_conv2 self) None 0;;
  ' (x, out_norm) <- norm_fn_call (nn_out_norm self) x;;
  let x := relu x in
  x <- conv2d x (nn_out_conv_weight self) (Some (nn_out_conv_bias self)) 1;;
  Ok (x, {| nn_in_norm := in_norm;
            nn_in_conv := nn_in_conv self;
            nn_mid_conv1 := nn_mid_conv1 self;
            nn_mid_norm := mid_norm;
            nn_mid_conv2 := nn_mid_conv2 self;
            nn_out_norm := out_norm;
            nn_out_conv_weight := nn_out_conv_weight self;
            nn_out_conv_bias := nn_out_conv_bias self |}).

(** *** [Coupling] *)

Record Coupling : Type := mkCoupling {
  cp_nn : NN;
  cp_scale : rtensor
}.

Definition Coupling_new (in_channels mid_channels : nat) (p : params)
  (seed : nat) : Coupling * nat :=
  let (net, seed') := NN_new in_channels mid_channels (2 * in_channels) p seed in
  ({| cp_nn := net; cp_scale := ones [in_channels; 1; 1]%nat |}, seed').

(** [ldj -/+ s.flatten(1).sum(-1)] when an accumulator is given. *)
Definition Coupling_ldj (s : rtensor) (ldj : option rtensor) (reverse : bool)
  : result (option rtensor) :=
  match ldj with
  | Some l =>
      f <- flatten1 s;;
      t <- sum_last f;;
      l' <- (if reverse then tsub l t else tadd l t);;
      Ok (Some l')
  | None => Ok None
  end.

Definition Coupling_forward (self : Coupling) (x : rtensor) (ldj : option rtensor)
  (reverse : bool) : result (rtensor * option rtensor * Coupling) :=
  halves <- chunk x 2 1;;
  match halves with
  | [x_change; x_id] =>
      ' (st, net) <- NN_forward (cp_nn self) x_id;;
      s <- slice_step st 1 0 2;;
      t <- slice_step st 1 1 2;;
      s <- tmul (cp_scale self) (tmap tanh s);;
      ' (x_change, ldj) <-
        (if reverse then
           x_change <- tmul x_change (tmap exp (tmap (fun r => r * -1) s));;
           x_change <- tsub x_change t;;
           ldj <- Coupling_ldj s ldj reverse;;
           Ok (x_change, ldj)
         else
           x_change <- tadd x_change t;;
           x_change <- tmul x_change (tmap exp s);;
           ldj <- Coupling_ldj s ldj reverse;;
           Ok (x_change, ldj));;
      x <- cat x_change x_id 1;;
      Ok (x, ldj, {| cp_nn := net; cp_scale := cp_scale self |})
  | _ => Raise ValueError
  end.

(** *** [_FlowStep] *)

Record _FlowStep : Type := mkFlowStep {
  fs_norm : ActNorm;
  fs_conv : InvConv;
  fs_coup : Coupling
}.

Definition _FlowStep_new (in_channels mid_channels : nat) (p : params)
  (seed : nat) : _FlowStep * nat :=
  let norm := ActNorm_new in_channels 1 true in
  let (conv, seed1) := InvConv_new in_channels seed in
  let (coup, seed2) := Coupling_new (in_channels / 2) mid_channels p seed1 in
  ({| fs_norm := norm; fs_conv := conv; fs_coup := coup |}, seed2).

(** [x, sldj = self.norm(x, sldj, reverse)] *)
Definition norm_call_pair (a : ActNorm) (x : rtensor) (sldj : option rtensor)
  (reverse : bool) : result (rtensor * option rtensor * ActNorm) :=
  ' (r, a') <- ActNorm_forward a x sldj reverse;;
  match r with
  | RetPair y l => Ok (y, l, a')
  | RetTensor y => ' (y0, y1) <- unpack2 y;; Ok (y0, Some y1, a')
  end.

Definition _FlowStep_forward (self : _FlowStep) (x : rtensor)
  (sldj : option rtensor) (reverse : bool)
  : result (rtensor * option rtensor * _FlowStep) :=
  if reverse then
    ' (x, sldj, coup) <- Coupling_forward (fs_coup self) x sldj reverse;;
    ' (x, sldj) <- InvConv_forward (fs_conv self) x sldj reverse;;
    ' (x, sldj, norm) <- norm_call_pair (fs_norm self) x sldj reverse;;
    Ok (x, sldj, {| fs_norm := norm; fs_conv := fs_conv self; fs_coup := coup |})
  else
    ' (x, sldj, norm) <- norm_call_pair (fs_norm self) x sldj reverse;;
    ' (x, sldj) <- InvConv_forward (fs_conv self) x sldj reverse;;
    ' (x, sldj, coup) <- Coupling_forward (fs_coup self) x sldj reverse;;
    Ok (x, sldj, {| fs_norm := norm; fs_conv := fs_conv self; fs_coup := coup |}).

(** *** [_Glow], one level of the flow and the levels below it *)

Inductive _Glow : Type :=
| mkGlowLevel (steps : list _FlowStep) (next : option _Glow).

Definition gl_next (g : _Glow) : option _Glow :=
  match g with mkGlowLevel _ next => next end.

Fixpoint steps_new (in_channels mid_channels : nat) (p : params)
  (num_steps seed : nat) : list _FlowStep * nat :=
  match num_steps with
  | O => ([], seed)
  | S n =>
      let (step, seed1) := _FlowStep_new in_channels mid_channels p seed in
      let (rest, seed2) := steps_new in_channels mid_channels p n seed1 in
      (step :: rest, seed2)
  end.

(** The constructor recurses while [num_levels > 1]. *)
Fixpoint _Glow_new (in_channels mid_channels num_levels num_steps : nat)
  (p : params) (seed : nat) : _Glow * nat :=
  let (steps, seed1) := steps_new in_channels mid_channels p num_steps seed in
  match num_levels with
  | S (S n as lower) =>
      let (next, seed2) :=
        _Glow_new (4 * in_channels) mid_channels lower num_steps p seed1 in
      (mkGlowLevel steps (Some next), seed2)
  | _ => (mkGlowLevel steps None, seed1)
  end.

(** [for step in steps: x, sldj = step(x, sldj, reverse)]; the steps are
    returned with the state they have after their call. *)
Fixpoint run_steps (steps : list _FlowStep) (x : rtensor) (sldj : option rtensor)
  (reverse : bool) : result (rtensor * option rtensor * list _FlowStep) :=
  match steps with
  | [] => Ok (x, sldj, [])
  | step :: rest =>
      ' (x, sldj, step') <- _FlowStep_forward step x sldj reverse;;
      ' (x, sldj, rest') <- run_steps rest x sldj reverse;;
      Ok (x, sldj, step' :: rest')
  end.

(** [for step in reversed(steps)] *)
Definition run_steps_reversed (steps : list _FlowStep) (x : rtensor)
  (sldj : option rtensor) (reverse : bool)
  : result (rtensor * option rtensor * list _FlowStep) :=
  ' (x, sldj, steps') <- run_steps (rev steps) x sldj reverse;;
  Ok (x, sldj, rev steps').

Fixpoint _Glow_forward (self : _Glow) (x : rtensor) (sldj : option rtensor)
  (reverse : bool) : result (rtensor * option rtensor * _Glow) :=
  match self with
  | mkGlowLevel steps next =>
      ' (x, sldj, steps) <-
        (if negb reverse then
           ' (x, sldj, steps') <- run_steps steps x sldj reverse;;
           ' (x, sldj) <- squeeze_step false (x, sldj);;
           Ok (x, sldj, steps')
         else Ok (x, sldj, steps));;
      ' (x, sldj, next) <-
        match next with
        | Some lower =>
            ' (x, sldj, lower') <- _Glow_forward lower x sldj reverse;;
            Ok (x, sldj, Some lower')
        | None => Ok (x, sldj, None)
        end;;
      ' (x, sldj, steps) <-
        (if reverse then
           ' (x, sldj) <- squeeze_step reverse (x, sldj);;
           run_steps_reversed steps x sldj reverse
         else Ok (x, sldj, steps));;
      Ok (x, sldj, mkGlowLevel steps next)
  end.

(** *** [Glow] *)

Record Glow : Type := mkGlow {
  glow_params : params;
  glow_flows : _Glow;
  glow_init : LogitTransform
}.

Definition Glow_new (in_channels num_channels num_levels num_steps : nat)
  (p : params) (seed : nat) : Glow * nat :=
  let (flows, seed') :=
    _Glow_new (in_channels * 4) num_channels num_levels num_steps p seed in
  ({| glow_params := p; glow_flows := flows; glow_init := LogitTransform_new |},
   seed').

Definition Glow_forward (self : Glow) (x : rtensor) (sldj : option rtensor)
  (reverse : bool) : result (rtensor * option rtensor * Glow) :=
  ' (x, sldj) <-
    (if negb reverse then
       ' (x, sldj) <- LogitTransform_forward (glow_init self) x sldj false;;
       squeeze_step false (x, sldj)
     else Ok (x, sldj));;
  ' (x, sldj, flows) <- _Glow_forward (glow_flows self) x sldj reverse;;
  ' (x, sldj) <-
    (if reverse then
       ' (x, sldj) <- squeeze_step true (x, sldj);;
       LogitTransform_forward (glow_init self) x sldj true
     else Ok (x, sldj));;
  Ok (x, sldj, {| glow_params := glow_params self;
                  glow_flows := flows;
                  glow_init := glow_init self |}).

(** *** Shapes of the parameters *)

(** A normalization of the conditioner: an [ActNorm] over [nc] channels
    that returns the tensor alone. *)
Definition norm_ok (n : norm_fn) (nc : nat) : Prop :=
  match n with
  | NormAct a => per_channel a nc /\ an_return_ldj a = false
  | NormBatch _ => False
  end.

Definition NN_shapes (net : NN) (cin mid cout : nat) : Prop :=
  norm_ok (nn_in_norm net) cin /\
  (shape (nn_in_conv net) = [mid; cin; 3; 3]%nat) /\
  (shape (nn_mid_conv1 net) = [mid; mid; 3; 3]%nat) /\
  norm_ok (nn_mid_norm net) mid /\
  (shape (nn_mid_conv2 net) = [mid; mid; 1; 1]%nat) /\
  norm_ok (nn_out_norm net) mid /\
  (shape (nn_out_conv_weight net) = [cout; mid; 3; 3]%nat) /\
  (shape (nn_out_conv_bias net) = [cout]).

(** The last convolution of the conditioner has zero weights and bias. *)
Definition NN_zero_out (net : NN) : Prop :=
  (forall idx, get (nn_out_conv_weight net) idx = 0) /\
  (forall idx, get (nn_out_conv_bias net) idx = 0).

Definition Coupling_shapes (cp : Coupling) (k mid : nat) : Prop :=
  NN_shapes (cp_nn cp) k mid (2 * k) /\ (shape (cp_scale cp) = [k; 1; 1]%nat).

Definition _FlowStep_shapes (fs : _FlowStep) (c mid : nat) : Prop :=
  per_channel (fs_norm fs) c /\
  an_return_ldj (fs_norm fs) = true /\
  ic_num_channels (fs_conv fs) = c /\
  (shape (ic_weight (fs_conv fs)) = [c; c]) /\
  Coupling_shapes (fs_coup fs) (c / 2) mid.

(** Shape of the accumulator, if there is one. *)
Definition acc_shape (sldj : option rtensor) : option (list nat) :=
  option_map (@shape R) sldj.

(** An accumulator, if there is one, has one entry per element of the
    batch. *)
Definition acc_per_batch (sldj : option rtensor) (b : nat) : Prop :=
  forall l, sldj = Some l -> shape l = [b].

(** Number of levels that the constructor builds, each of which squeezes
    once in the forward direction. *)
Fixpoint num_built_levels (num_levels : nat) : nat :=
  match num_levels with
  | S (S n as lower) => S (num_built_levels lower)
  | _ => 1
  end.

(** The forward direction followed by the reverse direction on its output,
    the accumulator threaded through both. *)
Definition Glow_forward_then_reverse (self : Glow) (x : rtensor)
  (sldj : option rtensor) : result (rtensor * option rtensor * Glow) :=
  ' (z, sldj, self) <- Glow_forward self x sldj false;;
  Glow_forward self z sldj true.

(** Shapes of the tensor and of the accumulator that a call returns. *)
Definition returned_shapes (r : result (rtensor * option rtensor * Glow))
  : option (list nat * option (list nat)) :=
  match r with
  | Ok (y, sldj, _) => Some (shape y, acc_shape sldj)
  | Raise _ => None
  end.

(** *** Conditions under which the reverse direction undoes the forward
    direction *)

(** Equality of two optional accumulators. *)
Definition acc_eq (l l' : option rtensor) : Prop :=
  match l, l' with
  | None, None => True
  | Some a, Some b => teq a b
  | _, _ => False
  end.

(** A layer that [forward] no longer initializes: its flag is set or it is
    not in training mode. *)
Definition ActNorm_settled (a : ActNorm) : Prop :=
  an_training a = false \/ an_is_initialized a <> 0%nat.

Definition norm_settled (n : norm_fn) : Prop :=
  match n with
  | NormAct a => ActNorm_settled a
  | NormBatch _ => False
  end.

Definition NN_settled (net : NN) : Prop :=
  norm_settled (nn_in_norm net) /\
  norm_settled (nn_mid_norm net) /\
  norm_settled (nn_out_norm net).

(** [w'] is a left inverse of the [c] x [c] matrix [w]. *)
Definition left_inverse (w' w : rtensor) (c : nat) : Prop :=
  (shape w' = [c; c]) /\
  forall o d, (o < c)%nat -> (d < c)%nat ->
    Rsum c (fun j => get w' [o; j] * get w [j; d])
    = if (o =? d)%nat then 1 else 0.

(** [torch.inverse] returns a left inverse of the weight of the layer. *)
Definition InvConv_invertible (ic : InvConv) : Prop :=
  exists w', torch_inverse (ic_weight ic) = Ok w' /\
             left_inverse w' (ic_weight ic) (ic_num_channels ic).

(** A step over [c] channels whose parameters have the shapes that the
    constructor gives them and whose weight can be inverted. *)
Definition _FlowStep_ready (fs : _FlowStep) (c mid : nat) : Prop :=
  _FlowStep_shapes fs c mid /\ InvConv_invertible (fs_conv fs).

Fixpoint _Glow_ready (g : _Glow) (c mid : nat) : Prop :=
  match g with
  | mkGlowLevel steps next =>
      Forall (fun fs => _FlowStep_ready fs c mid) steps /\
      match next with
      | Some lower => _Glow_ready lower (4 * c) mid
      | None => True
      end
  end.

(** Number of levels of a flow. *)
Fixpoint _Glow_depth (g : _Glow) : nat :=
  match g with
  | mkGlowLevel _ next =>
      S (match next with
         | Some lower => _Glow_depth lower
         | None => O
         end)
  end.

(** The elements of [x] are mapped by [alpha + (1 - 2 alpha) x] into the
    open unit interval, where the logit is defined. *)
Definition in_logit_domain (lt : LogitTransform) (x : rtensor) : Prop :=
  forall idx, in_range idx (shape x) ->
    0 < lt_alpha lt + (1 - 2 * lt_alpha lt) * get x idx < 1.

(** [torch.inverse] inverts the weight that the constructor of [InvConv]
    draws, whatever the number of channels and the state of the
    generator. *)
Definition inverts_initial_weights : Prop :=
  forall c seed, InvConv_invertible (fst (InvConv_new c seed)).

(** *** The generation loop of [generate.py] *)

(** [M = torch.max(torch.vstack((pq, M)))] for the density ratios [pq] of a
    batch. *)
Definition update_M (pq : list xreal) (M : xreal) : xreal :=
  fold_right xmax M pq.

(** The first loop: the running maximum starts at 0 and is updated with
    every batch. *)
Definition evaluate_M (batches : list (list xreal)) : xreal :=
  fold_left (fun M pq => update_M pq M) batches (Fin 0).

(** [while not accepted] over the draws made so far, each the density ratio
    of a sample and a uniform number: the running maximum, and the density
    ratio of the sample that was accepted, if one was. *)
Fixpoint accept_loop (M : xreal) (draws : list (xreal * xreal))
  (args : drs_args) : xreal * option xreal :=
  match draws with
  | [] => (M, None)
  | (pq, u) :: rest =>
      let (M', accepted) := proposal M pq u args in
      if accepted then (M', Some pq) else accept_loop M' rest args
  end.

(** *** [Discriminator] *)

(** The blocks of convolutions and the linear layer of the discriminator in
    inference mode, [self.adv_layer(self.model(out).view(out.shape[0], -1))]:
    a function of the batch. *)
Variable Discriminator_logit : rtensor -> result rtensor.

Definition Discriminator_forward (img : rtensor) : result rtensor :=
  let out := tmap (fun r => r * 2 - 1) img in
  validity <- Discriminator_logit out;;
  Ok (tmap sigmoid validity).

(** [torch.clamp(x, max=m)] *)
Definition clamp_max (m : R) (x : rtensor) : rtensor :=
  tmap (fun r => Rmin r m) x.

(** [Discriminator.pq]: the exponential of the logit, capped at 200.  The
    entries are real numbers here; in float32 the exponential of a logit
    below about -104 is rounded to 0 and the sigmoid of [forward] reaches 0
    and 1, so bounds on the entries are stated with [<=]. *)
Definition Discriminator_pq (img : rtensor) : result rtensor :=
  let out := tmap (fun r => r * 2 - 1) img in
  validity <- Discriminator_logit out;;
  Ok (clamp_max 200 (tmap exp validity)).

(** *** [utils.py] *)

(** [AddNoise.forward], with the draw of [torch.rand(x.size())] given by its
    element at each index.  The arithmetic is that of the real numbers; in
    float32 the sum [x * 255 + u] at [x = 1] and [u] next to 1 is rounded
    to 256, so that the result reaches 1. *)
Definition AddNoise_nvals : R := 2 ^ 8.

Definition AddNoise_forward (rand : list nat -> R) (x : rtensor)
  : result rtensor :=
  x <- tadd (tmap (fun r => r * (AddNoise_nvals - 1)) x) (mkT (shape x) rand);;
  Ok (tmap (fun r => r / AddNoise_nvals) x).

(** [np.prod(x.size()[1:])] *)
Definition prod_sizes_after_first (x : rtensor) : R :=
  INR (numel (tl (shape x))).

Definition bits_per_dim (x nll : rtensor) : rtensor :=
  let dim := prod_sizes_after_first x in
  tmap (fun r => r / (ln 2 * dim)) nll.

(** [Normal(0, 1).log_prob] *)
Definition Normal_log_prob (z : R) : R :=
  - (z ^ 2) / 2 - ln (sqrt (2 * PI)).

Record NLLLoss : Type := mkNLLLoss { nll_k : R }.

Definition NLLLoss_new : NLLLoss := {| nll_k := 2 ^ 8 |}.

Definition NLLLoss_forward (self : NLLLoss) (z sldj : rtensor)
  : result (rtensor * rtensor) :=
  prior_ll <- flatten1 (tmap Normal_log_prob z);;
  prior_ll <- sum_last prior_ll;;
  let prior_ll :=
    tmap (fun r => r - ln (nll_k self) * prod_sizes_after_first z) prior_ll in
  ll <- tadd prior_ll sldj;;
  let nll := tmap Ropp ll in
  Ok (mean_all nll, mean_all (bits_per_dim z nll)).

(** *** [train.py] *)

(** [one_step_eval]: the accumulator starts as [torch.zeros(inputs.size(0))];
    the criterion adds what the model returns for it to the likelihood of
    the latent. *)
Definition one_step_eval (inputs : rtensor) (model : Glow)
  (criterion : NLLLoss) : result (rtensor * Glow) :=
  b <- size inputs 0;;
  let sldj := zeros [b] in
  ' (outputs, sldj, model) <- Glow_forward model inputs (Some sldj) false;;
  match sldj with
  | Some sldj =>
      ' (nll, bpd) <- NLLLoss_forward criterion outputs sldj;;
      Ok (tmap (fun r => r * INR b) bpd, model)
  | None => Raise TypeError
  end.

(** *** The parameter groups of the optimizer *)

Section ParameterGroups.
Import Stdlib.Strings.Ascii Stdlib.Strings.String.
Local Open Scope string_scope.

Fixpoint starts_with (p s : list ascii) : bool :=
  match p, s with
  | [], _ => true
  | a :: p', b :: s' => Ascii.eqb a b && starts_with p' s'
  | _ :: _, [] => false
  end.

(** [n.endswith(suffix)] *)
Definition endswith (n suffix : string) : bool :=
  starts_with (rev (list_ascii_of_string suffix))
              (rev (list_ascii_of_string n)).

(** The parameters of a network, of whatever type. *)
Variable parameter : Type.

(** A group as the optimizer reads it: its own weight decay, or none, in
    which case it inherits that of the optimizer. *)
Record param_group : Type := mkGroup {
  pg_name : string;
  pg_params : list parameter;
  pg_weight_decay : option R
}.

Definition get_param_groups (named_parameters : list (string * parameter))
  (weight_decay : R) (norm_suffix : string) : list param_group :=
  let '(norm_params, unnorm_params) :=
    fold_left
      (fun groups np =>
         if endswith (fst np) norm_suffix
         then ((fst groups ++ [snd np])%list, snd groups)
         else (fst groups, (snd groups ++ [snd np])%list))
      named_parameters ([], []) in
  [ {| pg_name := "normalized"; pg_params := norm_params;
       pg_weight_decay := Some weight_decay |};
    {| pg_name := "unnormalized"; pg_params := unnorm_params;
       pg_weight_decay := None |} ].

(** The attributes under which the modules of [model.py] and the layers of
    the library that they use register their parameters: [bias] and [logs]
    of the activation normalization, [weight] and [bias] of convolutions,
    linear layers and batch normalization, [weight] of the invertible
    convolution, [scale] of the coupling layer. *)
Definition parameter_attributes : list string :=
  ["bias"; "logs"; "weight"; "scale"].

(** The name of a parameter: a path of module names, then an attribute. *)
Definition parameter_name (n : string) : Prop :=
  exists path leaf, In leaf parameter_attributes /\ n = path ++ leaf.

End ParameterGroups.

(** *** Models that a call no longer changes *)

(** Every normalization of the conditioner is an activation
    normalization. *)
Definition norm_is_act (n : norm_fn) : Prop :=
  match n with
  | NormAct _ => True
  | NormBatch _ => False
  end.

Definition NN_actnorm (net : NN) : Prop :=
  norm_is_act (nn_in_norm net) /\
  norm_is_act (nn_mid_norm net) /\
  norm_is_act (nn_out_norm net).

Definition _FlowStep_actnorm (fs : _FlowStep) : Prop :=
  NN_actnorm (cp_nn (fs_coup fs)).

Fixpoint _Glow_actnorm (g : _Glow) : Prop :=
  match g with
  | mkGlowLevel steps next =>
      Forall _FlowStep_actnorm steps /\
      match next with
      | Some lower => _Glow_actnorm lower
      | None => True
      end
  end.

(** No activation normalization of the step, of the flow, is still to be
    initialized. *)
Definition _FlowStep_settled (fs : _FlowStep) : Prop :=
  ActNorm_settled (fs_norm fs) /\ NN_settled (cp_nn (fs_coup fs)).

Fixpoint _Glow_settled (g : _Glow) : Prop :=
  match g with
  | mkGlowLevel steps next =>
      Forall _FlowStep_settled steps /\
      match next with
      | Some lower => _Glow_settled lower
      | None => True
      end
  end.
Close Scope R_scope.
Unset Implicit Arguments.

(** ** Tactics *)

(** Case analysis on the comparisons of sizes in the goal. *)
Ltac eqb_cases :=
  repeat match goal with
         | |- context [(?a =? ?b)%nat] =>
             let E := fresh "E" in
             destruct (a =? b)%nat eqn:E;
             [apply Nat.eqb_eq in E | apply Nat.eqb_neq in E]
         end.

(** Inversion of a chain of calls that returned. *)
Ltac bind_step H :=
  match type of H with
  | bind ?r _ = Ok _ =>
      let E := fresh "E" in
      destruct r as [?v|?e] eqn:E; cbn [bind] in H; [|discriminate H]
  | (let (_, _) := ?p in _) = Ok _ => destruct p
  | (if ?c then _ else _) = Ok _ => destruct c eqn:?
  | match ?o with Some _ => _ | None => _ end = Ok _ => destruct o eqn:?
  end.

Ltac bind_all :=
  repeat match goal with
         | H : bind ?r _ = Ok _ |- _ =>
             let E := fresh "E" in
             destruct r as [?v|?e] eqn:E; cbn [bind] in H; [|discriminate H]
         | H : (let (_, _) := ?p in _) = Ok _ |- _ => destruct p
         | H : Ok _ = Ok _ |- _ => inversion H; subst; clear H
         end.


(** ** Index arithmetic lemmas *)

Lemma ravel_lt (s idx : list nat) :
  in_range idx s -> ravel s idx < numel s.
Proof.
  intros H. induction H as [|i d idx s Hi _ IH]; simpl; [lia|].
  nia.
Qed.

Lemma unravel_in_range (s : list nat) :
  forall n, n < numel s -> in_range (unravel s n) s.
Proof.
  induction s as [|d s IH]; intros n Hn; simpl in *.
  - constructor.
  - assert (Hpos : numel s <> 0) by (intros E; rewrite E in Hn; lia).
    constructor.
    + apply Nat.Div0.div_lt_upper_bound. lia.
    + apply IH. apply Nat.mod_upper_bound. exact Hpos.
Qed.

Lemma ravel_unravel (s : list nat) :
  forall n, n < numel s -> ravel s (unravel s n) = n.
Proof.
  induction s as [|d s IH]; intros n Hn; simpl in *.
  - lia.
  - assert (Hpos : numel s <> 0) by (intros E; rewrite E in Hn; lia).
    rewrite IH by (apply Nat.mod_upper_bound; exact Hpos).
    pose proof (Nat.div_mod_eq n (numel s)). lia.
Qed.

Lemma unravel_ravel (s idx : list nat) :
  in_range idx s -> unravel s (ravel s idx) = idx.
Proof.
  intros H. induction H as [|i d idx s Hi Hr IH]; simpl; [reflexivity|].
  pose proof (ravel_lt _ _ Hr) as Hlt.
  assert (Hq : (i * numel s + ravel s idx) / numel s = i).
  { rewrite Nat.div_add_l by lia. rewrite Nat.div_small by exact Hlt. lia. }
  assert (Hm : (i * numel s + ravel s idx) mod numel s = ravel s idx).
  { rewrite Nat.add_comm, Nat.Div0.mod_add. apply Nat.mod_small. exact Hlt. }
  rewrite Hq, Hm, IH. reflexivity.
Qed.

(** An index read through a view of a view lands where it started. *)
Lemma reindex_through (s t idx : list nat) :
  numel s = numel t -> in_range idx s ->
  unravel s (ravel t (unravel t (ravel s idx))) = idx.
Proof.
  intros Hst Hin.
  rewrite ravel_unravel by (rewrite <- Hst; apply ravel_lt; exact Hin).
  apply unravel_ravel. exact Hin.
Qed.

Lemma in_range_length (idx s : list nat) :
  in_range idx s -> length idx = length s.
Proof.
  intros H. induction H; simpl; congruence.
Qed.

Lemma even_half_twice (n : nat) : Nat.even n = true -> n / 2 * 2 = n.
Proof.
  intros H. apply Nat.even_spec in H. destruct H as [k ->].
  replace (2 * k) with (k * 2) by lia.
  rewrite Nat.div_mul by lia. reflexivity.
Qed.

(** ** [view] and [permute] *)

Lemma view_ok (A : Type) (x : tensor A) (s : list nat) :
  numel s = numel (shape x) ->
  view x s = Ok (mkT s (fun idx => get x (unravel (shape x) (ravel s idx)))).
Proof.
  intros H. unfold view. rewrite H, Nat.eqb_refl. reflexivity.
Qed.

Lemma view_raises (A : Type) (x : tensor A) (s : list nat) :
  numel s <> numel (shape x) -> view x s = Raise RuntimeError.
Proof.
  intros H. unfold view. apply Nat.eqb_neq in H. rewrite H. reflexivity.
Qed.

Lemma in_range6 (idx : list nat) (d0 d1 d2 d3 d4 d5 : nat) :
  in_range idx [d0; d1; d2; d3; d4; d5] ->
  exists i0 i1 i2 i3 i4 i5,
    idx = [i0; i1; i2; i3; i4; i5] /\
    i0 < d0 /\ i1 < d1 /\ i2 < d2 /\ i3 < d3 /\ i4 < d4 /\ i5 < d5.
Proof.
  intros H.
  repeat match goal with
         | H : in_range _ (_ :: _) |- _ => inversion H; subst; clear H
         | H : Forall2 _ _ (_ :: _) |- _ => inversion H; subst; clear H
         | H : in_range _ [] |- _ => inversion H; subst; clear H
         | H : Forall2 _ _ [] |- _ => inversion H; subst; clear H
         end.
  do 6 eexists. repeat split; eassumption.
Qed.

Lemma in_range6_intro (i0 i1 i2 i3 i4 i5 d0 d1 d2 d3 d4 d5 : nat) :
  i0 < d0 -> i1 < d1 -> i2 < d2 -> i3 < d3 -> i4 < d4 -> i5 < d5 ->
  in_range [i0; i1; i2; i3; i4; i5] [d0; d1; d2; d3; d4; d5].
Proof.
  intros. repeat constructor; assumption.
Qed.

(** ** Squeeze followed by unsqueeze *)

Lemma squeeze_roundtrip (A : Type) (x : tensor A) (b c h w : nat) :
  shape x = [b; c; h; w] ->
  Nat.even h = true -> Nat.even w = true ->
  exists y x',
    squeeze x false = Ok y /\ shape y = [b; c * 2 * 2; h / 2; w / 2] /\
    squeeze y true = Ok x' /\ teq x' x.
Proof.
  intros Hs Hh Hw.
  pose proof (even_half_twice _ Hh) as Eh.
  pose proof (even_half_twice _ Hw) as Ew.
  assert (Ec : c * 2 * 2 / 4 = c).
  { replace (c * 2 * 2) with (c * 4) by lia. apply Nat.div_mul. lia. }
  assert (N1 : numel [b; c; h / 2; 2; w / 2; 2] = numel [b; c; h; w]).
  { cbn [numel]. nia. }
  assert (N2 : numel [b; c; 2; 2; h / 2; w / 2]
               = numel [b; c * 2 * 2; h / 2; w / 2]).
  { cbn [numel]. nia. }
  assert (N3 : numel [b; c; h / 2 * 2; w / 2 * 2]
               = numel [b; c; h / 2; 2; w / 2; 2]).
  { cbn [numel]. nia. }
  eexists. eexists. split; [|split; [|split]].
  - unfold squeeze. rewrite Hs.
    rewrite view_ok by (rewrite Hs; exact N1).
    cbn [bind]. unfold permute. cbn [shape length].
    replace (is_permutation [0; 1; 3; 5; 2; 4] 6) with true by reflexivity.
    cbn [map nth bind].
    rewrite view_ok by (cbn [shape]; symmetry; exact N2).
    reflexivity.
  - reflexivity.
  - unfold squeeze. cbn [shape]. rewrite Ec.
    rewrite view_ok by (cbn [shape]; exact N2).
    cbn [bind]. unfold permute. cbn [shape length].
    replace (is_permutation [0; 1; 4; 2; 5; 3] 6) with true by reflexivity.
    cbn [map nth bind].
    rewrite view_ok by (cbn [shape]; exact N3).
    reflexivity.
  - split.
    + cbn [shape]. rewrite Hs, Eh, Ew. reflexivity.
    + cbn [shape get]. intros idx Hidx. rewrite Hs.
      rewrite Eh, Ew in Hidx. rewrite Eh, Ew.
      assert (Hj : in_range (unravel [b; c; h / 2; 2; w / 2; 2]
                               (ravel [b; c; h; w] idx))
                            [b; c; h / 2; 2; w / 2; 2]).
      { apply unravel_in_range. rewrite N1. apply ravel_lt. exact Hidx. }
      destruct (in_range6 _ _ _ _ _ _ _ Hj)
        as (i0 & i1 & i2 & i3 & i4 & i5 & Ej & L0 & L1 & L2 & L3 & L4 & L5).
      rewrite Ej. cbn [map seq nth index_of Nat.eqb].
      rewrite reindex_through.
      2:{ exact N2. }
      2:{ apply in_range6_intro; assumption. }
      cbn [nth]. rewrite <- Ej.
      rewrite reindex_through; [reflexivity | symmetry; exact N1 | exact Hidx].
Qed.

(** C6: for a tensor of shape (B, C, H, W) with even H and W, squeezing and
    then unsqueezing returns a tensor with the shape and every element of
    the input, and each direction hands the accumulator on as it received
    it. *)
Theorem squeeze_unsqueeze_exact (A S : Type) (x : tensor A) (sldj : option S)
  (b c h w : nat) :
  shape x = [b; c; h; w] ->
  Nat.even h = true -> Nat.even w = true ->
  (exists y x',
      squeeze_step false (x, sldj) = Ok (y, sldj) /\
      squeeze_step true (y, sldj) = Ok (x', sldj) /\
      shape y = [b; 4 * c; h / 2; w / 2] /\
      teq x' x) /\
  (forall (reverse : bool) (st st' : tensor A * option S),
      squeeze_step reverse st = Ok st' -> snd st' = snd st).
Proof.
  intros Hs Hh Hw. split.
  - destruct (squeeze_roundtrip A x b c h w Hs Hh Hw)
      as (y & x' & Hf & Hy & Hr & Heq).
    exists y, x'. unfold squeeze_step. cbn [fst snd].
    rewrite Hf, Hr. cbn [bind].
    repeat split; try reflexivity; try apply Heq.
    rewrite Hy. f_equal. f_equal. lia.
  - intros reverse [x0 s0] [x1 s1]. unfold squeeze_step. cbn [fst snd].
    destruct (squeeze x0 reverse) as [z|e]; cbn [bind]; intros E.
    + inversion E. reflexivity.
    + discriminate.
Qed.

(** ** The rejection sampler *)

Section DRS.
Local Open Scope R_scope.

Lemma exp_gt_1 (e : R) : 0 < e -> 1 < exp e.
Proof. intros H. rewrite <- exp_0. apply exp_increasing. exact H. Qed.

Lemma xlog_neg (a : R) : a < 0 -> xlog (Fin a) = NaN.
Proof.
  intros H. unfold xlog.
  destruct (Rlt_dec 0 a) as [P|_]; [lra|].
  destruct (Req_dec_T a 0) as [Z|_]; [lra|]. reflexivity.
Qed.

Lemma xlog_pos (a : R) : 0 < a -> xlog (Fin a) = Fin (ln a).
Proof.
  intros H. unfold xlog. destruct (Rlt_dec 0 a) as [_|N]; [reflexivity|lra].
Qed.

Lemma xdiv_fin (r s : R) : s <> 0 -> xdiv (Fin r) (Fin s) = Fin (r / s).
Proof.
  intros H. unfold xdiv. destruct (Req_dec_T s 0) as [Z|_]; [contradiction|reflexivity].
Qed.

Lemma drs_log_arg_at_max (r : R) (args : drs_args) :
  0 < r -> drs_log_arg (Fin r) (Fin r) args = Fin (1 - exp (eps_drs args)).
Proof.
  intros Hr. unfold drs_log_arg. rewrite xdiv_fin by lra. cbn.
  f_equal. field. lra.
Qed.

Lemma drs_at_max (r : R) (args : drs_args) :
  0 < r -> 0 < eps_drs args -> drs (Fin r) (Fin r) args = NaN.
Proof.
  intros Hr He. unfold drs. rewrite drs_log_arg_at_max by exact Hr.
  rewrite (xlog_neg (1 - exp (eps_drs args)))
    by (pose proof (exp_gt_1 _ He); lra).
  rewrite xlog_pos by exact Hr. reflexivity.
Qed.


(** C3: with the default arguments and a maximum of 10, the acceptance
    probability of a sample whose density ratio is the maximum is NaN, and
    is not above that of a sample at a tenth of the maximum. *)
Theorem drs_default_nan_at_maximum :
  drs (Fin 10) (Fin 10) default_args = NaN /\
  xlt (drs (Fin 1) (Fin 10) default_args) (drs (Fin 10) (Fin 10) default_args) = false.
Proof.
  assert (E : drs (Fin 10) (Fin 10) default_args = NaN).
  { apply drs_at_max; cbn; lra. }
  rewrite E. split; [reflexivity|].
  unfold xlt. destruct (drs (Fin 1) (Fin 10) default_args); reflexivity.
Qed.

End DRS.

(** ** Broadcasting *)

Lemma broadcast_rev_same (s : list nat) : broadcast_rev s s = Some s.
Proof.
  induction s as [|d s IH]; cbn; [reflexivity|].
  rewrite IH, Nat.eqb_refl. reflexivity.
Qed.

Lemma broadcast_shapes_same (s : list nat) : broadcast_shapes s s = Some s.
Proof.
  unfold broadcast_shapes. rewrite broadcast_rev_same. cbn.
  rewrite rev_involutive. reflexivity.
Qed.

Lemma broadcast_shapes_nil_r (s : list nat) : broadcast_shapes s [] = Some s.
Proof.
  assert (H : forall t, broadcast_rev t [] = Some t) by (intros [|? ?]; reflexivity).
  unfold broadcast_shapes. cbn [rev]. rewrite H. cbn [option_map].
  rewrite rev_involutive. reflexivity.
Qed.

Lemma broadcast_shapes_chan (b c h w : nat) :
  broadcast_shapes [b; c; h; w] [1; c; 1; 1] = Some [b; c; h; w].
Proof.
  unfold broadcast_shapes. cbn [rev app broadcast_rev].
  eqb_cases; subst; cbn; try reflexivity; try (exfalso; lia).
Qed.

Lemma broadcast_shapes_chan3 (b c h w : nat) :
  broadcast_shapes [c; 1; 1] [b; c; h; w] = Some [b; c; h; w].
Proof.
  unfold broadcast_shapes. cbn [rev app broadcast_rev].
  eqb_cases; subst; cbn; try reflexivity; try (exfalso; lia).
Qed.

Lemma zip_index_in_range (s idx : list nat) :
  in_range idx s -> zip_index s idx = idx.
Proof.
  intros H. induction H as [|i d idx s Hi _ IH]; cbn; [reflexivity|].
  rewrite IH. destruct (d =? 1) eqn:E; [|reflexivity].
  apply Nat.eqb_eq in E. f_equal. lia.
Qed.

Lemma bidx_in_range (s idx : list nat) :
  in_range idx s -> bidx s idx = idx.
Proof.
  intros H. unfold bidx. rewrite (in_range_length _ _ H), Nat.sub_diag.
  cbn. apply zip_index_in_range. exact H.
Qed.

Lemma bidx_chan (c i0 i1 i2 i3 : nat) :
  i1 < c -> bidx [1; c; 1; 1] [i0; i1; i2; i3] = [0; i1; 0; 0].
Proof.
  intros H. unfold bidx. cbn. destruct (c =? 1) eqn:E; [|reflexivity].
  apply Nat.eqb_eq in E. repeat f_equal. lia.
Qed.

Lemma bidx_chan3 (c i0 i1 i2 i3 : nat) :
  i1 < c -> bidx [c; 1; 1] [i0; i1; i2; i3] = [i1; 0; 0].
Proof.
  intros H. unfold bidx. cbn. destruct (c =? 1) eqn:E; [|reflexivity].
  apply Nat.eqb_eq in E. repeat f_equal. lia.
Qed.

Lemma bidx_nil (idx : list nat) : bidx [] idx = [].
Proof.
  unfold bidx. reflexivity.
Qed.

(** ** Sums *)

Section Sums.
Local Open Scope R_scope.

Lemma Rsum_ext (n : nat) (f g : nat -> R) :
  (forall k, (k < n)%nat -> f k = g k) -> Rsum n f = Rsum n g.
Proof.
  induction n as [|n IH]; intros H; cbn; [reflexivity|].
  rewrite IH by (intros k Hk; apply H; lia).
  rewrite (H n) by lia. reflexivity.
Qed.

Lemma Rsum_zero (n : nat) (f : nat -> R) :
  (forall k, (k < n)%nat -> f k = 0) -> Rsum n f = 0.
Proof.
  induction n as [|n IH]; intros H; cbn; [reflexivity|].
  rewrite IH by (intros k Hk; apply H; lia).
  rewrite (H n) by lia. lra.
Qed.


Lemma Rsum_scale (n : nat) (f : nat -> R) (e : R) :
  Rsum n (fun k => f k * e) = Rsum n f * e.
Proof.
  induction n as [|n IH]; cbn; [lra|]. rewrite IH. lra.
Qed.

Lemma mean3_ext (nb nh nw : nat) (f g : nat -> nat -> nat -> R) :
  (forall k0 k2 k3, (k0 < nb)%nat -> (k2 < nh)%nat -> (k3 < nw)%nat ->
                    f k0 k2 k3 = g k0 k2 k3) ->
  mean3 nb nh nw f = mean3 nb nh nw g.
Proof.
  intros H. unfold mean3. f_equal.
  apply Rsum_ext. intros k3 H3. f_equal.
  apply Rsum_ext. intros k2 H2. f_equal.
  apply Rsum_ext. intros k0 H0. apply H; assumption.
Qed.


End Sums.

Lemma in_range4 (i0 i1 i2 i3 d0 d1 d2 d3 : nat) :
  (i0 < d0) -> (i1 < d1) -> (i2 < d2) -> (i3 < d3) ->
  in_range [i0; i1; i2; i3] [d0; d1; d2; d3].
Proof.
  intros. repeat constructor; assumption.
Qed.

Lemma in_range4_inv (idx : list nat) (d0 d1 d2 d3 : nat) :
  in_range idx [d0; d1; d2; d3] ->
  exists i0 i1 i2 i3,
    idx = [i0; i1; i2; i3] /\
    (i0 < d0) /\ (i1 < d1) /\ (i2 < d2) /\ (i3 < d3).
Proof.
  intros H.
  repeat match goal with
         | H : in_range _ (_ :: _) |- _ => inversion H; subst; clear H
         | H : Forall2 _ _ (_ :: _) |- _ => inversion H; subst; clear H
         | H : in_range _ [] |- _ => inversion H; subst; clear H
         | H : Forall2 _ _ [] |- _ => inversion H; subst; clear H
         end.
  do 4 eexists. repeat split; eassumption.
Qed.

(** ** [ActNorm] *)

Section ActNormFacts.
Local Open Scope R_scope.

Lemma mean_dim_023 (x : rtensor) (nb nc nh nw : nat) :
  shape x = [nb; nc; nh; nw] ->
  mean_dim x (Some [0; 2; 3]%nat) true
  = Ok (mkT [1; nc; 1; 1]%nat
          (fun idx =>
             Rsum nw (fun k3 =>
               Rsum nh (fun k2 =>
                 Rsum nb (fun k0 =>
                   get x (set_nth 0 k0 (set_nth 2 k2 (set_nth 3 k3 idx))))
                 / INR nb) / INR nh) / INR nw)).
Proof.
  intros Hs. unfold mean_dim. cbn [sorted fold_right insert_sorted Nat.leb].
  cbn [mean_over]. unfold mean_keepdim at 1. rewrite Hs. cbn [nth_error bind set_nth].
  unfold mean_keepdim at 1. cbn [shape nth_error bind set_nth].
  unfold mean_keepdim at 1. cbn [shape nth_error bind set_nth get].
  reflexivity.
Qed.

Lemma mean_dim_023_get (x m : rtensor) (nb nc nh nw c : nat) :
  shape x = [nb; nc; nh; nw] ->
  mean_dim x (Some [0; 2; 3]%nat) true = Ok m ->
  shape m = [1; nc; 1; 1]%nat /\
  get m [0; c; 0; 0]%nat
  = mean3 nb nh nw (fun k0 k2 k3 => get x [k0; c; k2; k3]).
Proof.
  intros Hs Hm. rewrite (mean_dim_023 x nb nc nh nw Hs) in Hm.
  inversion Hm; subst m; clear Hm. split; reflexivity.
Qed.


Lemma binop_ok (f : R -> R -> R) (x y : rtensor) (s : list nat) :
  broadcast_shapes (shape x) (shape y) = Some s ->
  binop f x y
  = Ok (mkT s (fun idx => f (get x (bidx (shape x) idx))
                            (get y (bidx (shape y) idx)))).
Proof.
  intros H. unfold binop. rewrite H. reflexivity.
Qed.

Lemma binop_chan (f : R -> R -> R) (x p : rtensor) (nb nc nh nw : nat) :
  shape x = [nb; nc; nh; nw] -> shape p = [1; nc; 1; 1]%nat ->
  binop f x p
  = Ok (mkT [nb; nc; nh; nw]
          (fun idx => f (get x (bidx [nb; nc; nh; nw] idx))
                        (get p (bidx [1; nc; 1; 1]%nat idx)))).
Proof.
  intros Hx Hp.
  rewrite (binop_ok f x p [nb; nc; nh; nw]).
  - rewrite Hx, Hp. reflexivity.
  - rewrite Hx, Hp. apply broadcast_shapes_chan.
Qed.

Lemma binop_scalar (f : R -> R -> R) (x p : rtensor) :
  shape p = [] ->
  binop f x p
  = Ok (mkT (shape x) (fun idx => f (get x (bidx (shape x) idx)) (get p []))).
Proof.
  intros Hp.
  rewrite (binop_ok f x p (shape x)).
  - rewrite Hp. reflexivity.
  - rewrite Hp. apply broadcast_shapes_nil_r.
Qed.

Lemma ActNorm_transform_ok (self : ActNorm) (x : rtensor) (ldj : option rtensor)
  (reverse : bool) (nb nc nh nw : nat) :
  per_channel self nc ->
  shape x = [nb; nc; nh; nw] ->
  exists y ldj',
    ActNorm_transform self x ldj reverse = Ok (y, ldj') /\
    shape y = [nb; nc; nh; nw] /\
    (ldj = None -> ldj' = None) /\
    (forall s, ldj = Some s -> exists s', ldj' = Some s' /\ shape s' = shape s) /\
    forall i0 i1 i2 i3,
      (i0 < nb)%nat -> (i1 < nc)%nat -> (i2 < nh)%nat -> (i3 < nw)%nat ->
      get y [i0; i1; i2; i3]
      = if reverse
        then get x [i0; i1; i2; i3]
             * exp (get (an_logs self) [0; i1; 0; 0]%nat * -1)
             - get (an_bias self) [0; i1; 0; 0]%nat
        else (get x [i0; i1; i2; i3] + get (an_bias self) [0; i1; 0; 0]%nat)
             * exp (get (an_logs self) [0; i1; 0; 0]%nat).
Proof.
  intros [Hb Hl] Hx. unfold ActNorm_transform, ActNorm__scale, ActNorm__center.
  destruct reverse.
  - unfold tmul, tsub, tadd.
    rewrite (binop_chan Rmult x _ nb nc nh nw Hx) by (cbn [tmap shape]; exact Hl).
    cbn [bind]. unfold size. cbn [shape nth_error bind].
    destruct ldj as [s|].
    + rewrite binop_scalar by reflexivity. cbn [bind].
      rewrite (binop_chan Rminus _ _ nb nc nh nw) by (try reflexivity; exact Hb).
      cbn [bind]. do 2 eexists. split; [reflexivity|].
      split; [reflexivity|]. split; [discriminate|]. split.
      * intros s0 E. inversion E; subst. eexists. split; reflexivity.
      * intros i0 i1 i2 i3 L0 L1 L2 L3. cbn [get tmap shape].
        rewrite !(bidx_in_range _ _ (in_range4 _ _ _ _ _ _ _ _ L0 L1 L2 L3)).
        rewrite !(bidx_chan nc i0 i1 i2 i3 L1). reflexivity.
    + cbn [bind].
      rewrite (binop_chan Rminus _ _ nb nc nh nw) by (try reflexivity; exact Hb).
      cbn [bind]. do 2 eexists. split; [reflexivity|].
      split; [reflexivity|]. split; [reflexivity|]. split.
      * discriminate.
      * intros i0 i1 i2 i3 L0 L1 L2 L3. cbn [get tmap shape].
        rewrite !(bidx_in_range _ _ (in_range4 _ _ _ _ _ _ _ _ L0 L1 L2 L3)).
        rewrite !(bidx_chan nc i0 i1 i2 i3 L1). reflexivity.
  - unfold tmul, tsub, tadd.
    rewrite (binop_chan Rplus x _ nb nc nh nw Hx Hb).
    cbn [bind].
    rewrite (binop_chan Rmult _ _ nb nc nh nw) by (try reflexivity; exact Hl).
    cbn [bind]. unfold size. cbn [shape nth_error bind].
    destruct ldj as [s|].
    + rewrite binop_scalar by reflexivity. cbn [bind].
      do 2 eexists. split; [reflexivity|].
      split; [reflexivity|]. split; [discriminate|]. split.
      * intros s0 E. inversion E; subst. eexists. split; reflexivity.
      * intros i0 i1 i2 i3 L0 L1 L2 L3. cbn [get tmap shape].
        rewrite !(bidx_in_range _ _ (in_range4 _ _ _ _ _ _ _ _ L0 L1 L2 L3)).
        rewrite !(bidx_chan nc i0 i1 i2 i3 L1). reflexivity.
    + cbn [bind]. do 2 eexists. split; [reflexivity|].
      split; [reflexivity|]. split; [reflexivity|]. split.
      * discriminate.
      * intros i0 i1 i2 i3 L0 L1 L2 L3. cbn [get tmap shape].
        rewrite !(bidx_in_range _ _ (in_range4 _ _ _ _ _ _ _ _ L0 L1 L2 L3)).
        rewrite !(bidx_chan nc i0 i1 i2 i3 L1). reflexivity.
Qed.

End ActNormFacts.

Section ActNormInit.
Local Open Scope R_scope.

Lemma copy__same_shape (dst src : rtensor) :
  shape src = shape dst ->
  copy_ dst src
  = Ok (mkT (shape dst) (fun idx => get src (bidx (shape src) idx))).
Proof.
  intros H. unfold copy_. rewrite H, broadcast_shapes_same.
  assert (E : forall s, shape_eqb s s = true).
  { induction s as [|d s IH]; cbn; [reflexivity|].
    rewrite Nat.eqb_refl, IH. reflexivity. }
  rewrite E. reflexivity.
Qed.

(** The parameters stored by the initialization, from the batch [x]. *)
Lemma ActNorm_initialize_parameters_ok (self : ActNorm) (x : rtensor)
  (nb nc nh nw : nat) :
  an_training self = true ->
  per_channel self nc ->
  shape x = [nb; nc; nh; nw] ->
  exists bias logs self',
    ActNorm_batch_bias x = Ok bias /\
    ActNorm_batch_logs self x bias = Ok logs /\
    ActNorm_initialize_parameters self x = Ok self' /\
    teq (an_bias self') bias /\ teq (an_logs self') logs /\
    per_channel self' nc /\
    an_is_initialized self' = (an_is_initialized self + 1)%nat /\
    an_training self' = an_training self /\
    an_return_ldj self' = an_return_ldj self /\
    forall c, (c < nc)%nat ->
      get (an_bias self') [0; c; 0; 0]%nat
      = - mean3 nb nh nw (fun k0 k2 k3 => get x [k0; c; k2; k3]).
Proof.
  intros Ht [Hb Hl] Hx.
  destruct (ActNorm_batch_bias x) as [bias|] eqn:E1.
  2:{ unfold ActNorm_batch_bias in E1.
      rewrite (mean_dim_023 x nb nc nh nw Hx) in E1. discriminate. }
  assert (Sb : shape bias = [1; nc; 1; 1]%nat).
  { unfold ActNorm_batch_bias in E1.
    rewrite (mean_dim_023 x nb nc nh nw Hx) in E1.
    inversion E1. reflexivity. }
  destruct (ActNorm_batch_logs self x bias) as [logs|] eqn:E2.
  2:{ unfold ActNorm_batch_logs, tadd in E2.
      rewrite (binop_chan Rplus x _ nb nc nh nw Hx Sb) in E2. cbn [bind] in E2.
      rewrite (mean_dim_023 _ nb nc nh nw) in E2 by reflexivity.
      discriminate. }
  assert (Sl : shape logs = [1; nc; 1; 1]%nat).
  { unfold ActNorm_batch_logs, tadd in E2.
    rewrite (binop_chan Rplus x _ nb nc nh nw Hx Sb) in E2. cbn [bind] in E2.
    rewrite (mean_dim_023 _ nb nc nh nw) in E2 by reflexivity.
    inversion E2. reflexivity. }
  unfold ActNorm_initialize_parameters.
  rewrite Ht, E1. cbn [negb bind]. rewrite E2. cbn [bind].
  rewrite copy__same_shape by (rewrite Sb; symmetry; exact Hb).
  rewrite copy__same_shape by (rewrite Sl; symmetry; exact Hl).
  cbn [bind].
  exists bias, logs. eexists.
  split; [reflexivity|]. split; [exact E2|]. split; [reflexivity|].
  cbn [an_bias an_logs an_is_initialized an_training an_return_ldj].
  split; [|split; [|split; [|split; [|split; [|split]]]]].
  - split; [cbn [shape]; congruence|].
    cbn [shape get]. rewrite Hb, Sb. intros idx Hidx.
    rewrite (bidx_in_range _ _ Hidx). reflexivity.
  - split; [cbn [shape]; congruence|].
    cbn [shape get]. rewrite Hl, Sl. intros idx Hidx.
    rewrite (bidx_in_range _ _ Hidx). reflexivity.
  - split; cbn [an_bias an_logs shape]; assumption.
  - reflexivity.
  - reflexivity.
  - reflexivity.
  - intros c Hc. cbn [get shape]. rewrite Sb.
    rewrite (bidx_chan nc 0 c 0 0 Hc).
    unfold ActNorm_batch_bias in E1.
    rewrite (mean_dim_023 x nb nc nh nw Hx) in E1.
    inversion E1. reflexivity.
Qed.

(** The logarithm of the scale that the initialization computes, from the
    batch [x] and the bias computed before it. *)
Lemma ActNorm_batch_logs_value (self : ActNorm) (x bias logs : rtensor)
  (nb nc nh nw : nat) :
  shape x = [nb; nc; nh; nw] ->
  shape bias = [1; nc; 1; 1]%nat ->
  ActNorm_batch_logs self x bias = Ok logs ->
  forall c, (c < nc)%nat ->
    get logs [0; c; 0; 0]%nat
    = ln (an_scale self
          / (sqrt (mean3 nb nh nw
                     (fun k0 k2 k3 =>
                        (get x [k0; c; k2; k3] + get bias [0; c; 0; 0]%nat) ^ 2))
             + an_eps self)).
Proof.
  intros Hx Sb E c Hc. unfold ActNorm_batch_logs, tadd in E.
  rewrite (binop_chan Rplus x _ nb nc nh nw Hx Sb) in E. cbn [bind] in E.
  rewrite (mean_dim_023 _ nb nc nh nw) in E by reflexivity.
  cbn [bind] in E. inversion E; subst logs; clear E.
  cbn [tmap get set_nth shape].
  change (ln (an_scale self
              / (sqrt (mean3 nb nh nw
                         (fun k0 k2 k3 =>
                            (get x (bidx [nb; nc; nh; nw] [k0; c; k2; k3])
                             + get bias (bidx [1; nc; 1; 1]%nat [k0; c; k2; k3]))
                            ^ 2))
                 + an_eps self))
          = ln (an_scale self
                / (sqrt (mean3 nb nh nw
                           (fun k0 k2 k3 =>
                              (get x [k0; c; k2; k3]
                               + get bias [0; c; 0; 0]%nat) ^ 2))
                   + an_eps self))).
  rewrite (mean3_ext nb nh nw _
             (fun k0 k2 k3 =>
                (get x [k0; c; k2; k3] + get bias [0; c; 0; 0]%nat) ^ 2)).
  - reflexivity.
  - intros k0 k2 k3 L0 L2 L3.
    rewrite (bidx_in_range _ _ (in_range4 _ _ _ _ _ _ _ _ L0 Hc L2 L3)).
    rewrite (bidx_chan nc k0 c k2 k3 Hc). reflexivity.
Qed.

End ActNormInit.

Lemma ActNorm_new_per_channel (nf : nat) (scale : R) (rl : bool) :
  per_channel (ActNorm_new nf scale rl) nf.
Proof.
  split; reflexivity.
Qed.

(** A layer whose flag is set, or which is not in training mode, comes out
    of [forward] as it went in. *)
Lemma ActNorm_forward_keeps_state (a a' : ActNorm) (x : rtensor)
  (ldj : option rtensor) (reverse : bool) (r : ret) :
  ActNorm_forward a x ldj reverse = Ok (r, a') ->
  an_training a = false \/ an_is_initialized a <> 0 ->
  a' = a.
Proof.
  unfold ActNorm_forward. intros E H.
  assert (I : (if an_is_initialized a =? 0
               then ActNorm_initialize_parameters a x else Ok a) = Ok a).
  { destruct (an_is_initialized a =? 0) eqn:Z; [|reflexivity].
    apply Nat.eqb_eq in Z. destruct H as [T|N]; [|contradiction].
    unfold ActNorm_initialize_parameters. rewrite T. reflexivity. }
  rewrite I in E. cbn [bind] in E.
  destruct (ActNorm_transform a x ldj reverse) as [[y l]|e]; cbn [bind] in E.
  - inversion E. reflexivity.
  - discriminate.
Qed.

Lemma ActNorm_forward_initialized (a : ActNorm) (x : rtensor)
  (ldj : option rtensor) (reverse : bool) (nb nc nh nw : nat) :
  per_channel a nc ->
  shape x = [nb; nc; nh; nw] ->
  an_training a = false \/ an_is_initialized a <> 0 ->
  exists y ldj',
    ActNorm_transform a x ldj reverse = Ok (y, ldj') /\
    ActNorm_forward a x ldj reverse
    = Ok (if an_return_ldj a then RetPair y ldj' else RetTensor y, a).
Proof.
  intros Hp Hx H.
  destruct (ActNorm_transform_ok a x ldj reverse nb nc nh nw Hp Hx)
    as (y & l & Ht & _).
  exists y, l. split; [exact Ht|].
  unfold ActNorm_forward.
  assert (I : (if an_is_initialized a =? 0
               then ActNorm_initialize_parameters a x else Ok a) = Ok a).
  { destruct (an_is_initialized a =? 0) eqn:Z; [|reflexivity].
    apply Nat.eqb_eq in Z. destruct H as [T|N]; [|contradiction].
    unfold ActNorm_initialize_parameters. rewrite T. reflexivity. }
  rewrite I. cbn [bind]. rewrite Ht. reflexivity.
Qed.

Lemma ActNorm_forward_first (a : ActNorm) (x : rtensor)
  (ldj : option rtensor) (reverse : bool) (nb nc nh nw : nat) :
  per_channel a nc ->
  shape x = [nb; nc; nh; nw] ->
  an_training a = true -> an_is_initialized a = 0 ->
  exists a' y ldj',
    ActNorm_initialize_parameters a x = Ok a' /\
    ActNorm_transform a' x ldj reverse = Ok (y, ldj') /\
    ActNorm_forward a x ldj reverse
    = Ok (if an_return_ldj a then RetPair y ldj' else RetTensor y, a').
Proof.
  intros Hp Hx Ht Hz.
  destruct (ActNorm_initialize_parameters_ok a x nb nc nh nw Ht Hp Hx)
    as (bias & logs & a' & _ & _ & Hi & _ & _ & Hp' & _ & _ & Hr & _).
  destruct (ActNorm_transform_ok a' x ldj reverse nb nc nh nw Hp' Hx)
    as (y & l & Hy & _).
  exists a', y, l. split; [exact Hi|]. split; [exact Hy|].
  unfold ActNorm_forward. rewrite Hz. cbn [Nat.eqb].
  rewrite Hi. cbn [bind]. rewrite Hy. cbn [bind]. rewrite Hr. reflexivity.
Qed.

(** C4: the first call of [forward] on a new layer, which is in training
    mode, stores the statistics of that batch and sets the flag: in every
    channel [bias] is minus the mean of the batch over the batch and the two
    spatial axes, and [logs] is the logarithm of
    [scale / (sqrt v + eps)], with [v] the mean of the squares of the
    centred batch and [eps = 1e-6] (for a batch that is not empty and a
    positive [scale], where the code takes the logarithm of a positive
    number).  A second call on another batch returns the layer unchanged;
    and no call changes a layer that is not in training mode or whose flag
    is set: if the call returns, the layer is the one it was given, and on
    an input with the layer's number of channels it returns. *)
Theorem ActNorm_one_shot_init (nf : nat) (scale : R) (rl : bool)
  (x1 x2 : rtensor) (ldj1 ldj2 : option rtensor) (rev1 rev2 : bool)
  (b1 h1 w1 b2 h2 w2 : nat) :
  shape x1 = [b1; nf; h1; w1] ->
  shape x2 = [b2; nf; h2; w2] ->
  (exists r1 a1 bias logs,
      ActNorm_forward (ActNorm_new nf scale rl) x1 ldj1 rev1 = Ok (r1, a1) /\
      ActNorm_batch_bias x1 = Ok bias /\
      ActNorm_batch_logs (ActNorm_new nf scale rl) x1 bias = Ok logs /\
      teq (an_bias a1) bias /\ teq (an_logs a1) logs /\
      an_is_initialized a1 = 1 /\
      (forall c, c < nf ->
         get (an_bias a1) [0; c; 0; 0]
         = Ropp (mean3 b1 h1 w1 (fun k0 k2 k3 => get x1 [k0; c; k2; k3]))) /\
      (0 < b1 -> 0 < h1 -> 0 < w1 -> (0 < scale)%R ->
       forall c, c < nf ->
         get (an_logs a1) [0; c; 0; 0]
         = ln (scale
               / (sqrt (mean3 b1 h1 w1
                          (fun k0 k2 k3 =>
                             (get x1 [k0; c; k2; k3]
                              - mean3 b1 h1 w1
                                  (fun j0 j2 j3 => get x1 [j0; c; j2; j3])) ^ 2))
                  + 1 / 1000000))%R) /\
      exists r2, ActNorm_forward a1 x2 ldj2 rev2 = Ok (r2, a1)) /\
  (forall (a a' : ActNorm) (x : rtensor) (ldj : option rtensor)
          (reverse : bool) (r : ret),
      ActNorm_forward a x ldj reverse = Ok (r, a') ->
      an_training a = false \/ an_is_initialized a <> 0 ->
      a' = a) /\
  (forall (a : ActNorm) (x : rtensor) (ldj : option rtensor) (reverse : bool)
          (nb nc nh nw : nat),
      per_channel a nc ->
      shape x = [nb; nc; nh; nw] ->
      an_training a = false \/ an_is_initialized a <> 0 ->
      exists r, ActNorm_forward a x ldj reverse = Ok (r, a)).
Proof.
  intros H1 H2. split; [|split].
  - set (a0 := ActNorm_new nf scale rl).
    pose proof (ActNorm_new_per_channel nf scale rl) as Hp.
    destruct (ActNorm_initialize_parameters_ok a0 x1 b1 nf h1 w1
                eq_refl Hp H1)
      as (bias & logs & a1 & Eb & El & Hi & Tb & Tl & Hp1 & Hf & Ht & Hr & Hm).
    destruct (ActNorm_forward_first a0 x1 ldj1 rev1 b1 nf h1 w1
                Hp H1 eq_refl eq_refl)
      as (a1' & y & l & Hi' & Hy & Hfw).
    rewrite Hi in Hi'. inversion Hi'; subst a1'; clear Hi'.
    assert (Hinit : an_is_initialized a1 <> 0) by (rewrite Hf; cbn; lia).
    destruct (ActNorm_forward_initialized a1 x2 ldj2 rev2 b2 nf h2 w2
                Hp1 H2 (or_intror Hinit))
      as (y2 & l2 & _ & Hfw2).
    eexists. exists a1, bias, logs.
    split; [exact Hfw|]. split; [exact Eb|]. split; [exact El|].
    split; [exact Tb|]. split; [exact Tl|]. split; [rewrite Hf; reflexivity|].
    split; [exact Hm|]. split; [|eexists; exact Hfw2].
    intros _ _ _ _ c Hc.
    assert (Sb : shape bias = [1; nf; 1; 1]).
    { destruct Tb as [Sb _]. destruct Hp1 as [Sb1 _]. congruence. }
    assert (Rc : in_range [0; c; 0; 0] [1; nf; 1; 1])
      by (apply in_range4; lia).
    assert (Gl : get (an_logs a1) [0; c; 0; 0] = get logs [0; c; 0; 0]).
    { destruct Tl as [Sl Gl]. apply Gl. destruct Hp1 as [_ Sl1].
      rewrite Sl1. exact Rc. }
    assert (Gb : get bias [0; c; 0; 0]
                 = Ropp (mean3 b1 h1 w1 (fun k0 k2 k3 => get x1 [k0; c; k2; k3]))).
    { rewrite <- (Hm c Hc). symmetry. destruct Tb as [Sb' Gb]. apply Gb.
      destruct Hp1 as [Sb1 _]. rewrite Sb1. exact Rc. }
    rewrite Gl.
    rewrite (ActNorm_batch_logs_value a0 x1 bias logs b1 nf h1 w1 H1 Sb El c Hc).
    rewrite Gb. reflexivity.
  - intros a a' x ldj reverse r. apply ActNorm_forward_keeps_state.
  - intros a x ldj reverse nb nc nh nw Hp Hx H.
    destruct (ActNorm_forward_initialized a x ldj reverse nb nc nh nw Hp Hx H)
      as (y & l & _ & Hfw).
    eexists. exact Hfw.
Qed.


(** ** [InvConv] *)

(** C5: for a fixed weight [W] and spatial size, the forward direction adds
    to the accumulator the value [logabsdet W * H * W_spatial] and the
    reverse direction subtracts that same value, which is computed from the
    weight of the layer and not from its inverse; the accumulator returned
    by [forward] is the one so updated. *)
Theorem InvConv_same_logdet (self : InvConv) (x x' s s' : rtensor)
  (b c b' c' h w : nat) :
  shape x = [b; c; h; w] ->
  shape x' = [b'; c'; h; w] ->
  let v := Rmult (Rmult (logabsdet (ic_weight self)) (INR h)) (INR w) in
  (exists s1,
      InvConv_sldj self x (Some s) false = Ok (Some s1) /\
      shape s1 = shape s /\
      forall idx, in_range idx (shape s) -> get s1 idx = Rplus (get s idx) v) /\
  (exists s2,
      InvConv_sldj self x' (Some s') true = Ok (Some s2) /\
      shape s2 = shape s' /\
      forall idx, in_range idx (shape s') -> get s2 idx = Rminus (get s' idx) v) /\
  (forall (y : rtensor) (acc : option rtensor) (reverse : bool)
          (z : rtensor) (acc' : option rtensor),
      InvConv_forward self y acc reverse = Ok (z, acc') ->
      InvConv_sldj self y acc reverse = Ok acc').
Proof.
  intros Hx Hx' v. split; [|split].
  - unfold InvConv_sldj, size. rewrite Hx. cbn [nth_error bind].
    unfold tadd. rewrite binop_scalar by reflexivity. cbn [bind].
    eexists. split; [reflexivity|]. split; [reflexivity|].
    intros idx Hidx. cbn [get InvConv_ldj scalar].
    rewrite (bidx_in_range _ _ Hidx). reflexivity.
  - unfold InvConv_sldj, size. rewrite Hx'. cbn [nth_error bind].
    unfold tsub. rewrite binop_scalar by reflexivity. cbn [bind].
    eexists. split; [reflexivity|]. split; [reflexivity|].
    intros idx Hidx. cbn [get InvConv_ldj scalar].
    rewrite (bidx_in_range _ _ Hidx). reflexivity.
  - intros y acc reverse z acc'. unfold InvConv_forward.
    destruct (InvConv_sldj self y acc reverse) as [l|e]; cbn [bind];
      [|discriminate].
    destruct (if reverse then torch_inverse (ic_weight self)
              else Ok (ic_weight self)) as [wt|e]; cbn [bind]; [|discriminate].
    destruct (view wt _) as [wv|e]; cbn [bind]; [|discriminate].
    destruct (conv2d y wv None 0) as [zz|e]; cbn [bind]; [|discriminate].
    intros E. inversion E. reflexivity.
Qed.

(** ** Convolutions and the conditioner *)

Section ConvFacts.
Local Open Scope R_scope.

Lemma shape_eqb_refl (s : list nat) : shape_eqb s s = true.
Proof.
  induction s as [|d s IH]; cbn; [reflexivity|].
  rewrite Nat.eqb_refl, IH. reflexivity.
Qed.

Lemma conv2d_ok (x wt : rtensor) (bias : option rtensor) (pad : nat)
  (b cin h w cout kh kw : nat) :
  shape x = [b; cin; h; w] ->
  shape wt = [cout; cin; kh; kw] ->
  (kh <= h + 2 * pad)%nat -> (kw <= w + 2 * pad)%nat ->
  (forall bs, bias = Some bs -> shape bs = [cout]) ->
  exists y,
    conv2d x wt bias pad = Ok y /\
    shape y = [b; cout; (h + 2 * pad + 1 - kh)%nat; (w + 2 * pad + 1 - kw)%nat] /\
    forall n o i j,
      get y [n; o; i; j]
      = Rsum cin (fun c =>
          Rsum kh (fun di =>
            Rsum kw (fun dj =>
              get wt [o; c; di; dj] * padded x pad h w n c (i + di) (j + dj))))
        + match bias with Some bs => get bs [o] | None => 0 end.
Proof.
  intros Hx Hw Lh Lw Hb. unfold conv2d. rewrite Hx, Hw.
  rewrite Nat.eqb_refl.
  apply Nat.leb_le in Lh. apply Nat.leb_le in Lw. rewrite Lh, Lw.
  assert (B : match bias with
              | Some bs => shape_eqb (shape bs) [cout]
              | None => true
              end = true).
  { destruct bias as [bs|]; [|reflexivity].
    rewrite (Hb bs eq_refl). apply shape_eqb_refl. }
  rewrite B. cbn [andb]. eexists. split; [reflexivity|].
  split; reflexivity.
Qed.

Lemma conv2d_3x3 (x wt : rtensor) (bias : option rtensor)
  (b cin h w cout : nat) :
  shape x = [b; cin; h; w] ->
  shape wt = [cout; cin; 3; 3]%nat ->
  (0 < h)%nat -> (0 < w)%nat ->
  (forall bs, bias = Some bs -> shape bs = [cout]) ->
  exists y,
    conv2d x wt bias 1 = Ok y /\ shape y = [b; cout; h; w] /\
    ((forall idx, get wt idx = 0) ->
     (forall bs, bias = Some bs -> forall idx, get bs idx = 0) ->
     forall n o i j, get y [n; o; i; j] = 0).
Proof.
  intros Hx Hw Ph Pw Hb.
  destruct (conv2d_ok x wt bias 1 b cin h w cout 3 3 Hx Hw) as (y & E & S & G);
    try lia; try exact Hb.
  exists y. split; [exact E|]. split.
  - rewrite S. repeat f_equal; lia.
  - intros Zw Zb n o i j. rewrite G.
    rewrite Rsum_zero.
    + destruct bias as [bs|]; [rewrite (Zb bs eq_refl)|]; lra.
    + intros c _. apply Rsum_zero. intros di _. apply Rsum_zero. intros dj _.
      rewrite Zw. lra.
Qed.

Lemma conv2d_1x1 (x wt : rtensor) (b cin h w cout : nat) :
  shape x = [b; cin; h; w] ->
  shape wt = [cout; cin; 1; 1]%nat ->
  (0 < h)%nat -> (0 < w)%nat ->
  exists y, conv2d x wt None 0 = Ok y /\ shape y = [b; cout; h; w].
Proof.
  intros Hx Hw Ph Pw.
  destruct (conv2d_ok x wt None 0 b cin h w cout 1 1 Hx Hw) as (y & E & S & _);
    try lia; try discriminate.
  exists y. split; [exact E|]. rewrite S. repeat f_equal; lia.
Qed.

End ConvFacts.

Lemma ActNorm_forward_shape (a : ActNorm) (x : rtensor) (ldj : option rtensor)
  (reverse : bool) (nb nc nh nw : nat) :
  per_channel a nc ->
  shape x = [nb; nc; nh; nw] ->
  exists y ldj' a',
    ActNorm_forward a x ldj reverse
    = Ok (if an_return_ldj a then RetPair y ldj' else RetTensor y, a') /\
    shape y = [nb; nc; nh; nw] /\
    per_channel a' nc /\
    an_return_ldj a' = an_return_ldj a /\
    (ldj = None -> ldj' = None) /\
    (forall s, ldj = Some s -> exists s', ldj' = Some s' /\ shape s' = shape s).
Proof.
  intros Hp Hx.
  destruct (Nat.eq_dec (an_is_initialized a) 0) as [Z|N].
  - destruct (an_training a) eqn:T.
    + destruct (ActNorm_initialize_parameters_ok a x nb nc nh nw T Hp Hx)
        as (bias & logs & a1 & _ & _ & Hi & _ & _ & Hp1 & _ & _ & Hr & _).
      destruct (ActNorm_forward_first a x ldj reverse nb nc nh nw Hp Hx T Z)
        as (a1' & y & l & Hi' & Hy & Hfw).
      rewrite Hi in Hi'. inversion Hi'; subst a1'; clear Hi'.
      destruct (ActNorm_transform_ok a1 x ldj reverse nb nc nh nw Hp1 Hx)
        as (y' & l' & Hy' & Sy & Hn & Hs & _).
      rewrite Hy in Hy'. inversion Hy'; subst y' l'; clear Hy'.
      exists y, l, a1.
      split; [exact Hfw|]. split; [exact Sy|]. split; [exact Hp1|].
      split; [exact Hr|]. split; assumption.
    + destruct (ActNorm_forward_initialized a x ldj reverse nb nc nh nw
                  Hp Hx (or_introl T)) as (y & l & Hy & Hfw).
      destruct (ActNorm_transform_ok a x ldj reverse nb nc nh nw Hp Hx)
        as (y' & l' & Hy' & Sy & Hn & Hs & _).
      rewrite Hy in Hy'. inversion Hy'; subst y' l'; clear Hy'.
      exists y, l, a.
      split; [exact Hfw|]. split; [exact Sy|]. split; [exact Hp|].
      split; [reflexivity|]. split; assumption.
  - destruct (ActNorm_forward_initialized a x ldj reverse nb nc nh nw
                Hp Hx (or_intror N)) as (y & l & Hy & Hfw).
    destruct (ActNorm_transform_ok a x ldj reverse nb nc nh nw Hp Hx)
      as (y' & l' & Hy' & Sy & Hn & Hs & _).
    rewrite Hy in Hy'. inversion Hy'; subst y' l'; clear Hy'.
    exists y, l, a.
    split; [exact Hfw|]. split; [exact Sy|]. split; [exact Hp|].
    split; [reflexivity|]. split; assumption.
Qed.

Lemma norm_fn_call_shape (n : norm_fn) (x : rtensor) (nb nc nh nw : nat) :
  norm_ok n nc ->
  shape x = [nb; nc; nh; nw] ->
  exists y n',
    norm_fn_call n x = Ok (y, n') /\ shape y = [nb; nc; nh; nw] /\
    norm_ok n' nc.
Proof.
  intros Hn Hx. destruct n as [a|bn]; [|contradiction].
  destruct Hn as [Hp Hr].
  destruct (ActNorm_forward_shape a x None false nb nc nh nw Hp Hx)
    as (y & l & a' & Hf & Sy & Hp' & Hr' & _).
  exists y, (NormAct a'). unfold norm_fn_call. rewrite Hf, Hr. cbn [bind].
  split; [reflexivity|]. split; [exact Sy|].
  split; [exact Hp'|]. rewrite Hr'. exact Hr.
Qed.

Lemma NN_forward_shape (net : NN) (x : rtensor) (b cin mid cout h w : nat) :
  NN_shapes net cin mid cout ->
  shape x = [b; cin; h; w] ->
  0 < h -> 0 < w ->
  exists st net',
    NN_forward net x = Ok (st, net') /\ shape st = [b; cout; h; w] /\
    (NN_zero_out net -> forall n o i j, get st [n; o; i; j] = 0%R).
Proof.
  intros (N1 & K1 & K2 & N2 & K3 & N3 & K4 & K5) Hx Ph Pw.
  unfold NN_forward.
  destruct (norm_fn_call_shape _ x b cin h w N1 Hx) as (x1 & n1 & E1 & S1 & _).
  rewrite E1. cbn [bind].
  destruct (conv2d_3x3 x1 (nn_in_conv net) None b cin h w mid S1 K1 Ph Pw)
    as (x2 & E2 & S2 & _); [discriminate|].
  rewrite E2. cbn [bind].
  destruct (conv2d_3x3 (relu x2) (nn_mid_conv1 net) None b mid h w mid S2 K2 Ph Pw)
    as (x3 & E3 & S3 & _); [discriminate|].
  rewrite E3. cbn [bind].
  destruct (norm_fn_call_shape _ x3 b mid h w N2 S3) as (x4 & n2 & E4 & S4 & _).
  rewrite E4. cbn [bind].
  destruct (conv2d_1x1 (relu x4) (nn_mid_conv2 net) b mid h w mid S4 K3 Ph Pw)
    as (x5 & E5 & S5).
  rewrite E5. cbn [bind].
  destruct (norm_fn_call_shape _ x5 b mid h w N3 S5) as (x6 & n3 & E6 & S6 & _).
  rewrite E6. cbn [bind].
  destruct (conv2d_3x3 (relu x6) (nn_out_conv_weight net)
              (Some (nn_out_conv_bias net)) b mid h w cout S6 K4 Ph Pw)
    as (x7 & E7 & S7 & Z7).
  { intros bs E. inversion E; subst. exact K5. }
  rewrite E7. cbn [bind].
  do 2 eexists. split; [reflexivity|]. split; [exact S7|].
  intros [Zw Zb]. apply Z7; [exact Zw|].
  intros bs E. inversion E; subst. exact Zb.
Qed.

(** ** [Coupling] *)

Lemma chunk_sizes_even (k : nat) : chunk_sizes (2 * k) 2 = [k; k].
Proof.
  unfold chunk_sizes.
  assert (E : (2 * k + 2 - 1) / 2 = k).
  { replace (2 * k + 2 - 1) with (1 + k * 2) by lia.
    rewrite Nat.div_add by lia. reflexivity. }
  rewrite E. destruct k as [|k]; [reflexivity|].
  replace (2 * S k =? 0) with false by (symmetry; apply Nat.eqb_neq; lia).
  assert (D : (2 * S k + S k - 1) / S k = 2).
  { replace (2 * S k + S k - 1) with (k + 2 * S k) by lia.
    rewrite Nat.div_add by lia. rewrite Nat.div_small by lia. reflexivity. }
  rewrite D. change (Nat.max 2 1) with 2. change (2 - 1) with 1.
  cbn [repeat app]. f_equal. f_equal. lia.
Qed.

(** An odd number of channels splits into a larger and a smaller half. *)
Lemma chunk_sizes_odd (k : nat) : 0 < k -> chunk_sizes (2 * k + 1) 2 = [k + 1; k].
Proof.
  intros Hk. unfold chunk_sizes.
  assert (E : (2 * k + 1 + 2 - 1) / 2 = k + 1).
  { replace (2 * k + 1 + 2 - 1) with (0 + (k + 1) * 2) by lia.
    rewrite Nat.div_add by lia. reflexivity. }
  rewrite E.
  replace (2 * k + 1 =? 0) with false by (symmetry; apply Nat.eqb_neq; lia).
  assert (D : (2 * k + 1 + (k + 1) - 1) / (k + 1) = 2).
  { replace (2 * k + 1 + (k + 1) - 1) with ((k - 1) + 2 * (k + 1)) by lia.
    rewrite Nat.div_add by lia. rewrite Nat.div_small by lia. reflexivity. }
  rewrite D. change (Nat.max 2 1) with 2. change (2 - 1) with 1.
  cbn [repeat app]. f_equal. f_equal. lia.
Qed.

Lemma chunk_even (A : Type) (x : tensor A) (b k h w : nat) :
  shape x = [b; 2 * k; h; w] ->
  chunk x 2 1 = Ok [narrow x 1 0 k; narrow x 1 k k].
Proof.
  intros Hx. unfold chunk. rewrite Hx. cbn [nth_error].
  rewrite chunk_sizes_even. cbn [narrow_all]. rewrite Nat.add_0_l. reflexivity.
Qed.

Lemma chunk_odd (A : Type) (x : tensor A) (b k h w : nat) :
  0 < k ->
  shape x = [b; 2 * k + 1; h; w] ->
  chunk x 2 1 = Ok [narrow x 1 0 (k + 1); narrow x 1 (k + 1) k].
Proof.
  intros Hk Hx. unfold chunk. rewrite Hx. cbn [nth_error].
  rewrite chunk_sizes_odd by exact Hk. cbn [narrow_all].
  rewrite Nat.add_0_l. reflexivity.
Qed.

Lemma slice_step_even (x : rtensor) (b k h w : nat) :
  shape x = [b; 2 * k; h; w] ->
  exists s t,
    slice_step x 1 0 2 = Ok s /\ slice_step x 1 1 2 = Ok t /\
    shape s = [b; k; h; w] /\ shape t = [b; k; h; w] /\
    (forall n c i j, get s [n; c; i; j] = get x [n; 0 + c * 2; i; j]) /\
    (forall n c i j, get t [n; c; i; j] = get x [n; 1 + c * 2; i; j]).
Proof.
  intros Hx. unfold slice_step. rewrite Hx. cbn [nth_error set_nth].
  do 2 eexists. split; [reflexivity|]. split; [reflexivity|].
  cbn [shape get scale_nth].
  assert (E0 : (2 * k - 0 + 2 - 1) / 2 = k).
  { replace (2 * k - 0 + 2 - 1) with (1 + k * 2) by lia.
    rewrite Nat.div_add by lia. reflexivity. }
  assert (E1 : (2 * k - 1 + 2 - 1) / 2 = k).
  { destruct k as [|k]; [reflexivity|].
    replace (2 * S k - 1 + 2 - 1) with (0 + S k * 2) by lia.
    rewrite Nat.div_add by lia. reflexivity. }
  rewrite E0, E1. repeat split; reflexivity.
Qed.

Section CouplingFacts.
Local Open Scope R_scope.

Lemma tanh_0 : tanh 0 = 0.
Proof.
  unfold tanh. rewrite sinh_0. unfold Rdiv. apply Rmult_0_l.
Qed.

Lemma binop_same (f : R -> R -> R) (x y : rtensor) (s : list nat) :
  shape x = s -> shape y = s ->
  binop f x y
  = Ok (mkT s (fun idx => f (get x (bidx s idx)) (get y (bidx s idx)))).
Proof.
  intros Hx Hy. rewrite (binop_ok f x y s).
  - rewrite Hx, Hy. reflexivity.
  - rewrite Hx, Hy. apply broadcast_shapes_same.
Qed.

Lemma binop_chan3 (f : R -> R -> R) (p x : rtensor) (nb nc nh nw : nat) :
  shape p = [nc; 1; 1]%nat -> shape x = [nb; nc; nh; nw] ->
  binop f p x
  = Ok (mkT [nb; nc; nh; nw]
          (fun idx => f (get p (bidx [nc; 1; 1]%nat idx))
                        (get x (bidx [nb; nc; nh; nw] idx)))).
Proof.
  intros Hp Hx.
  rewrite (binop_ok f p x [nb; nc; nh; nw]).
  - rewrite Hx, Hp. reflexivity.
  - rewrite Hx, Hp. apply broadcast_shapes_chan3.
Qed.

Lemma Coupling_ldj_forward (s : rtensor) (ldj : option rtensor)
  (b k h w : nat) :
  shape s = [b; k; h; w] ->
  (forall l, ldj = Some l -> shape l = [b]) ->
  exists ldj',
    Coupling_ldj s ldj false = Ok ldj' /\
    (ldj = None -> ldj' = None) /\
    (forall l, ldj = Some l ->
       exists l', ldj' = Some l' /\ shape l' = [b] /\
                  forall i, (i < b)%nat ->
                    get l' [i]
                    = get l [i]
                      + Rsum (numel [k; h; w])
                          (fun j => get s (i :: unravel [k; h; w] j))).
Proof.
  intros Hs Hl. unfold Coupling_ldj. destruct ldj as [l|].
  - unfold flatten1. rewrite Hs. cbn [bind].
    unfold sum_last. cbn [shape rev app removelast bind].
    unfold tadd.
    rewrite (binop_same Rplus l _ [b]) by (try reflexivity; apply Hl; reflexivity).
    cbn [bind]. eexists. split; [reflexivity|]. split; [discriminate|].
    intros l0 E. inversion E; subst l0. eexists. split; [reflexivity|].
    split; [reflexivity|]. intros i Hi. cbn [get].
    assert (Ei : bidx [b] [i] = [i]).
    { apply bidx_in_range. repeat constructor. exact Hi. }
    rewrite Ei. reflexivity.
  - eexists. split; [reflexivity|]. split; [reflexivity|]. discriminate.
Qed.

Lemma cat_channels (A : Type) (x y : tensor A) (b k1 k2 h w : nat) :
  shape x = [b; k1; h; w] -> shape y = [b; k2; h; w] ->
  cat x y 1
  = Ok (mkT [b; (k1 + k2)%nat; h; w]
          (fun idx => if (nth 1 idx 0 <? k1)%nat then get x idx
                      else get y (sub_nth 1 k1 idx))).
Proof.
  intros Hx Hy. unfold cat. rewrite Hx, Hy. cbn [nth_error set_nth].
  rewrite shape_eqb_refl. reflexivity.
Qed.

Lemma Coupling_forward_even (cp : Coupling) (x : rtensor) (ldj : option rtensor)
  (k mid b h w : nat) :
  Coupling_shapes cp k mid ->
  shape x = [b; (2 * k)%nat; h; w] ->
  (0 < h)%nat -> (0 < w)%nat ->
  (forall l, ldj = Some l -> shape l = [b]) ->
  exists y ldj' cp',
    Coupling_forward cp x ldj false = Ok (y, ldj', cp') /\
    shape y = [b; (k + k)%nat; h; w] /\
    (ldj = None -> ldj' = None) /\
    (forall l, ldj = Some l -> exists l', ldj' = Some l' /\ shape l' = [b]) /\
    (NN_zero_out (cp_nn cp) ->
     (forall i0 i1 i2 i3,
         (i0 < b)%nat -> (i1 < 2 * k)%nat -> (i2 < h)%nat -> (i3 < w)%nat ->
         get y [i0; i1; i2; i3] = get x [i0; i1; i2; i3]) /\
     (forall l, ldj = Some l ->
        exists l', ldj' = Some l' /\
                   forall i, (i < b)%nat -> get l' [i] = get l [i])).
Proof.
  intros [Hn Hsc] Hx Ph Pw Hl. unfold Coupling_forward.
  rewrite (chunk_even R x b k h w Hx). cbn [bind].
  assert (Sid : shape (narrow x 1 k k) = [b; k; h; w]).
  { unfold narrow. cbn [shape]. rewrite Hx. reflexivity. }
  assert (Sch : shape (narrow x 1 0 k) = [b; k; h; w]).
  { unfold narrow. cbn [shape]. rewrite Hx. reflexivity. }
  destruct (NN_forward_shape (cp_nn cp) (narrow x 1 k k) b k mid (2 * k) h w
              Hn Sid Ph Pw) as (st & net' & En & Sst & Zst).
  rewrite En. cbn [bind].
  destruct (slice_step_even st b k h w Sst) as (s & t & Es & Et & Ss & St & Gs & Gt).
  rewrite Es, Et. cbn [bind]. unfold tmul, tadd.
  rewrite (binop_chan3 Rmult (cp_scale cp) (tmap tanh s) b k h w Hsc)
    by (cbn [shape tmap]; exact Ss).
  cbn [bind].
  set (s' := mkT [b; k; h; w]
               (fun idx => get (cp_scale cp) (bidx [k; 1; 1]%nat idx)
                           * get (tmap tanh s) (bidx [b; k; h; w] idx))).
  rewrite (binop_same Rplus (narrow x 1 0 k) t [b; k; h; w] Sch St).
  cbn [bind].
  rewrite (binop_same Rmult _ (tmap exp s') [b; k; h; w]) by reflexivity.
  cbn [bind].
  destruct (Coupling_ldj_forward s' ldj b k h w eq_refl Hl)
    as (ldj' & El & Ln & Ls).
  rewrite El. cbn [bind].
  rewrite (cat_channels R _ (narrow x 1 k k) b k k h w) by (try reflexivity; exact Sid).
  cbn [bind].
  do 3 eexists. split; [reflexivity|]. split; [reflexivity|].
  split; [exact Ln|]. split.
  { intros l E. destruct (Ls l E) as (l' & E' & S' & _). exists l'. split; assumption. }
  intros Z. specialize (Zst Z).
  assert (Zs : forall n c i j, get s' [n; c; i; j] = 0).
  { intros n c i j. unfold s'. cbn [get tmap bidx length Nat.sub skipn zip_index].
    rewrite Gs, Zst, tanh_0. apply Rmult_0_r. }
  split.
  - intros i0 i1 i2 i3 L0 L1 L2 L3. cbn [get nth].
    destruct (i1 <? k)%nat eqn:Lk.
    + apply Nat.ltb_lt in Lk.
      rewrite !(bidx_in_range _ _ (in_range4 _ _ _ _ _ _ _ _ L0 Lk L2 L3)).
      cbn [get tmap]. rewrite Zs, Gt, Zst, exp_0.
      unfold narrow. cbn [get add_nth]. rewrite Nat.add_0_r. lra.
    + apply Nat.ltb_ge in Lk. unfold narrow. cbn [get sub_nth add_nth].
      replace (i1 - k + k)%nat with i1 by lia. reflexivity.
  - intros l E. destruct (Ls l E) as (l' & E' & _ & G').
    exists l'. split; [exact E'|]. intros i Hi. rewrite (G' i Hi).
    rewrite Rsum_zero; [lra|].
    intros j _. cbn [unravel]. apply Zs.
Qed.

End CouplingFacts.

Lemma norm_fn_new_ok (p : params) (nc : nat) :
  batchnorm p = false -> norm_ok (norm_fn_new p nc) nc.
Proof.
  intros H. unfold norm_fn_new. rewrite H. cbn.
  split; [apply ActNorm_new_per_channel | reflexivity].
Qed.

Lemma NN_new_shapes (cin mid cout seed : nat) (p : params) :
  batchnorm p = false ->
  NN_shapes (fst (NN_new cin mid cout p seed)) cin mid cout /\
  NN_zero_out (fst (NN_new cin mid cout p seed)).
Proof.
  intros H. split.
  - unfold NN_shapes, NN_new. cbn [fst nn_in_norm nn_in_conv nn_mid_conv1
      nn_mid_norm nn_mid_conv2 nn_out_norm nn_out_conv_weight nn_out_conv_bias].
    repeat split; try reflexivity;
      try (apply norm_fn_new_ok; exact H);
      try (apply (norm_fn_new_ok p _ H)).
  - split; intros idx; reflexivity.
Qed.

Lemma Coupling_new_shapes (k mid seed : nat) (p : params) :
  batchnorm p = false ->
  Coupling_shapes (fst (Coupling_new k mid p seed)) k mid /\
  NN_zero_out (cp_nn (fst (Coupling_new k mid p seed))).
Proof.
  intros H. unfold Coupling_new, Coupling_shapes.
  pose proof (NN_new_shapes k mid (2 * k) seed p H) as [S Z].
  destruct (NN_new k mid (2 * k) p seed) as [net seed'].
  cbn [fst cp_nn cp_scale] in *.
  split; [split; [exact S | reflexivity] | exact Z].
Qed.

(** C7: a new coupling layer, whose conditioner ends in a convolution with
    zero weights and bias, is the identity in the forward direction: the
    output has the shape and the elements of the input, and the accumulator
    comes back with the values it had ([s = scale * tanh 0 = 0], [t = 0]). *)
Theorem Coupling_identity_at_init (k mid seed : nat) (p : params)
  (x : rtensor) (ldj : option rtensor) (b h w : nat) :
  batchnorm p = false ->
  0 < k -> 0 < mid -> 0 < h -> 0 < w ->
  shape x = [b; 2 * k; h; w] ->
  (forall l, ldj = Some l -> shape l = [b]) ->
  exists y ldj' cp',
    Coupling_forward (fst (Coupling_new k mid p seed)) x ldj false
    = Ok (y, ldj', cp') /\
    teq y x /\
    match ldj, ldj' with
    | None, None => True
    | Some l, Some l' => teq l' l
    | _, _ => False
    end.
Proof.
  intros Hp Pk Pm Ph Pw Hx Hl.
  destruct (Coupling_new_shapes k mid seed p Hp) as [Hs Hz].
  destruct (Coupling_forward_even _ x ldj k mid b h w Hs Hx Ph Pw Hl)
    as (y & ldj' & cp' & E & Sy & Ln & Ls & Hid).
  destruct (Hid Hz) as [Gy Gl].
  exists y, ldj', cp'. split; [exact E|]. split.
  - split.
    + rewrite Sy, Hx. f_equal. f_equal. lia.
    + rewrite Sy. intros idx Hidx.
      destruct (in_range4_inv _ _ _ _ _ Hidx)
        as (i0 & i1 & i2 & i3 & -> & L0 & L1 & L2 & L3).
      apply Gy; try assumption. lia.
  - destruct ldj as [l|].
    + destruct (Gl l eq_refl) as (l' & E' & G'). rewrite E'.
      destruct (Ls l eq_refl) as (l2 & E2 & S2).
      rewrite E' in E2. inversion E2; subst l2.
      split.
      * rewrite S2. symmetry. apply Hl. reflexivity.
      * rewrite S2. intros idx Hidx.
        inversion Hidx as [|i d idx' s' Hi Hr]; subst.
        inversion Hr; subst. apply G'. exact Hi.
    + rewrite (Ln eq_refl). exact I.
Qed.

(** ** Violated preconditions *)

Lemma squeeze_odd_raises (A : Type) (x : tensor A) (b c h w : nat) :
  shape x = [b; c; h; w] ->
  0 < numel [b; c; h; w] ->
  Nat.odd h = true \/ Nat.odd w = true ->
  squeeze x false = Raise RuntimeError.
Proof.
  intros Hx Hn Hodd. unfold squeeze. rewrite Hx.
  rewrite view_raises; [reflexivity|].
  rewrite Hx. cbn [numel] in *.
  assert (Hh : h / 2 * 2 <= h).
  { pose proof (Nat.div_mod_eq h 2). lia. }
  assert (Hw : w / 2 * 2 <= w).
  { pose proof (Nat.div_mod_eq w 2). lia. }
  assert (Hlt : h / 2 * 2 < h \/ w / 2 * 2 < w).
  { destruct Hodd as [O|O]; apply Nat.odd_spec in O; destruct O as [m ->].
    - left. replace (2 * m + 1) with (1 + m * 2) by lia.
      rewrite Nat.div_add by lia. cbn. lia.
    - right. replace (2 * m + 1) with (1 + m * 2) by lia.
      rewrite Nat.div_add by lia. cbn. lia. }
  assert (Pb : 0 < b) by nia. assert (Pc : 0 < c) by nia.
  assert (Ph : 0 < h) by nia. assert (Pw : 0 < w) by nia.
  assert (E : b * (c * (h / 2 * (2 * (w / 2 * (2 * 1)))))
              = b * c * ((h / 2 * 2) * (w / 2 * 2))) by lia.
  rewrite E.
  assert (F : b * (c * (h * (w * 1))) = b * c * (h * w)) by lia.
  rewrite F.
  assert (G : (h / 2 * 2) * (w / 2 * 2) < h * w) by nia.
  nia.
Qed.

Lemma broadcast_shapes_mismatch (b c1 c2 h w : nat) :
  c1 <> c2 -> c1 <> 1 -> c2 <> 1 ->
  broadcast_shapes [b; c1; h; w] [b; c2; h; w] = None.
Proof.
  intros N N1 N2. unfold broadcast_shapes. cbn [rev app broadcast_rev].
  rewrite !Nat.eqb_refl.
  apply Nat.eqb_neq in N, N1, N2. rewrite N, N1, N2. reflexivity.
Qed.

Lemma broadcast_shapes_one_channel (b c h w : nat) :
  broadcast_shapes [b; c; h; w] [b; 1; h; w] = Some [b; c; h; w].
Proof.
  unfold broadcast_shapes. cbn [rev app broadcast_rev].
  rewrite !Nat.eqb_refl.
  destruct (c =? 1) eqn:E; [apply Nat.eqb_eq in E; subst|]; reflexivity.
Qed.

Lemma chunk_single (A : Type) (x : tensor A) (b h w : nat) :
  shape x = [b; 1; h; w] -> chunk x 2 1 = Ok [narrow x 1 0 1].
Proof.
  intros Hx. unfold chunk. rewrite Hx. reflexivity.
Qed.

Section CouplingOdd.
Local Open Scope R_scope.

Lemma binop_raises (f : R -> R -> R) (x y : rtensor) :
  broadcast_shapes (shape x) (shape y) = None ->
  binop f x y = Raise RuntimeError.
Proof.
  intros H. unfold binop. rewrite H. reflexivity.
Qed.

(** With an odd channel count other than 3 the layer raises: a single
    chunk cannot be unpacked into two names, and halves of [k + 1] and [k]
    channels do not broadcast. *)
Lemma Coupling_forward_odd_raises (cp : Coupling) (x : rtensor)
  (ldj : option rtensor) (reverse : bool) (k mid b h w : nat) :
  Coupling_shapes cp k mid ->
  shape x = [b; (2 * k + 1)%nat; h; w] ->
  k <> 1%nat -> (0 < h)%nat -> (0 < w)%nat ->
  exists e, Coupling_forward cp x ldj reverse = Raise e.
Proof.
  intros [Hn Hsc] Hx Hk Ph Pw. unfold Coupling_forward.
  destruct k as [|k].
  - rewrite (chunk_single R x b h w Hx). cbn [bind].
    exists ValueError. reflexivity.
  - rewrite (chunk_odd R x b (S k) h w) by (try lia; exact Hx).
    cbn [bind].
    assert (Sid : shape (narrow x 1 (S k + 1) (S k)) = [b; S k; h; w]).
    { unfold narrow. cbn [shape]. rewrite Hx. reflexivity. }
    assert (Sch : shape (narrow x 1 0 (S k + 1)) = [b; (S k + 1)%nat; h; w]).
    { unfold narrow. cbn [shape]. rewrite Hx. reflexivity. }
    destruct (NN_forward_shape (cp_nn cp) _ b (S k) mid (2 * S k) h w
                Hn Sid Ph Pw) as (st & net' & En & Sst & _).
    rewrite En. cbn [bind].
    destruct (slice_step_even st b (S k) h w Sst)
      as (s & t & Es & Et & Ss & St & _).
    rewrite Es, Et. cbn [bind]. unfold tmul, tadd, tsub.
    rewrite (binop_chan3 Rmult (cp_scale cp) (tmap tanh s) b (S k) h w Hsc)
      by (cbn [shape tmap]; exact Ss).
    cbn [bind]. exists RuntimeError.
    destruct reverse.
    + rewrite binop_raises; [reflexivity|].
      rewrite Sch. cbn [shape tmap].
      apply broadcast_shapes_mismatch; lia.
    + rewrite binop_raises; [reflexivity|].
      rewrite Sch, St. apply broadcast_shapes_mismatch; lia.
Qed.

(** With 3 channels the split gives halves of 2 and 1 channels, the scale
    and translation of the one channel broadcast over the two, and the layer
    returns a result. *)
Lemma Coupling_forward_three_channels (cp : Coupling) (x : rtensor)
  (mid b h w : nat) :
  Coupling_shapes cp 1 mid ->
  shape x = [b; 3%nat; h; w] ->
  (0 < h)%nat -> (0 < w)%nat ->
  exists x_change x_id y cp',
    chunk x 2 1 = Ok [x_change; x_id] /\
    shape x_change = [b; 2%nat; h; w] /\
    shape x_id = [b; 1%nat; h; w] /\
    Coupling_forward cp x None false = Ok (y, None, cp') /\
    shape y = [b; 3%nat; h; w].
Proof.
  intros [Hn Hsc] Hx Ph Pw. unfold Coupling_forward.
  rewrite (chunk_odd R x b 1 h w) by (try lia; exact Hx).
  cbn [bind].
  assert (Sid : shape (narrow x 1 (1 + 1) 1) = [b; 1%nat; h; w]).
  { unfold narrow. cbn [shape]. rewrite Hx. reflexivity. }
  assert (Sch : shape (narrow x 1 0 (1 + 1)) = [b; 2%nat; h; w]).
  { unfold narrow. cbn [shape]. rewrite Hx. reflexivity. }
  destruct (NN_forward_shape (cp_nn cp) _ b 1 mid (2 * 1) h w
              Hn Sid Ph Pw) as (st & net' & En & Sst & _).
  rewrite En. cbn [bind].
  destruct (slice_step_even st b 1 h w Sst)
    as (s & t & Es & Et & Ss & St & _).
  rewrite Es, Et. cbn [bind]. unfold tmul, tadd, tsub.
  rewrite (binop_chan3 Rmult (cp_scale cp) (tmap tanh s) b 1 h w Hsc)
    by (cbn [shape tmap]; exact Ss).
  cbn [bind].
  rewrite (binop_ok Rplus _ t [b; 2%nat; h; w])
    by (rewrite Sch, St; apply broadcast_shapes_one_channel).
  cbn [bind].
  rewrite (binop_ok Rmult _ _ [b; 2%nat; h; w])
    by (cbn [shape tmap]; apply broadcast_shapes_one_channel).
  cbn [bind Coupling_ldj].
  rewrite (cat_channels R _ _ b 2 1 h w) by (try reflexivity; exact Sid).
  cbn [bind].
  do 4 eexists. split; [reflexivity|]. split; [exact Sch|].
  split; [exact Sid|]. split; reflexivity.
Qed.

End CouplingOdd.

(** C8 (amended): there is no check of the preconditions; what fails is an
    operation of the tensor library.  Squeezing a tensor that has elements
    and an odd height or width raises the size error of the view; a
    coupling layer built for [c / 2] channels raises on an input with an odd
    number [c] of channels other than 3. *)
Theorem preconditions_raise_library_errors :
  (forall (A : Type) (x : tensor A) (b c h w : nat),
      shape x = [b; c; h; w] ->
      0 < numel [b; c; h; w] ->
      Nat.odd h = true \/ Nat.odd w = true ->
      squeeze x false = Raise RuntimeError) /\
  (forall (c mid seed : nat) (p : params) (x : rtensor) (ldj : option rtensor)
          (reverse : bool) (b h w : nat),
      batchnorm p = false ->
      Nat.odd c = true -> c <> 3 ->
      0 < h -> 0 < w ->
      shape x = [b; c; h; w] ->
      exists e,
        Coupling_forward (fst (Coupling_new (c / 2) mid p seed)) x ldj reverse
        = Raise e).
Proof.
  split.
  - intros A x b c h w. apply squeeze_odd_raises.
  - intros c mid seed p x ldj reverse b h w Hp Hodd Hc Ph Pw Hx.
    apply Nat.odd_spec in Hodd. destruct Hodd as [k Ek].
    assert (Ediv : c / 2 = k).
    { rewrite Ek. replace (2 * k + 1) with (1 + k * 2) by lia.
      rewrite Nat.div_add by lia. reflexivity. }
    rewrite Ediv.
    destruct (Coupling_new_shapes k mid seed p Hp) as [Hs _].
    apply (Coupling_forward_odd_raises _ x ldj reverse k mid b h w Hs);
      try assumption.
    + rewrite Hx, Ek. reflexivity.
    + lia.
Qed.

(** ** Shapes through a step of flow *)

Lemma acc_shape_same (sldj sldj' : option rtensor) (s : list nat) :
  (sldj = None -> sldj' = None) ->
  (forall l, sldj = Some l -> exists l', sldj' = Some l' /\ shape l' = s) ->
  (forall l, sldj = Some l -> shape l = s) ->
  acc_shape sldj' = acc_shape sldj.
Proof.
  intros Hn Hs Hl. destruct sldj as [l|].
  - destruct (Hs l eq_refl) as (l' & -> & S'). cbn.
    rewrite S', (Hl l eq_refl). reflexivity.
  - rewrite (Hn eq_refl). reflexivity.
Qed.

Lemma acc_per_batch_same (sldj sldj' : option rtensor) (b : nat) :
  acc_shape sldj' = acc_shape sldj ->
  acc_per_batch sldj b -> acc_per_batch sldj' b.
Proof.
  intros E H l' ->. destruct sldj as [l|]; cbn in E; [|discriminate].
  inversion E as [E']. rewrite E'. apply H. reflexivity.
Qed.

Lemma norm_call_pair_shape (a : ActNorm) (x : rtensor) (sldj : option rtensor)
  (reverse : bool) (nb nc nh nw : nat) :
  per_channel a nc -> an_return_ldj a = true ->
  shape x = [nb; nc; nh; nw] ->
  exists y sldj' a',
    norm_call_pair a x sldj reverse = Ok (y, sldj', a') /\
    shape y = [nb; nc; nh; nw] /\
    acc_shape sldj' = acc_shape sldj.
Proof.
  intros Hp Hr Hx.
  destruct (ActNorm_forward_shape a x sldj reverse nb nc nh nw Hp Hx)
    as (y & l & a' & Hf & Sy & _ & _ & Hn & Hs).
  exists y, l, a'. unfold norm_call_pair. rewrite Hf, Hr. cbn [bind].
  split; [reflexivity|]. split; [exact Sy|].
  destruct sldj as [s|].
  - destruct (Hs s eq_refl) as (s' & -> & S'). cbn. rewrite S'. reflexivity.
  - rewrite (Hn eq_refl). reflexivity.
Qed.

Lemma InvConv_forward_shape (ic : InvConv) (x : rtensor) (sldj : option rtensor)
  (b c h w : nat) :
  ic_num_channels ic = c -> shape (ic_weight ic) = [c; c] ->
  shape x = [b; c; h; w] -> 0 < h -> 0 < w ->
  exists z sldj',
    InvConv_forward ic x sldj false = Ok (z, sldj') /\
    shape z = [b; c; h; w] /\
    acc_shape sldj' = acc_shape sldj.
Proof.
  intros Hc Hw Hx Ph Pw. unfold InvConv_forward.
  assert (Es : exists sldj', InvConv_sldj ic x sldj false = Ok sldj' /\
                             acc_shape sldj' = acc_shape sldj).
  { unfold InvConv_sldj, size. destruct sldj as [s|].
    - rewrite Hx. cbn [nth_error bind]. unfold tadd.
      rewrite binop_scalar by reflexivity. cbn [bind].
      eexists. split; reflexivity.
    - eexists. split; reflexivity. }
  destruct Es as (sldj' & Es & Ea). rewrite Es. cbn [bind].
  rewrite Hc. rewrite view_ok by (rewrite Hw; cbn [numel]; lia).
  cbn [bind].
  destruct (conv2d_1x1 x (mkT [c; c; 1; 1]
              (fun idx => get (ic_weight ic)
                            (unravel (shape (ic_weight ic))
                               (ravel [c; c; 1; 1] idx))))
              b c h w c Hx eq_refl Ph Pw) as (z & Ez & Sz).
  rewrite Ez. cbn [bind]. exists z, sldj'.
  split; [reflexivity|]. split; assumption.
Qed.

Lemma even_twice_half (c : nat) : Nat.even c = true -> 2 * (c / 2) = c.
Proof.
  intros H. pose proof (even_half_twice c H). lia.
Qed.

Lemma _FlowStep_forward_shape (fs : _FlowStep) (x : rtensor)
  (sldj : option rtensor) (c mid b h w : nat) :
  _FlowStep_shapes fs c mid ->
  Nat.even c = true ->
  shape x = [b; c; h; w] -> 0 < h -> 0 < w ->
  acc_per_batch sldj b ->
  exists y sldj' fs',
    _FlowStep_forward fs x sldj false = Ok (y, sldj', fs') /\
    shape y = [b; c; h; w] /\
    acc_shape sldj' = acc_shape sldj.
Proof.
  intros (Hp & Hr & Hc & Hw & Hcp) Hev Hx Ph Pw Hacc.
  unfold _FlowStep_forward.
  destruct (norm_call_pair_shape (fs_norm fs) x sldj false b c h w Hp Hr Hx)
    as (x1 & l1 & a' & E1 & S1 & A1).
  rewrite E1. cbn [bind].
  destruct (InvConv_forward_shape (fs_conv fs) x1 l1 b c h w Hc Hw S1 Ph Pw)
    as (x2 & l2 & E2 & S2 & A2).
  rewrite E2. cbn [bind].
  assert (Hacc2 : acc_per_batch l2 b).
  { apply (acc_per_batch_same l1); [exact A2|].
    apply (acc_per_batch_same sldj); assumption. }
  assert (S2' : shape x2 = [b; 2 * (c / 2); h; w]).
  { rewrite S2, (even_twice_half c Hev). reflexivity. }
  destruct (Coupling_forward_even (fs_coup fs) x2 l2 (c / 2) mid b h w
              Hcp S2' Ph Pw Hacc2)
    as (x3 & l3 & cp' & E3 & S3 & Ln & Ls & _).
  rewrite E3. cbn [bind]. do 3 eexists.
  split; [reflexivity|]. split.
  - rewrite S3. f_equal. f_equal. pose proof (even_twice_half c Hev). lia.
  - rewrite <- A1, <- A2. apply (acc_shape_same l2 l3 [b]); assumption.
Qed.

Lemma squeeze_forward_shape (A : Type) (x : tensor A) (b c h w : nat) :
  shape x = [b; c; 2 * h; 2 * w] ->
  exists y, squeeze x false = Ok y /\ shape y = [b; 4 * c; h; w].
Proof.
  intros Hx.
  assert (Eh : Nat.even (2 * h) = true).
  { apply Nat.even_spec. exists h. reflexivity. }
  assert (Ew : Nat.even (2 * w) = true).
  { apply Nat.even_spec. exists w. reflexivity. }
  destruct (squeeze_roundtrip A x b c (2 * h) (2 * w) Hx Eh Ew)
    as (y & _ & Ey & Sy & _).
  exists y. split; [exact Ey|]. rewrite Sy.
  replace (2 * h) with (h * 2) by lia. replace (2 * w) with (w * 2) by lia.
  rewrite !Nat.div_mul by lia. f_equal. f_equal. lia.
Qed.

Section LogitFacts.
Local Open Scope R_scope.

Lemma LogitTransform_forward_shape (lt : LogitTransform) (x : rtensor)
  (sldj : option rtensor) (b c h w : nat) :
  shape x = [b; c; h; w] ->
  (0 < b)%nat ->
  acc_per_batch sldj b ->
  exists y sldj',
    LogitTransform_forward lt x sldj false = Ok (y, sldj') /\
    shape y = [b; c; h; w] /\
    acc_shape sldj' = acc_shape sldj.
Proof.
  intros Hx Pb Hacc. unfold LogitTransform_forward.
  destruct sldj as [s|].
  2:{ do 2 eexists. split; [reflexivity|]. split; [exact Hx|reflexivity]. }
  unfold LogitTransform_batch_logdet, size. rewrite Hx. cbn [nth_error bind].
  unfold view_infer at 1. cbn [LogitTransform__logdetgrad tmap shape].
  rewrite Hx.
  set (n := (c * (h * (w * 1)))%nat).
  assert (Nb : numel [b] = b) by (cbn; lia).
  assert (Nx : numel [b; c; h; w] = (n * b)%nat) by (cbn [numel]; subst n; lia).
  rewrite Nb, Nx.
  replace (b =? 0)%nat with false by (symmetry; apply Nat.eqb_neq; lia).
  rewrite Nat.Div0.mod_mul, Nat.eqb_refl, Nat.div_mul by lia.
  rewrite view_ok
    by (unfold LogitTransform__logdetgrad; cbn [app tmap shape];
        rewrite Hx; cbn [numel]; subst n; lia).
  cbn [bind app]. unfold sum_keepdim. cbn [shape nth_error bind set_nth].
  unfold view_infer. cbn [shape].
  assert (N1 : numel [b; 1%nat] = b) by (cbn; lia).
  rewrite N1. cbn [numel Nat.eqb app].
  rewrite Nat.mod_1_r, Nat.div_1_r. cbn [Nat.eqb].
  rewrite view_ok by (cbn [shape numel]; lia).
  cbn [bind]. unfold tadd.
  rewrite (binop_same Rplus s _ [b]) by (try reflexivity; apply Hacc; reflexivity).
  cbn [bind]. do 2 eexists. split; [reflexivity|].
  split; [exact Hx|]. cbn. rewrite (Hacc s eq_refl). reflexivity.
Qed.

End LogitFacts.

(** ** Shapes through the levels *)

Lemma run_steps_shape (steps : list _FlowStep) (c mid b h w : nat) :
  Forall (fun fs => _FlowStep_shapes fs c mid) steps ->
  Nat.even c = true -> 0 < h -> 0 < w ->
  forall (x : rtensor) (sldj : option rtensor),
    shape x = [b; c; h; w] ->
    acc_per_batch sldj b ->
    exists y sldj' steps',
      run_steps steps x sldj false = Ok (y, sldj', steps') /\
      shape y = [b; c; h; w] /\
      acc_shape sldj' = acc_shape sldj.
Proof.
  intros Hall Hev Ph Pw.
  induction Hall as [|fs steps Hfs _ IH]; intros x sldj Hx Hacc.
  - cbn [run_steps]. do 3 eexists. split; [reflexivity|].
    split; [exact Hx|reflexivity].
  - cbn [run_steps].
    destruct (_FlowStep_forward_shape fs x sldj c mid b h w
                Hfs Hev Hx Ph Pw Hacc)
      as (x1 & l1 & fs' & E1 & S1 & A1).
    rewrite E1. cbn [bind].
    destruct (IH x1 l1 S1 (acc_per_batch_same sldj l1 b A1 Hacc))
      as (x2 & l2 & steps' & E2 & S2 & A2).
    rewrite E2. cbn [bind]. do 3 eexists. split; [reflexivity|].
    split; [exact S2|]. rewrite A2. exact A1.
Qed.

Lemma _FlowStep_new_shapes (c mid seed : nat) (p : params) :
  batchnorm p = false ->
  _FlowStep_shapes (fst (_FlowStep_new c mid p seed)) c mid.
Proof.
  intros Hp. unfold _FlowStep_new, InvConv_new.
  pose proof (Coupling_new_shapes (c / 2) mid (S seed) p Hp) as [Hs _].
  destruct (Coupling_new (c / 2) mid p (S seed)) as [coup seed2].
  cbn [fst] in *. unfold _FlowStep_shapes.
  cbn [fs_norm fs_conv fs_coup ic_num_channels ic_weight shape].
  split; [apply ActNorm_new_per_channel|].
  split; [reflexivity|]. split; [reflexivity|]. split; [reflexivity|].
  exact Hs.
Qed.

Lemma steps_new_shapes (c mid : nat) (p : params) (num_steps : nat) :
  batchnorm p = false ->
  forall seed,
    Forall (fun fs => _FlowStep_shapes fs c mid)
           (fst (steps_new c mid p num_steps seed)).
Proof.
  intros Hp. induction num_steps as [|n IH]; intros seed.
  - constructor.
  - cbn [steps_new].
    pose proof (_FlowStep_new_shapes c mid seed p Hp) as H1.
    destruct (_FlowStep_new c mid p seed) as [step seed1].
    specialize (IH seed1).
    destruct (steps_new c mid p n seed1) as [rest seed2].
    cbn [fst] in *. constructor; assumption.
Qed.

Lemma even_4_mul (c : nat) : Nat.even (4 * c) = true.
Proof.
  apply Nat.even_spec. exists (2 * c). lia.
Qed.

(** One level of the forward direction: the steps, one squeeze, then the
    levels below. *)
Lemma _Glow_forward_shape (mid num_steps : nat) (p : params) :
  batchnorm p = false ->
  forall (num_levels c seed : nat) (x : rtensor) (sldj : option rtensor)
         (b h w : nat),
    Nat.even c = true -> 0 < h -> 0 < w ->
    shape x = [b; c; 2 ^ num_built_levels num_levels * h;
                     2 ^ num_built_levels num_levels * w] ->
    acc_per_batch sldj b ->
    exists y sldj' g',
      _Glow_forward (fst (_Glow_new c mid num_levels num_steps p seed))
                    x sldj false
      = Ok (y, sldj', g') /\
      shape y = [b; 4 ^ num_built_levels num_levels * c; h; w] /\
      acc_shape sldj' = acc_shape sldj.
Proof.
  intros Hp.
  assert (Terminal : forall c seed x sldj b h w,
             Nat.even c = true -> 0 < h -> 0 < w ->
             shape x = [b; c; 2 ^ 1 * h; 2 ^ 1 * w] ->
             acc_per_batch sldj b ->
             exists y sldj' steps',
               _Glow_forward
                 (mkGlowLevel (fst (steps_new c mid p num_steps seed)) None)
                 x sldj false
               = Ok (y, sldj', mkGlowLevel steps' None) /\
               shape y = [b; 4 ^ 1 * c; h; w] /\
               acc_shape sldj' = acc_shape sldj).
  { intros c seed x sldj b h w Hev Ph Pw Hx Hacc.
    cbn [_Glow_forward negb].
    destruct (run_steps_shape _ c mid b (2 ^ 1 * h) (2 ^ 1 * w)
                (steps_new_shapes c mid p num_steps Hp seed) Hev
                ltac:(cbn; lia) ltac:(cbn; lia) x sldj Hx Hacc)
      as (x1 & l1 & steps' & E1 & S1 & A1).
    rewrite E1. cbn [bind]. unfold squeeze_step. cbn [fst snd].
    destruct (squeeze_forward_shape R x1 b c h w) as (x2 & E2 & S2).
    { rewrite S1. reflexivity. }
    rewrite E2. cbn [bind]. do 3 eexists. split; [reflexivity|].
    split; [|exact A1]. rewrite S2. reflexivity. }
  induction num_levels as [|n IH];
    intros c seed x sldj b h w Hev Ph Pw Hx Hacc.
  - cbn [_Glow_new num_built_levels] in *.
    destruct (steps_new c mid p num_steps seed) as [steps seed1] eqn:Es.
    cbn [fst].
    destruct (Terminal c seed x sldj b h w Hev Ph Pw Hx Hacc)
      as (y & l & steps' & E & S & A).
    rewrite Es in E. cbn [fst] in E. do 3 eexists.
    split; [exact E|]. split; assumption.
  - destruct n as [|n].
    + cbn [_Glow_new num_built_levels] in *.
      destruct (steps_new c mid p num_steps seed) as [steps seed1] eqn:Es.
      cbn [fst].
      destruct (Terminal c seed x sldj b h w Hev Ph Pw Hx Hacc)
        as (y & l & steps' & E & S & A).
      rewrite Es in E. cbn [fst] in E. do 3 eexists.
      split; [exact E|]. split; assumption.
    + change (num_built_levels (S (S n))) with (S (num_built_levels (S n))) in *.
      set (m := num_built_levels (S n)) in *.
      change (_Glow_new c mid (S (S n)) num_steps p seed)
        with (let (steps, seed1) := steps_new c mid p num_steps seed in
              let (next, seed2) :=
                _Glow_new (4 * c) mid (S n) num_steps p seed1 in
              (mkGlowLevel steps (Some next), seed2)).
      pose proof (steps_new_shapes c mid p num_steps Hp seed) as Hsteps.
      destruct (steps_new c mid p num_steps seed) as [steps seed1].
      specialize (IH (4 * c) seed1).
      destruct (_Glow_new (4 * c) mid (S n) num_steps p seed1) as [next seed2].
      cbn [fst] in *. cbn [_Glow_forward negb].
      assert (Hx' : shape x = [b; c; 2 * (2 ^ m * h); 2 * (2 ^ m * w)]).
      { rewrite Hx. cbn [Nat.pow]. f_equal. f_equal. f_equal; [lia|].
        f_equal. lia. }
      destruct (run_steps_shape steps c mid b (2 * (2 ^ m * h)) (2 * (2 ^ m * w))
                  Hsteps Hev) with (x := x) (sldj := sldj)
        as (x1 & l1 & steps' & E1 & S1 & A1); try assumption.
      { assert (0 < 2 ^ m) by (apply Nat.neq_0_lt_0, Nat.pow_nonzero; lia). nia. }
      { assert (0 < 2 ^ m) by (apply Nat.neq_0_lt_0, Nat.pow_nonzero; lia). nia. }
      rewrite E1. cbn [bind]. unfold squeeze_step. cbn [fst snd].
      destruct (squeeze_forward_shape R x1 b c (2 ^ m * h) (2 ^ m * w) S1)
        as (x2 & E2 & S2).
      rewrite E2. cbn [bind].
      destruct (IH x2 l1 b h w (even_4_mul c) Ph Pw S2
                  (acc_per_batch_same sldj l1 b A1 Hacc))
        as (y & l2 & g' & E3 & S3 & A3).
      rewrite E3. cbn [bind]. do 3 eexists. split; [reflexivity|].
      split.
      * rewrite S3. cbn [Nat.pow]. f_equal. f_equal. lia.
      * rewrite A3. exact A1.
Qed.

Lemma Glow_forward_shape (in_channels mid num_levels num_steps seed : nat)
  (p : params) (x : rtensor) (sldj : option rtensor) (b h w : nat) :
  batchnorm p = false ->
  0 < b -> 0 < h -> 0 < w ->
  shape x = [b; in_channels; 2 ^ S (num_built_levels num_levels) * h;
                             2 ^ S (num_built_levels num_levels) * w] ->
  acc_per_batch sldj b ->
  exists y sldj' g',
    Glow_forward (fst (Glow_new in_channels mid num_levels num_steps p seed))
                 x sldj false
    = Ok (y, sldj', g') /\
    shape y = [b; 4 ^ S (num_built_levels num_levels) * in_channels; h; w] /\
    acc_shape sldj' = acc_shape sldj.
Proof.
  intros Hp Pb Ph Pw Hx Hacc. unfold Glow_new.
  set (m := num_built_levels num_levels) in *.
  pose proof (_Glow_forward_shape mid num_steps p Hp num_levels
                (in_channels * 4) seed) as HG.
  destruct (_Glow_new (in_channels * 4) mid num_levels num_steps p seed)
    as [flows seed'].
  cbn [fst] in *. unfold Glow_forward.
  cbn [negb glow_init glow_flows glow_params].
  destruct (LogitTransform_forward_shape LogitTransform_new x sldj b in_channels
              _ _ Hx Pb Hacc) as (x1 & l1 & E1 & S1 & A1).
  rewrite E1. cbn [bind]. unfold squeeze_step. cbn [fst snd].
  destruct (squeeze_forward_shape R x1 b in_channels (2 ^ m * h) (2 ^ m * w))
    as (x2 & E2 & S2).
  { rewrite S1. cbn [Nat.pow]. f_equal. f_equal. f_equal; [lia|]. f_equal. lia. }
  rewrite E2. cbn [bind].
  destruct (HG x2 l1 b h w) as (y & l2 & g' & E3 & S3 & A3).
  { replace (in_channels * 4) with (4 * in_channels) by lia. apply even_4_mul. }
  { exact Ph. }
  { exact Pw. }
  { rewrite S2. fold m. f_equal. f_equal. lia. }
  { apply (acc_per_batch_same sldj); assumption. }
  rewrite E3. cbn [bind]. do 3 eexists. split; [reflexivity|]. split.
  - rewrite S3. fold m. cbn [Nat.pow]. f_equal. f_equal. lia.
  - rewrite A3. exact A1.
Qed.

(** C2 (amended): the terminal level, the one built without a level below
    it, applies its steps and then squeezes like every other level; a flow
    with [num_levels = 3], [num_steps = 1] and [in_channels = 1] maps a batch
    of 8 images of 32x32 to a tensor of shape (8, 4^4, 2, 2). *)
Theorem terminal_level_squeezes :
  (forall (c mid num_steps seed : nat) (p : params),
      gl_next (fst (_Glow_new c mid 1 num_steps p seed)) = None) /\
  (forall (steps : list _FlowStep) (x : rtensor) (sldj : option rtensor),
      _Glow_forward (mkGlowLevel steps None) x sldj false
      = (' (x1, l1, steps') <- run_steps steps x sldj false;;
         x2 <- squeeze x1 false;;
         Ok (x2, l1, mkGlowLevel steps' None))) /\
  (forall (mid seed : nat) (p : params) (x : rtensor) (sldj : option rtensor),
      batchnorm p = false ->
      shape x = [8; 1; 32; 32] ->
      acc_per_batch sldj 8 ->
      exists y sldj' g',
        Glow_forward (fst (Glow_new 1 mid 3 1 p seed)) x sldj false
        = Ok (y, sldj', g') /\
        shape y = [8; 4 ^ 4; 2; 2]).
Proof.
  split; [|split].
  - intros c mid num_steps seed p. cbn [_Glow_new].
    destruct (steps_new c mid p num_steps seed). reflexivity.
  - intros steps x sldj. cbn [_Glow_forward negb].
    destruct (run_steps steps x sldj false) as [[[x1 l1] steps']|e];
      cbn [bind]; [|reflexivity].
    unfold squeeze_step. cbn [fst snd].
    destruct (squeeze x1 false) as [x2|e]; reflexivity.
  - intros mid seed p x sldj Hp Hx Hacc.
    destruct (Glow_forward_shape 1 mid 3 1 seed p x sldj 8 2 2 Hp)
      as (y & l & g' & E & S & _); try lia; try assumption.
    exists y, l, g'. split; [exact E|]. rewrite S. reflexivity.
Qed.

(** ** The accumulator in the reverse direction *)

Lemma broadcast_rev_length (s1 : list nat) :
  forall s2 s, broadcast_rev s1 s2 = Some s ->
               length s = Nat.max (length s1) (length s2).
Proof.
  induction s1 as [|d1 r1 IH]; intros s2 s H.
  - cbn in H. inversion H. reflexivity.
  - destruct s2 as [|d2 r2].
    + cbn in H. inversion H. reflexivity.
    + cbn [broadcast_rev] in H.
      destruct (broadcast_rev r1 r2) as [r|] eqn:E; [|discriminate].
      specialize (IH r2 r E).
      destruct (d1 =? d2); [|destruct (d1 =? 1); [|destruct (d2 =? 1)]];
        inversion H; cbn [length]; lia.
Qed.

Lemma broadcast_shapes_length (s1 s2 s : list nat) :
  broadcast_shapes s1 s2 = Some s ->
  length s = Nat.max (length s1) (length s2).
Proof.
  unfold broadcast_shapes. intros H.
  destruct (broadcast_rev (rev s1) (rev s2)) as [r|] eqn:E; [|discriminate].
  cbn in H. inversion H. rewrite length_rev.
  rewrite (broadcast_rev_length _ _ _ E), !length_rev. reflexivity.
Qed.

Lemma binop_rank (f : R -> R -> R) (x y z : rtensor) :
  binop f x y = Ok z ->
  length (shape z) = Nat.max (length (shape x)) (length (shape y)).
Proof.
  unfold binop. intros H.
  destruct (broadcast_shapes (shape x) (shape y)) as [s|] eqn:E; [|discriminate].
  inversion H. cbn [shape]. apply broadcast_shapes_length. exact E.
Qed.

(** The inverse of the logit transform subtracts a column of one entry per
    element of the batch, kept with two dimensions. *)
Lemma LogitTransform_inverse_rank (lt : LogitTransform) (y s x : rtensor)
  (l : option rtensor) :
  LogitTransform_inverse lt y (Some s) = Ok (x, l) ->
  exists s', l = Some s' /\ 2 <= length (shape s').
Proof.
  unfold LogitTransform_inverse, LogitTransform_batch_logdet.
  destruct (size _ 0) as [b|e]; cbn [bind]; [|discriminate].
  destruct (view_infer _ [b]) as [g|e] eqn:Eg; cbn [bind]; [|discriminate].
  assert (Sg : length (shape g) = 2).
  { unfold view_infer in Eg.
    destruct (numel [b] =? 0); [discriminate|].
    destruct (_ mod _ =? 0); [|discriminate].
    unfold view in Eg. destruct (_ =? _); [|discriminate].
    inversion Eg. reflexivity. }
  unfold sum_keepdim.
  destruct (nth_error (shape g) 1) as [n|] eqn:En; cbn [bind]; [|discriminate].
  destruct (tsub s _) as [s'|e] eqn:Es; cbn [bind]; [|discriminate].
  intros E. inversion E; subst. exists s'. split; [reflexivity|].
  unfold tsub in Es. rewrite (binop_rank _ _ _ _ Es). cbn [shape].
  assert (L : length (set_nth 1 1 (shape g)) = 2).
  { destruct (shape g) as [|a [|c [|? ?]]]; try discriminate. reflexivity. }
  rewrite L. lia.
Qed.

Lemma ActNorm_transform_some (a : ActNorm) (x s y : rtensor)
  (reverse : bool) (l : option rtensor) :
  ActNorm_transform a x (Some s) reverse = Ok (y, l) -> l <> None.
Proof.
  unfold ActNorm_transform, ActNorm__scale. intros H.
  destruct reverse; bind_all; discriminate.
Qed.

Lemma norm_call_pair_some (a a' : ActNorm) (x s y : rtensor)
  (reverse : bool) (l : option rtensor) :
  norm_call_pair a x (Some s) reverse = Ok (y, l, a') -> l <> None.
Proof.
  unfold norm_call_pair. intros H.
  destruct (ActNorm_forward a x (Some s) reverse) as [[r a1]|e] eqn:E;
    cbn [bind] in H; [|discriminate].
  unfold ActNorm_forward in E.
  destruct (if an_is_initialized a =? 0
            then ActNorm_initialize_parameters a x else Ok a) as [a2|e];
    cbn [bind] in E; [|discriminate].
  destruct (ActNorm_transform a2 x (Some s) reverse) as [[y0 l0]|e] eqn:Et;
    cbn [bind] in E; [|discriminate].
  apply ActNorm_transform_some in Et. inversion E; subst; clear E.
  destruct (an_return_ldj a1).
  - inversion H; subst. exact Et.
  - destruct (unpack2 y0) as [[y1 y2]|e]; cbn [bind] in H; [|discriminate].
    inversion H. discriminate.
Qed.

Lemma InvConv_forward_some (ic : InvConv) (x s z : rtensor)
  (reverse : bool) (l : option rtensor) :
  InvConv_forward ic x (Some s) reverse = Ok (z, l) -> l <> None.
Proof.
  unfold InvConv_forward, InvConv_sldj. intros H.
  bind_all. discriminate.
Qed.

Lemma Coupling_ldj_some (t s : rtensor) (reverse : bool) (o : option rtensor) :
  Coupling_ldj t (Some s) reverse = Ok o -> o <> None.
Proof.
  unfold Coupling_ldj. intros H. bind_all. discriminate.
Qed.

Lemma Coupling_forward_some (cp cp' : Coupling) (x s y : rtensor)
  (reverse : bool) (l : option rtensor) :
  Coupling_forward cp x (Some s) reverse = Ok (y, l, cp') -> l <> None.
Proof.
  unfold Coupling_forward. intros H.
  bind_step H. destruct v as [|x_change [|x_id [|? ?]]]; try discriminate.
  destruct reverse; bind_all; eapply Coupling_ldj_some; eassumption.
Qed.

Lemma _FlowStep_forward_some (fs fs' : _FlowStep) (x y : rtensor)
  (sldj l : option rtensor) (reverse : bool) :
  _FlowStep_forward fs x sldj reverse = Ok (y, l, fs') ->
  sldj <> None -> l <> None.
Proof.
  unfold _FlowStep_forward. intros H Hs.
  destruct sldj as [s|]; [clear Hs|contradiction].
  destruct reverse.
  - bind_step H. destruct v as [[x1 l1] cp'].
    apply Coupling_forward_some in E.
    destruct l1 as [s1|]; [|contradiction].
    bind_step H. destruct v as [x2 l2].
    apply InvConv_forward_some in E0.
    destruct l2 as [s2|]; [|contradiction].
    bind_step H. destruct v as [[x3 l3] a'].
    apply norm_call_pair_some in E1. inversion H; subst. exact E1.
  - bind_step H. destruct v as [[x1 l1] a'].
    apply norm_call_pair_some in E.
    destruct l1 as [s1|]; [|contradiction].
    bind_step H. destruct v as [x2 l2].
    apply InvConv_forward_some in E0.
    destruct l2 as [s2|]; [|contradiction].
    bind_step H. destruct v as [[x3 l3] cp'].
    apply Coupling_forward_some in E1. inversion H; subst. exact E1.
Qed.

Lemma run_steps_some (steps : list _FlowStep) (reverse : bool) :
  forall (x y : rtensor) (sldj l : option rtensor) (steps' : list _FlowStep),
    run_steps steps x sldj reverse = Ok (y, l, steps') ->
    sldj <> None -> l <> None.
Proof.
  induction steps as [|fs steps IH]; intros x y sldj l steps' H Hs.
  - cbn in H. inversion H; subst. exact Hs.
  - cbn [run_steps] in H.
    bind_step H. destruct v as [[x1 l1] fs'].
    bind_step H. destruct v as [[x2 l2] rest'].
    inversion H; subst.
    eapply IH; [eassumption|].
    eapply _FlowStep_forward_some; eassumption.
Qed.

Lemma _Glow_forward_some :
  forall (g g' : _Glow) (x y : rtensor) (sldj l : option rtensor)
         (reverse : bool),
    _Glow_forward g x sldj reverse = Ok (y, l, g') ->
    sldj <> None -> l <> None.
Proof.
  fix IH 1. intros [steps next] g' x y sldj l reverse H Hs.
  cbn [_Glow_forward] in H.
  bind_step H. destruct v as [[x1 l1] steps1].
  assert (H1 : l1 <> None).
  { destruct reverse; cbn [negb] in E.
    - inversion E; subst. exact Hs.
    - bind_step E. destruct v as [[x0 l0] steps0].
      unfold squeeze_step in E. cbn [fst snd] in E.
      bind_all. eapply run_steps_some; eassumption. }
  bind_step H. destruct v as [[x2 l2] next2].
  assert (H2 : l2 <> None).
  { destruct next as [lower|].
    - bind_step E0. destruct v as [[x0 l0] lower0].
      inversion E0; subst. eapply IH; eassumption.
    - inversion E0; subst. exact H1. }
  bind_step H. destruct v as [[x3 l3] steps3].
  inversion H; subst.
  destruct reverse.
  - unfold squeeze_step, run_steps_reversed in E1. cbn [fst snd] in E1.
    bind_all. eapply run_steps_some; eassumption.
  - inversion E1; subst. exact H2.
Qed.

(** X21: whatever the model and its input, an accumulator that comes back
    from the reverse direction has at least two dimensions: the inverse of the
    logit transform subtracts a column kept with [keepdim=True], which
    broadcasts against the accumulator.  It is never the accumulator with
    one entry per element of the batch that the forward direction takes
    and returns. *)
Theorem Glow_reverse_accumulator_rank (g : Glow) (z s : rtensor) :
  match Glow_forward g z (Some s) true with
  | Ok (_, Some s', _) => 2 <= length (shape s')
  | Ok (_, None, _) => False
  | Raise _ => True
  end.
Proof.
  destruct (Glow_forward g z (Some s) true) as [[[x l] g']|e] eqn:H;
    [|exact I].
  unfold Glow_forward in H. cbn [negb bind] in H.
  bind_step H. destruct v as [[x1 l1] flows].
  apply _Glow_forward_some in E; [|discriminate].
  destruct l1 as [s1|]; [|contradiction].
  bind_step H. destruct v as [x2 l2].
  unfold squeeze_step in E0. cbn [fst snd] in E0.
  bind_step E0. destruct v as [x3 l3]. bind_step E1.
  inversion E1; subst; clear E1. unfold LogitTransform_forward in E0.
  apply LogitTransform_inverse_rank in E0. destruct E0 as (s' & -> & L).
  inversion H; subst. exact L.
Qed.

(** ** Round trips, layer by layer

    Each lemma gives the forward call and, for every tensor and accumulator
    equal to what it returns, the reverse call that leads back to the
    inputs, so that the lemmas of the layers compose. *)

Lemma teq_refl (A : Type) (x : tensor A) : teq x x.
Proof. split; reflexivity. Qed.

Lemma teq_sym (A : Type) (x y : tensor A) : teq x y -> teq y x.
Proof.
  intros [S G]. split; [symmetry; exact S|].
  intros idx H. symmetry. apply G. rewrite S. exact H.
Qed.

Lemma teq_trans (A : Type) (x y z : tensor A) : teq x y -> teq y z -> teq x z.
Proof.
  intros [S1 G1] [S2 G2]. split; [congruence|].
  intros idx H. rewrite (G1 idx H). apply G2. rewrite <- S1. exact H.
Qed.

Lemma acc_eq_refl (l : option rtensor) : acc_eq l l.
Proof. destruct l; cbn; [apply teq_refl | exact I]. Qed.

Lemma acc_eq_shape (l l' : option rtensor) :
  acc_eq l l' -> acc_shape l = acc_shape l'.
Proof.
  destruct l, l'; cbn; try contradiction; try reflexivity.
  intros [S _]. rewrite S. reflexivity.
Qed.

(** *** [ActNorm] *)

Lemma ActNorm_forward_settled (a : ActNorm) (x : rtensor)
  (ldj : option rtensor) (reverse : bool) :
  ActNorm_settled a ->
  ActNorm_forward a x ldj reverse
  = (' (y, l) <- ActNorm_transform a x ldj reverse;;
     Ok (if an_return_ldj a then RetPair y l else RetTensor y, a)).
Proof.
  intros H. unfold ActNorm_forward.
  assert (I : (if an_is_initialized a =? 0
               then ActNorm_initialize_parameters a x else Ok a) = Ok a).
  { destruct (an_is_initialized a =? 0) eqn:Z; [|reflexivity].
    apply Nat.eqb_eq in Z. destruct H as [T|N]; [|contradiction].
    unfold ActNorm_initialize_parameters. rewrite T. reflexivity. }
  rewrite I. reflexivity.
Qed.

(** Whatever the state of the layer, a call on a batch with its number of
    channels leaves it settled, and transforms the batch with the
    parameters it leaves. *)
Lemma ActNorm_forward_settles (a : ActNorm) (x : rtensor) (nb nc nh nw : nat) :
  per_channel a nc ->
  shape x = [nb; nc; nh; nw] ->
  exists a',
    per_channel a' nc /\ ActNorm_settled a' /\
    an_return_ldj a' = an_return_ldj a /\
    forall ldj reverse,
      ActNorm_forward a x ldj reverse
      = (' (y, l) <- ActNorm_transform a' x ldj reverse;;
         Ok (if an_return_ldj a then RetPair y l else RetTensor y, a')).
Proof.
  intros Hp Hx.
  destruct (Nat.eq_dec (an_is_initialized a) 0) as [Z|N].
  - destruct (an_training a) eqn:T.
    + destruct (ActNorm_initialize_parameters_ok a x nb nc nh nw T Hp Hx)
        as (bias & logs & a1 & _ & _ & Hi & _ & _ & Hp1 & Hf & _ & Hr & _).
      exists a1. split; [exact Hp1|]. split.
      { right. rewrite Hf. lia. }
      split; [exact Hr|]. intros ldj reverse.
      unfold ActNorm_forward. rewrite Z. cbn [Nat.eqb]. rewrite Hi.
      cbn [bind]. rewrite Hr. reflexivity.
    + exists a. split; [exact Hp|]. split; [left; exact T|].
      split; [reflexivity|]. intros ldj reverse.
      apply ActNorm_forward_settled. left. exact T.
  - exists a. split; [exact Hp|]. split; [right; exact N|].
    split; [reflexivity|]. intros ldj reverse.
    apply ActNorm_forward_settled. right. exact N.
Qed.

Section ActNormRoundTrip.
Local Open Scope R_scope.

(** The value that a call adds to or subtracts from the accumulator. *)
Lemma ActNorm_transform_acc (a : ActNorm) (x s : rtensor) (reverse : bool)
  (nb nc nh nw : nat) :
  per_channel a nc ->
  shape x = [nb; nc; nh; nw] ->
  exists y s',
    ActNorm_transform a x (Some s) reverse = Ok (y, Some s') /\
    shape s' = shape s /\
    forall idx, in_range idx (shape s) ->
      get s' idx
      = if reverse
        then get s idx - get (sum_all (an_logs a)) [] * INR nh * INR nw
        else get s idx + get (sum_all (an_logs a)) [] * INR nh * INR nw.
Proof.
  intros [Hb Hl] Hx. unfold ActNorm_transform, ActNorm__scale, ActNorm__center.
  destruct reverse; unfold tmul, tsub, tadd.
  - rewrite (binop_chan Rmult x _ nb nc nh nw Hx) by (cbn [tmap shape]; exact Hl).
    cbn [bind]. unfold size. cbn [shape nth_error bind].
    rewrite binop_scalar by reflexivity. cbn [bind].
    rewrite (binop_chan Rminus _ _ nb nc nh nw) by (try reflexivity; exact Hb).
    cbn [bind]. do 2 eexists. split; [reflexivity|]. split; [reflexivity|].
    intros idx Hidx. cbn [get shape tmap].
    rewrite (bidx_in_range _ _ Hidx). reflexivity.
  - rewrite (binop_chan Rplus x _ nb nc nh nw Hx Hb). cbn [bind].
    rewrite (binop_chan Rmult _ _ nb nc nh nw) by (try reflexivity; exact Hl).
    cbn [bind]. unfold size. cbn [shape nth_error bind].
    rewrite binop_scalar by reflexivity. cbn [bind].
    do 2 eexists. split; [reflexivity|]. split; [reflexivity|].
    intros idx Hidx. cbn [get shape tmap].
    rewrite (bidx_in_range _ _ Hidx). reflexivity.
Qed.

Lemma exp_cancel (v l : R) : v * exp l * exp (l * -1) = v.
Proof.
  replace (l * -1) with (- l) by lra.
  rewrite Rmult_assoc, <- exp_plus, Rplus_opp_r, exp_0. lra.
Qed.

(** With the parameters as they are, the reverse transformation of a layer
    undoes its forward transformation, on the batch and on the
    accumulator. *)
Lemma ActNorm_transform_roundtrip (a : ActNorm) (x : rtensor)
  (l : option rtensor) (nb nc nh nw : nat) :
  per_channel a nc ->
  shape x = [nb; nc; nh; nw] ->
  exists y l1,
    ActNorm_transform a x l false = Ok (y, l1) /\
    shape y = [nb; nc; nh; nw] /\
    acc_shape l1 = acc_shape l /\
    forall y' l1',
      teq y' y -> acc_eq l1' l1 ->
      exists x' l',
        ActNorm_transform a y' l1' true = Ok (x', l') /\
        teq x' x /\ acc_eq l' l.
Proof.
  intros Hp Hx.
  destruct (ActNorm_transform_ok a x l false nb nc nh nw Hp Hx)
    as (y & l1 & Ef & Sy & Ln & Ls & Gy).
  exists y, l1. split; [exact Ef|]. split; [exact Sy|]. split.
  { destruct l as [s|].
    - destruct (Ls s eq_refl) as (s' & -> & S'). cbn. rewrite S'. reflexivity.
    - rewrite (Ln eq_refl). reflexivity. }
  intros y' l1' [Sy' Gy'] Hacc.
  assert (Hy' : shape y' = [nb; nc; nh; nw]) by congruence.
  destruct (ActNorm_transform_ok a y' l1' true nb nc nh nw Hp Hy')
    as (x' & l' & Er & Sx' & Ln' & Ls' & Gx').
  exists x', l'. split; [exact Er|]. split.
  - split; [congruence|]. rewrite Sx'. intros idx Hidx.
    destruct (in_range4_inv _ _ _ _ _ Hidx)
      as (i0 & i1 & i2 & i3 & -> & L0 & L1 & L2 & L3).
    rewrite (Gx' i0 i1 i2 i3 L0 L1 L2 L3).
    rewrite Gy' by (rewrite Hy'; apply in_range4; assumption).
    rewrite (Gy i0 i1 i2 i3 L0 L1 L2 L3).
    rewrite exp_cancel. lra.
  - destruct l as [s|].
    + destruct (ActNorm_transform_acc a x s false nb nc nh nw Hp Hx)
        as (y0 & s1 & Ef0 & Ss1 & Gs1).
      rewrite Ef in Ef0. inversion Ef0; subst y0 l1; clear Ef0.
      destruct l1' as [s1'|]; [|contradiction]. cbn in Hacc.
      destruct Hacc as [Sa Ga].
      destruct (ActNorm_transform_acc a y' s1' true nb nc nh nw Hp Hy')
        as (x0 & s2 & Er0 & Ss2 & Gs2).
      rewrite Er in Er0. inversion Er0; subst x0 l'; clear Er0.
      cbn. split; [congruence|]. rewrite Ss2. intros idx Hidx.
      rewrite (Gs2 idx Hidx), (Ga idx Hidx).
      rewrite Gs1 by (rewrite <- Ss1, <- Sa; exact Hidx). lra.
    + rewrite (Ln eq_refl) in Hacc. destruct l1' as [s1'|]; [contradiction|].
      rewrite (Ln' eq_refl). exact I.
Qed.

End ActNormRoundTrip.

Lemma norm_call_pair_roundtrip (a : ActNorm) (x : rtensor)
  (l : option rtensor) (nb nc nh nw : nat) :
  per_channel a nc -> an_return_ldj a = true ->
  shape x = [nb; nc; nh; nw] ->
  exists y l1 a',
    norm_call_pair a x l false = Ok (y, l1, a') /\
    shape y = [nb; nc; nh; nw] /\
    acc_shape l1 = acc_shape l /\
    per_channel a' nc /\ an_return_ldj a' = true /\
    forall y' l1',
      teq y' y -> acc_eq l1' l1 ->
      exists x' l',
        norm_call_pair a' y' l1' true = Ok (x', l', a') /\
        teq x' x /\ acc_eq l' l.
Proof.
  intros Hp Hr Hx.
  destruct (ActNorm_forward_settles a x nb nc nh nw Hp Hx)
    as (a' & Hp' & Hs' & Hr' & Hf).
  destruct (ActNorm_transform_roundtrip a' x l nb nc nh nw Hp' Hx)
    as (y & l1 & Ef & Sy & Al & Back).
  exists y, l1, a'. unfold norm_call_pair at 1. rewrite Hf, Ef. cbn [bind].
  rewrite Hr. split; [reflexivity|]. split; [exact Sy|]. split; [exact Al|].
  split; [exact Hp'|]. split; [congruence|].
  intros y' l1' Ty Tl. destruct (Back y' l1' Ty Tl) as (x' & l' & Er & Tx & Tl').
  exists x', l'. unfold norm_call_pair.
  rewrite (ActNorm_forward_settled a' y' l1' true Hs'), Er. cbn [bind].
  replace (an_return_ldj a') with true by congruence.
  split; [reflexivity|]. split; assumption.
Qed.

(** *** [InvConv] *)

Section InvConvRoundTrip.
Local Open Scope R_scope.

Lemma Rsum_plus (n : nat) (f g : nat -> R) :
  Rsum n (fun k => f k + g k) = Rsum n f + Rsum n g.
Proof.
  induction n as [|n IH]; cbn; [lra|]. rewrite IH. lra.
Qed.

Lemma Rsum_mult_l (n : nat) (c : R) (f : nat -> R) :
  Rsum n (fun k => c * f k) = c * Rsum n f.
Proof.
  induction n as [|n IH]; cbn; [lra|]. rewrite IH. lra.
Qed.

Lemma Rsum_swap (n m : nat) (f : nat -> nat -> R) :
  Rsum n (fun i => Rsum m (fun j => f i j))
  = Rsum m (fun j => Rsum n (fun i => f i j)).
Proof.
  induction n as [|n IH]; cbn [Rsum].
  - symmetry. apply Rsum_zero. reflexivity.
  - rewrite IH, <- Rsum_plus. reflexivity.
Qed.

Lemma Rsum_delta (n o : nat) (f : nat -> R) :
  (o < n)%nat ->
  Rsum n (fun d => (if (o =? d)%nat then 1 else 0) * f d) = f o.
Proof.
  induction n as [|n IH]; intros Ho; [lia|]. cbn [Rsum].
  destruct (Nat.eq_dec o n) as [->|N].
  - rewrite Nat.eqb_refl. rewrite Rsum_zero; [lra|].
    intros k Hk. replace (n =? k)%nat with false
      by (symmetry; apply Nat.eqb_neq; lia). lra.
  - replace (o =? n)%nat with false by (symmetry; apply Nat.eqb_neq; lia).
    rewrite IH by lia. lra.
Qed.

(** The convolution by a [c] x [c] matrix viewed as a 1 x 1 kernel mixes
    the channels of every pixel. *)
Lemma conv2d_matrix (x wt : rtensor) (b c h w : nat) :
  shape x = [b; c; h; w] -> shape wt = [c; c] ->
  (0 < h)%nat -> (0 < w)%nat ->
  exists z,
    (kernel <- view wt [c; c; 1; 1]%nat;; conv2d x kernel None 0) = Ok z /\
    shape z = [b; c; h; w] /\
    forall n o i j,
      (n < b)%nat -> (o < c)%nat -> (i < h)%nat -> (j < w)%nat ->
      get z [n; o; i; j] = Rsum c (fun k => get wt [o; k] * get x [n; k; i; j]).
Proof.
  intros Hx Hw Ph Pw.
  rewrite view_ok by (rewrite Hw; cbn [numel]; lia).
  cbn [bind].
  set (kernel := mkT [c; c; 1; 1]%nat
                   (fun idx => get wt (unravel (shape wt)
                                         (ravel [c; c; 1; 1]%nat idx)))).
  destruct (conv2d_ok x kernel None 0 b c h w c 1 1 Hx eq_refl)
    as (z & Ez & Sz & Gz); try lia; try discriminate.
  exists z. split; [exact Ez|]. split.
  { rewrite Sz. repeat f_equal; lia. }
  intros n o i j Ln Lo Li Lj. rewrite Gz. rewrite Rplus_0_r.
  apply Rsum_ext. intros k Lk. cbn [Rsum].
  rewrite !Rplus_0_l. f_equal.
  - unfold kernel. cbn [get]. rewrite Hw.
    replace (ravel [c; c; 1; 1]%nat [o; k; 0; 0]%nat)
      with (ravel [c; c] [o; k]) by (cbn [ravel numel]; lia).
    rewrite unravel_ravel by (repeat constructor; assumption). reflexivity.
  - unfold padded.
    replace ((0 <=? i + 0) && (i + 0 <? h + 0)
             && (0 <=? j + 0) && (j + 0 <? w + 0))%nat with true.
    + repeat f_equal; lia.
    + symmetry. rewrite !andb_true_iff.
      repeat split; try (apply Nat.leb_le; lia); apply Nat.ltb_lt; lia.
Qed.

Lemma InvConv_sldj_value (ic : InvConv) (x : rtensor) (l : option rtensor)
  (reverse : bool) (b c h w : nat) :
  shape x = [b; c; h; w] ->
  exists l1,
    InvConv_sldj ic x l reverse = Ok l1 /\
    acc_shape l1 = acc_shape l /\
    forall s, l = Some s ->
      exists s1, l1 = Some s1 /\ shape s1 = shape s /\
        forall idx, in_range idx (shape s) ->
          get s1 idx
          = if reverse
            then get s idx - logabsdet (ic_weight ic) * INR h * INR w
            else get s idx + logabsdet (ic_weight ic) * INR h * INR w.
Proof.
  intros Hx. unfold InvConv_sldj, size. destruct l as [s|].
  - rewrite Hx. cbn [nth_error bind]. unfold tadd, tsub.
    destruct reverse; rewrite binop_scalar by reflexivity; cbn [bind];
      (eexists; split; [reflexivity|]; split; [reflexivity|];
       intros s0 E; inversion E; subst s0;
       eexists; split; [reflexivity|]; split; [reflexivity|];
       intros idx Hidx; cbn [get InvConv_ldj scalar];
       rewrite (bidx_in_range _ _ Hidx); reflexivity).
  - exists None. split; [reflexivity|]. split; [reflexivity|]. discriminate.
Qed.

Lemma InvConv_roundtrip (ic : InvConv) (x : rtensor) (l : option rtensor)
  (b c h w : nat) :
  ic_num_channels ic = c -> shape (ic_weight ic) = [c; c] ->
  InvConv_invertible ic ->
  shape x = [b; c; h; w] -> (0 < h)%nat -> (0 < w)%nat ->
  exists z l1,
    InvConv_forward ic x l false = Ok (z, l1) /\
    shape z = [b; c; h; w] /\
    acc_shape l1 = acc_shape l /\
    forall z' l1',
      teq z' z -> acc_eq l1' l1 ->
      exists x' l',
        InvConv_forward ic z' l1' true = Ok (x', l') /\
        teq x' x /\ acc_eq l' l.
Proof.
  intros Hc Hw (w' & Ei & Sw' & Hinv) Hx Ph Pw. rewrite Hc in *.
  unfold InvConv_forward.
  destruct (InvConv_sldj_value ic x l false b c h w Hx) as (l1 & E1 & A1 & V1).
  rewrite E1. cbn [bind]. rewrite Hc.
  destruct (conv2d_matrix x (ic_weight ic) b c h w Hx Hw Ph Pw)
    as (z & Ez & Sz & Gz).
  cbn [bind] in Ez.
  destruct (view (ic_weight ic) [c; c; 1%nat; 1%nat]) as [kernel|e] eqn:Ek;
    cbn [bind] in Ez |- *; [|discriminate].
  rewrite Ez. cbn [bind]. exists z, l1.
  split; [reflexivity|]. split; [exact Sz|]. split; [exact A1|].
  intros z' l1' [Sz' Gz'] Hacc.
  assert (Hz' : shape z' = [b; c; h; w]) by congruence.
  destruct (InvConv_sldj_value ic z' l1' true b c h w Hz') as (l' & E2 & A2 & V2).
  rewrite E2. cbn [bind]. rewrite Ei. cbn [bind].
  destruct (conv2d_matrix z' w' b c h w Hz' Sw' Ph Pw) as (x' & Ex & Sx & Gx).
  cbn [bind] in Ex.
  destruct (view w' [c; c; 1%nat; 1%nat]) as [kernel'|e] eqn:Ek';
    cbn [bind] in Ex |- *; [|discriminate].
  rewrite Ex. cbn [bind]. exists x', l'. split; [reflexivity|]. split.
  - split; [congruence|]. rewrite Sx. intros idx Hidx.
    destruct (in_range4_inv _ _ _ _ _ Hidx)
      as (n & o & i & j & -> & Ln & Lo & Li & Lj).
    rewrite (Gx n o i j Ln Lo Li Lj).
    rewrite (Rsum_ext c _
               (fun k => Rsum c (fun d => get w' [o; k] * get (ic_weight ic) [k; d]
                                          * get x [n; d; i; j]))).
    2:{ intros k Lk. rewrite Gz' by (rewrite Hz'; apply in_range4; assumption).
        rewrite (Gz n k i j Ln Lk Li Lj), <- Rsum_mult_l.
        apply Rsum_ext. intros d _. lra. }
    rewrite Rsum_swap.
    rewrite (Rsum_ext c _
               (fun d => (if (o =? d)%nat then 1 else 0) * get x [n; d; i; j])).
    2:{ intros d Ld. rewrite Rsum_scale. rewrite (Hinv o d Lo Ld). reflexivity. }
    apply Rsum_delta. exact Lo.
  - destruct l as [s|].
    + destruct (V1 s eq_refl) as (s1 & -> & Ss1 & Gs1).
      destruct l1' as [s1'|]; [|contradiction]. destruct Hacc as [Sa Ga].
      destruct (V2 s1' eq_refl) as (s2 & -> & Ss2 & Gs2).
      cbn. split; [congruence|]. rewrite Ss2. intros idx Hidx.
      rewrite (Gs2 idx Hidx), (Ga idx Hidx).
      rewrite Gs1 by (rewrite <- Ss1, <- Sa; exact Hidx). lra.
    + destruct l1 as [s1|]; [discriminate A1|].
      destruct l1' as [s1'|]; [contradiction|].
      destruct l' as [s'|]; [discriminate A2|]. exact I.
Qed.

End InvConvRoundTrip.

(** *** The conditioner gives the same output on equal inputs *)

Section ConditionerFacts.
Local Open Scope R_scope.

Lemma padded_teq (x x' : rtensor) (p b cin h w n c u v : nat) :
  teq x' x -> shape x = [b; cin; h; w] ->
  (n < b)%nat -> (c < cin)%nat ->
  padded x' p h w n c u v = padded x p h w n c u v.
Proof.
  intros [S G] Hx Ln Lc. unfold padded.
  destruct ((p <=? u) && (u <? h + p) && (p <=? v) && (v <? w + p))%nat eqn:E;
    [|reflexivity].
  rewrite !andb_true_iff in E. destruct E as [[[E1 E2] E3] E4].
  apply Nat.leb_le in E1, E3. apply Nat.ltb_lt in E2, E4.
  apply G. rewrite S, Hx. apply in_range4; lia.
Qed.

Lemma conv2d_teq (x x' wt : rtensor) (bias : option rtensor) (pad : nat)
  (y : rtensor) :
  teq x' x -> conv2d x wt bias pad = Ok y ->
  exists y', conv2d x' wt bias pad = Ok y' /\ teq y' y.
Proof.
  intros T E. pose proof T as [S G]. unfold conv2d in *. rewrite S.
  destruct (shape x) as [|b [|cin [|h [|w [|? ?]]]]] eqn:Hx; try discriminate.
  destruct (shape wt) as [|cout [|cin' [|kh [|kw [|? ?]]]]]; try discriminate.
  destruct ((cin =? cin') && (kh <=? h + 2 * pad) && (kw <=? w + 2 * pad)
            && match bias with
               | Some bs => shape_eqb (shape bs) [cout]
               | None => true
               end)%nat; [|discriminate].
  inversion E; subst y; clear E. eexists. split; [reflexivity|].
  split; [reflexivity|]. cbn [shape get]. intros idx Hidx.
  destruct (in_range4_inv _ _ _ _ _ Hidx)
    as (n & o & i & j & -> & Ln & Lo & Li & Lj).
  f_equal. apply Rsum_ext. intros c Lc.
  apply Rsum_ext. intros di _. apply Rsum_ext. intros dj _. f_equal.
  apply (padded_teq x x' pad b cin h w); assumption.
Qed.

Lemma relu_teq (x x' : rtensor) : teq x' x -> teq (relu x') (relu x).
Proof.
  intros [S G]. split; [exact S|]. cbn [relu tmap shape get].
  intros idx Hidx. rewrite (G idx Hidx). reflexivity.
Qed.

Lemma ActNorm_transform_teq (a : ActNorm) (x x' : rtensor) (nb nc nh nw : nat) :
  per_channel a nc -> shape x = [nb; nc; nh; nw] -> teq x' x ->
  exists y y',
    ActNorm_transform a x None false = Ok (y, None) /\
    ActNorm_transform a x' None false = Ok (y', None) /\
    shape y = [nb; nc; nh; nw] /\ teq y' y.
Proof.
  intros Hp Hx [S G].
  assert (Hx' : shape x' = [nb; nc; nh; nw]) by congruence.
  destruct (ActNorm_transform_ok a x None false nb nc nh nw Hp Hx)
    as (y & l & E & Sy & Ln & _ & Gy).
  destruct (ActNorm_transform_ok a x' None false nb nc nh nw Hp Hx')
    as (y' & l' & E' & Sy' & Ln' & _ & Gy').
  rewrite (Ln eq_refl) in E. rewrite (Ln' eq_refl) in E'.
  exists y, y'. split; [exact E|]. split; [exact E'|]. split; [exact Sy|].
  split; [congruence|]. rewrite Sy'. intros idx Hidx.
  destruct (in_range4_inv _ _ _ _ _ Hidx)
    as (i0 & i1 & i2 & i3 & -> & L0 & L1 & L2 & L3).
  rewrite Gy', Gy by assumption.
  rewrite G by (rewrite Hx'; apply in_range4; assumption). reflexivity.
Qed.

End ConditionerFacts.

Lemma norm_fn_call_settles (n : norm_fn) (x : rtensor) (nb nc nh nw : nat) :
  norm_ok n nc ->
  shape x = [nb; nc; nh; nw] ->
  exists y n',
    norm_fn_call n x = Ok (y, n') /\ shape y = [nb; nc; nh; nw] /\
    norm_ok n' nc /\ norm_settled n' /\
    forall x', teq x' x ->
      exists y', norm_fn_call n' x' = Ok (y', n') /\ teq y' y.
Proof.
  intros Hn Hx. destruct n as [a|bn]; [|contradiction].
  destruct Hn as [Hp Hr].
  destruct (ActNorm_forward_settles a x nb nc nh nw Hp Hx)
    as (a' & Hp' & Hs' & Hr' & Hf).
  destruct (ActNorm_transform_teq a' x x nb nc nh nw Hp' Hx (teq_refl _ x))
    as (y & _ & E & _ & Sy & _).
  exists y, (NormAct a'). unfold norm_fn_call at 1.
  rewrite Hf, E. cbn [bind]. rewrite Hr.
  split; [reflexivity|]. split; [exact Sy|].
  split; [split; [exact Hp'|congruence]|]. split; [exact Hs'|].
  intros x' T.
  destruct (ActNorm_transform_teq a' x x' nb nc nh nw Hp' Hx T)
    as (y0 & y' & E0 & E' & _ & Ty).
  rewrite E in E0. inversion E0; subst y0.
  exists y'. unfold norm_fn_call.
  rewrite (ActNorm_forward_settled a' x' None false Hs'), E'. cbn [bind].
  replace (an_return_ldj a') with false by congruence.
  split; [reflexivity|exact Ty].
Qed.

(** After a call, the conditioner is settled, and on any input equal to
    that of the call it returns an output equal to that of the call. *)
Lemma NN_forward_settles (net : NN) (x : rtensor) (b cin mid cout h w : nat) :
  NN_shapes net cin mid cout ->
  shape x = [b; cin; h; w] ->
  0 < h -> 0 < w ->
  exists st net',
    NN_forward net x = Ok (st, net') /\ shape st = [b; cout; h; w] /\
    NN_shapes net' cin mid cout /\ NN_settled net' /\
    forall x', teq x' x ->
      exists st', NN_forward net' x' = Ok (st', net') /\ teq st' st.
Proof.
  intros (N1 & K1 & K2 & N2 & K3 & N3 & K4 & K5) Hx Ph Pw.
  unfold NN_forward at 1.
  destruct (norm_fn_call_settles _ x b cin h w N1 Hx)
    as (x1 & n1 & E1 & S1 & N1' & T1 & B1).
  rewrite E1. cbn [bind].
  destruct (conv2d_3x3 x1 (nn_in_conv net) None b cin h w mid S1 K1 Ph Pw)
    as (x2 & E2 & S2 & _); [discriminate|].
  rewrite E2. cbn [bind].
  destruct (conv2d_3x3 (relu x2) (nn_mid_conv1 net) None b mid h w mid S2 K2 Ph Pw)
    as (x3 & E3 & S3 & _); [discriminate|].
  rewrite E3. cbn [bind].
  destruct (norm_fn_call_settles _ x3 b mid h w N2 S3)
    as (x4 & n2 & E4 & S4 & N2' & T2 & B2).
  rewrite E4. cbn [bind].
  destruct (conv2d_1x1 (relu x4) (nn_mid_conv2 net) b mid h w mid S4 K3 Ph Pw)
    as (x5 & E5 & S5).
  rewrite E5. cbn [bind].
  destruct (norm_fn_call_settles _ x5 b mid h w N3 S5)
    as (x6 & n3 & E6 & S6 & N3' & T3 & B3).
  rewrite E6. cbn [bind].
  destruct (conv2d_3x3 (relu x6) (nn_out_conv_weight net)
              (Some (nn_out_conv_bias net)) b mid h w cout S6 K4 Ph Pw)
    as (x7 & E7 & S7 & _).
  { intros bs E. inversion E; subst. exact K5. }
  rewrite E7. cbn [bind].
  do 2 eexists. split; [reflexivity|]. split; [exact S7|].
  split; [repeat split; assumption|].
  split; [repeat split; assumption|].
  intros x' T. unfold NN_forward.
  cbn [nn_in_norm nn_in_conv nn_mid_conv1 nn_mid_norm nn_mid_conv2
       nn_out_norm nn_out_conv_weight nn_out_conv_bias].
  destruct (B1 x' T) as (x1' & E1' & T1').
  rewrite E1'. cbn [bind].
  destruct (conv2d_teq x1 x1' _ _ _ x2 T1' E2) as (x2' & E2' & T2').
  rewrite E2'. cbn [bind].
  destruct (conv2d_teq (relu x2) (relu x2') _ _ _ x3 (relu_teq _ _ T2') E3)
    as (x3' & E3' & T3').
  rewrite E3'. cbn [bind].
  destruct (B2 x3' T3') as (x4' & E4' & T4').
  rewrite E4'. cbn [bind].
  destruct (conv2d_teq (relu x4) (relu x4') _ _ _ x5 (relu_teq _ _ T4') E5)
    as (x5' & E5' & T5').
  rewrite E5'. cbn [bind].
  destruct (B3 x5' T5') as (x6' & E6' & T6').
  rewrite E6'. cbn [bind].
  destruct (conv2d_teq (relu x6) (relu x6') _ _ _ x7 (relu_teq _ _ T6') E7)
    as (x7' & E7' & T7').
  rewrite E7'. cbn [bind].
  exists x7'. split; [reflexivity|exact T7'].
Qed.

(** *** [Coupling] *)

Section CouplingRoundTrip.
Local Open Scope R_scope.

(** The value that the coupling layer adds to or takes from the
    accumulator. *)
Lemma Coupling_ldj_value (s : rtensor) (ldj : option rtensor) (reverse : bool)
  (b k h w : nat) :
  shape s = [b; k; h; w] ->
  acc_per_batch ldj b ->
  exists ldj',
    Coupling_ldj s ldj reverse = Ok ldj' /\
    acc_shape ldj' = acc_shape ldj /\
    match ldj, ldj' with
    | Some l, Some l' =>
        forall i, (i < b)%nat ->
          get l' [i]
          = (if reverse then Rminus else Rplus) (get l [i])
              (Rsum (numel [k; h; w])
                 (fun j => get s (i :: unravel [k; h; w] j)))
    | None, None => True
    | _, _ => False
    end.
Proof.
  intros Hs Hl. unfold Coupling_ldj. destruct ldj as [l|].
  - unfold flatten1. rewrite Hs. cbn [bind].
    unfold sum_last. cbn [shape rev app removelast bind].
    assert (Sl : shape l = [b]) by (apply Hl; reflexivity).
    assert (Ei : forall i, (i < b)%nat -> bidx [b] [i] = [i]).
    { intros i Hi. apply bidx_in_range. repeat constructor. exact Hi. }
    destruct reverse; unfold tsub, tadd.
    + rewrite (binop_same Rminus l _ [b] Sl) by reflexivity.
      cbn [bind]. eexists. split; [reflexivity|].
      split; [cbn [acc_shape option_map shape]; congruence|].
      intros i Hi. cbn [get]. rewrite (Ei i Hi). reflexivity.
    + rewrite (binop_same Rplus l _ [b] Sl) by reflexivity.
      cbn [bind]. eexists. split; [reflexivity|].
      split; [cbn [acc_shape option_map shape]; congruence|].
      intros i Hi. cbn [get]. rewrite (Ei i Hi). reflexivity.
  - exists None. split; [reflexivity|]. split; [reflexivity|exact I].
Qed.

(** What the layer returns in either direction, in terms of the output
    [st] of the conditioner on the unchanged half: the scale is
    [scale * tanh] of the even channels of [st], the translation its odd
    channels. *)
Lemma Coupling_forward_value (cp : Coupling) (x : rtensor) (ldj : option rtensor)
  (reverse : bool) (k b h w : nat) (st : rtensor) (net' : NN) :
  shape (cp_scale cp) = [k; 1; 1]%nat ->
  shape x = [b; (2 * k)%nat; h; w] ->
  NN_forward (cp_nn cp) (narrow x 1 k k) = Ok (st, net') ->
  shape st = [b; (2 * k)%nat; h; w] ->
  acc_per_batch ldj b ->
  exists y ldj' s,
    Coupling_forward cp x ldj reverse
    = Ok (y, ldj', {| cp_nn := net'; cp_scale := cp_scale cp |}) /\
    shape y = [b; (2 * k)%nat; h; w] /\
    shape s = [b; k; h; w] /\
    (forall n c i j, (n < b)%nat -> (c < k)%nat -> (i < h)%nat -> (j < w)%nat ->
       get s [n; c; i; j]
       = get (cp_scale cp) [c; 0; 0]%nat * tanh (get st [n; (0 + c * 2)%nat; i; j])) /\
    (forall n c i j, (n < b)%nat -> (c < k)%nat -> (i < h)%nat -> (j < w)%nat ->
       get y [n; c; i; j]
       = if reverse
         then get x [n; c; i; j] * exp (get s [n; c; i; j] * -1)
              - get st [n; (1 + c * 2)%nat; i; j]
         else (get x [n; c; i; j] + get st [n; (1 + c * 2)%nat; i; j])
              * exp (get s [n; c; i; j])) /\
    (forall n c i j, (k <= c)%nat ->
       get y [n; c; i; j] = get x [n; c; i; j]) /\
    acc_shape ldj' = acc_shape ldj /\
    match ldj, ldj' with
    | Some l, Some l' =>
        forall i, (i < b)%nat ->
          get l' [i]
          = (if reverse then Rminus else Rplus) (get l [i])
              (Rsum (numel [k; h; w])
                 (fun j => get s (i :: unravel [k; h; w] j)))
    | None, None => True
    | _, _ => False
    end.
Proof.
  intros Hsc Hx En Sst Hl. unfold Coupling_forward.
  rewrite (chunk_even R x b k h w Hx). cbn [bind]. rewrite En. cbn [bind].
  assert (Sid : shape (narrow x 1 k k) = [b; k; h; w]).
  { unfold narrow. cbn [shape]. rewrite Hx. reflexivity. }
  assert (Sch : shape (narrow x 1 0 k) = [b; k; h; w]).
  { unfold narrow. cbn [shape]. rewrite Hx. reflexivity. }
  destruct (slice_step_even st b k h w Sst) as (s & t & Es & Et & Ss & St & Gs & Gt).
  rewrite Es, Et. cbn [bind]. unfold tmul, tadd, tsub.
  rewrite (binop_chan3 Rmult (cp_scale cp) (tmap tanh s) b k h w Hsc)
    by (cbn [shape tmap]; exact Ss).
  cbn [bind].
  set (s' := mkT [b; k; h; w]
               (fun idx => get (cp_scale cp) (bidx [k; 1; 1]%nat idx)
                           * get (tmap tanh s) (bidx [b; k; h; w] idx))).
  assert (Gs' : forall n c i j,
             (n < b)%nat -> (c < k)%nat -> (i < h)%nat -> (j < w)%nat ->
             get s' [n; c; i; j]
             = get (cp_scale cp) [c; 0; 0]%nat
               * tanh (get st [n; (0 + c * 2)%nat; i; j])).
  { intros n c i j Ln Lc Li Lj. unfold s'. cbn [get].
    rewrite (bidx_chan3 k n c i j Lc).
    rewrite (bidx_in_range _ _ (in_range4 _ _ _ _ _ _ _ _ Ln Lc Li Lj)).
    cbn [tmap get]. rewrite Gs. reflexivity. }
  destruct (Coupling_ldj_value s' ldj reverse b k h w eq_refl Hl)
    as (ldj' & El & Sl & Vl).
  assert (K2 : (k + k = 2 * k)%nat) by lia.
  destruct reverse.
  - rewrite (binop_same Rmult (narrow x 1 0 k)
               (tmap exp (tmap (fun r => r * -1) s')) [b; k; h; w] Sch)
      by reflexivity.
    cbn [bind].
    rewrite (binop_same Rminus _ t [b; k; h; w]) by (try reflexivity; exact St).
    cbn [bind]. rewrite El. cbn [bind].
    rewrite (cat_channels R _ (narrow x 1 k k) b k k h w)
      by (try reflexivity; exact Sid).
    cbn [bind]. exists (mkT [b; (k + k)%nat; h; w]
      (fun idx => if (nth 1 idx 0 <? k)%nat
                  then get (mkT [b; k; h; w]
                         (fun idx0 => get (mkT [b; k; h; w]
                            (fun idx1 => get (narrow x 1 0 k) (bidx [b; k; h; w] idx1)
                                         * get (tmap exp (tmap (fun r => r * -1) s'))
                                             (bidx [b; k; h; w] idx1)))
                                        (bidx [b; k; h; w] idx0)
                                      - get t (bidx [b; k; h; w] idx0))) idx
                  else get (narrow x 1 k k) (sub_nth 1 k idx))), ldj', s'.
    split; [reflexivity|]. split; [cbn [shape]; rewrite K2; reflexivity|].
    split; [reflexivity|]. split; [exact Gs'|]. split; [|split; [|split]].
    + intros n c i j Ln Lc Li Lj. cbn [get nth].
      replace (c <? k)%nat with true by (symmetry; apply Nat.ltb_lt; exact Lc).
      rewrite !(bidx_in_range _ _ (in_range4 _ _ _ _ _ _ _ _ Ln Lc Li Lj)).
      cbn [get tmap]. rewrite Gt.
      unfold narrow. cbn [get add_nth]. rewrite Nat.add_0_r. reflexivity.
    + intros n c i j Lc. cbn [get nth].
      replace (c <? k)%nat with false by (symmetry; apply Nat.ltb_ge; exact Lc).
      unfold narrow. cbn [get sub_nth add_nth].
      replace (c - k + k)%nat with c by lia. reflexivity.
    + exact Sl.
    + exact Vl.
  - rewrite (binop_same Rplus (narrow x 1 0 k) t [b; k; h; w] Sch St).
    cbn [bind].
    rewrite (binop_same Rmult _ (tmap exp s') [b; k; h; w]) by reflexivity.
    cbn [bind]. rewrite El. cbn [bind].
    rewrite (cat_channels R _ (narrow x 1 k k) b k k h w)
      by (try reflexivity; exact Sid).
    cbn [bind]. exists (mkT [b; (k + k)%nat; h; w]
      (fun idx => if (nth 1 idx 0 <? k)%nat
                  then get (mkT [b; k; h; w]
                         (fun idx0 => get (mkT [b; k; h; w]
                            (fun idx1 => get (narrow x 1 0 k) (bidx [b; k; h; w] idx1)
                                         + get t (bidx [b; k; h; w] idx1)))
                                        (bidx [b; k; h; w] idx0)
                                      * get (tmap exp s') (bidx [b; k; h; w] idx0))) idx
                  else get (narrow x 1 k k) (sub_nth 1 k idx))), ldj', s'.
    split; [reflexivity|]. split; [cbn [shape]; rewrite K2; reflexivity|].
    split; [reflexivity|]. split; [exact Gs'|]. split; [|split; [|split]].
    + intros n c i j Ln Lc Li Lj. cbn [get nth].
      replace (c <? k)%nat with true by (symmetry; apply Nat.ltb_lt; exact Lc).
      rewrite !(bidx_in_range _ _ (in_range4 _ _ _ _ _ _ _ _ Ln Lc Li Lj)).
      cbn [get tmap]. rewrite Gt.
      unfold narrow. cbn [get add_nth]. rewrite Nat.add_0_r. reflexivity.
    + intros n c i j Lc. cbn [get nth].
      replace (c <? k)%nat with false by (symmetry; apply Nat.ltb_ge; exact Lc).
      unfold narrow. cbn [get sub_nth add_nth].
      replace (c - k + k)%nat with c by lia. reflexivity.
    + exact Sl.
    + exact Vl.
Qed.

(** The reverse direction of the layer undoes its forward direction: the
    unchanged half gives the conditioner the same input in both directions,
    hence the same scale and translation. *)
Lemma Coupling_roundtrip (cp : Coupling) (x : rtensor) (l : option rtensor)
  (k mid b h w : nat) :
  Coupling_shapes cp k mid ->
  shape x = [b; (2 * k)%nat; h; w] ->
  (0 < h)%nat -> (0 < w)%nat ->
  acc_per_batch l b ->
  exists y l1 cp',
    Coupling_forward cp x l false = Ok (y, l1, cp') /\
    shape y = [b; (2 * k)%nat; h; w] /\
    acc_shape l1 = acc_shape l /\
    Coupling_shapes cp' k mid /\
    forall y' l1', teq y' y -> acc_eq l1' l1 ->
      exists x' l',
        Coupling_forward cp' y' l1' true = Ok (x', l', cp') /\
        teq x' x /\ acc_eq l' l.
Proof.
  intros [Hn Hsc] Hx Ph Pw Hl.
  assert (Sid : shape (narrow x 1 k k) = [b; k; h; w]).
  { unfold narrow. cbn [shape]. rewrite Hx. reflexivity. }
  destruct (NN_forward_settles (cp_nn cp) (narrow x 1 k k) b k mid (2 * k) h w
              Hn Sid Ph Pw) as (st & net' & En & Sst & Hn' & _ & B).
  destruct (Coupling_forward_value cp x l false k b h w st net' Hsc Hx En Sst Hl)
    as (y & l1 & s & E & Sy & Ss & Gs & Gy & Gid & Sl & Vl).
  exists y, l1, {| cp_nn := net'; cp_scale := cp_scale cp |}.
  split; [exact E|]. split; [exact Sy|]. split; [exact Sl|].
  split; [split; [exact Hn'|exact Hsc]|].
  intros y' l1' [Sy' Ty] Tl.
  assert (Hy' : shape y' = [b; (2 * k)%nat; h; w]) by congruence.
  rewrite Hy' in Ty.
  assert (Tid : teq (narrow y' 1 k k) (narrow x 1 k k)).
  { split; [unfold narrow; cbn [shape]; rewrite Hy', Hx; reflexivity|].
    unfold narrow at 1. cbn [shape]. rewrite Hy'. cbn [set_nth].
    intros idx Hidx.
    destruct (in_range4_inv _ _ _ _ _ Hidx)
      as (n & c & i & j & -> & Ln & Lc & Li & Lj).
    unfold narrow. cbn [get add_nth].
    rewrite Ty by (apply in_range4; lia).
    apply Gid. lia. }
  destruct (B _ Tid) as (st' & En' & [Sst' Tst]).
  assert (Hst' : shape st' = [b; (2 * k)%nat; h; w]) by congruence.
  rewrite Hst' in Tst.
  assert (Hl1 : acc_per_batch l1 b)
    by (apply (acc_per_batch_same l l1 b Sl Hl)).
  assert (Hl1' : acc_per_batch l1' b)
    by (apply (acc_per_batch_same l1 l1' b (acc_eq_shape _ _ Tl) Hl1)).
  destruct (Coupling_forward_value {| cp_nn := net'; cp_scale := cp_scale cp |}
              y' l1' true k b h w st' net' Hsc Hy' En' Hst' Hl1')
    as (x' & l' & s' & E' & Sx' & Ss' & Gs' & Gx' & Gid' & Sl' & Vl').
  cbn [cp_scale] in E', Gs'.
  assert (Es : forall n c i j,
             (n < b)%nat -> (c < k)%nat -> (i < h)%nat -> (j < w)%nat ->
             get s' [n; c; i; j] = get s [n; c; i; j]).
  { intros n c i j Ln Lc Li Lj. rewrite Gs', Gs by assumption.
    rewrite Tst by (apply in_range4; lia). reflexivity. }
  exists x', l'. split; [exact E'|]. split.
  - split; [congruence|]. rewrite Sx'. intros idx Hidx.
    destruct (in_range4_inv _ _ _ _ _ Hidx)
      as (n & c & i & j & -> & Ln & Lc & Li & Lj).
    destruct (Nat.lt_ge_cases c k) as [Lk|Lk].
    + rewrite Gx' by assumption. rewrite Es by assumption.
      rewrite Ty by (apply in_range4; assumption).
      rewrite Gy by assumption.
      rewrite Tst by (apply in_range4; lia).
      rewrite exp_cancel. lra.
    + rewrite Gid' by exact Lk.
      rewrite Ty by (apply in_range4; assumption).
      apply Gid. exact Lk.
  - destruct l as [t|], l1 as [t1|]; try contradiction;
      destruct l1' as [t1'|]; try contradiction;
      destruct l' as [t'|]; try contradiction; [|exact I].
    cbn [acc_eq] in *. destruct Tl as [St1 Tt1].
    assert (Ht : shape t = [b]) by (apply Hl; reflexivity).
    cbn [acc_shape option_map] in Sl, Sl'.
    assert (Ht1 : shape t1 = [b]) by congruence.
    assert (Ht1' : shape t1' = [b]) by congruence.
    assert (Ht' : shape t' = [b]) by congruence.
    split; [congruence|]. rewrite Ht'. intros idx Hidx.
    inversion Hidx as [|i d0 idx0 s0 Li Hr]; subst.
    inversion Hr; subst.
    rewrite (Vl' i Li).
    rewrite Tt1 by (rewrite Ht1'; repeat constructor; exact Li).
    rewrite (Vl i Li).
    assert (ES : Rsum (numel [k; h; w])
                   (fun j => get s' (i :: unravel [k; h; w] j))
                 = Rsum (numel [k; h; w])
                     (fun j => get s (i :: unravel [k; h; w] j))).
    { apply Rsum_ext. intros j Lj.
      assert (Hr' : in_range (i :: unravel [k; h; w] j) [b; k; h; w]).
      { constructor; [exact Li|]. apply unravel_in_range. exact Lj. }
      destruct (in_range4_inv _ _ _ _ _ Hr')
        as (n0 & c0 & i0 & j0 & Eq & L0 & L1 & L2 & L3).
      rewrite Eq. apply Es; assumption. }
    rewrite ES. lra.
Qed.

End CouplingRoundTrip.


(** *** [squeeze] on equal inputs *)

Lemma view_teq (A : Type) (x x' y : tensor A) (s : list nat) :
  teq x' x -> view x s = Ok y ->
  exists y', view x' s = Ok y' /\ teq y' y.
Proof.
  intros [S G] E. unfold view in *. rewrite S.
  destruct (numel s =? numel (shape x)) eqn:N; [|discriminate].
  apply Nat.eqb_eq in N. inversion E; subst y; clear E.
  eexists. split; [reflexivity|]. split; [reflexivity|].
  cbn [shape get]. intros idx Hidx. apply G. rewrite S.
  apply unravel_in_range. rewrite <- N. apply ravel_lt. exact Hidx.
Qed.

Lemma in_range_nth (idx s : list nat) :
  in_range idx s -> forall p, p < length s -> nth p idx 0 < nth p s 0.
Proof.
  intros H. induction H as [|i d idx s Hi _ IH]; intros p Hp; cbn in *; [lia|].
  destruct p as [|p]; [exact Hi|]. apply IH. lia.
Qed.

Lemma in_range_map_seq (f : nat -> nat) (s : list nat) :
  forall k, (forall m, m < length s -> f (k + m) < nth m s 0) ->
    in_range (map f (seq k (length s))) s.
Proof.
  induction s as [|d s IH]; intros k H; cbn [length seq map]; [constructor|].
  constructor.
  - specialize (H 0 ltac:(cbn; lia)). rewrite Nat.add_0_r in H. exact H.
  - apply IH. intros m Hm. specialize (H (S m) ltac:(cbn; lia)).
    cbn [nth] in H. replace (S k + m) with (k + S m) by lia. exact H.
Qed.

Lemma index_of_found (m : nat) (p : list nat) :
  existsb (Nat.eqb m) p = true ->
  index_of m p < length p /\ nth (index_of m p) p 0 = m.
Proof.
  induction p as [|k p IH]; cbn [existsb index_of length]; [discriminate|].
  intros H. rewrite (Nat.eqb_sym m k) in H.
  destruct (k =? m) eqn:E.
  - apply Nat.eqb_eq in E. split; [lia|exact E].
  - cbn [orb] in H. destruct (IH H) as [L N]. split; [lia|exact N].
Qed.

Lemma permute_teq (A : Type) (x x' y : tensor A) (dims : list nat) :
  teq x' x -> permute x dims = Ok y ->
  exists y', permute x' dims = Ok y' /\ teq y' y.
Proof.
  intros [S G] E. unfold permute in *. rewrite S.
  destruct (is_permutation dims (length (shape x))) eqn:P; [|discriminate].
  inversion E; subst y; clear E.
  eexists. split; [reflexivity|]. split; [reflexivity|].
  cbn [shape get]. intros idx Hidx. apply G. rewrite S.
  unfold is_permutation in P. apply andb_true_iff in P. destruct P as [PL PA].
  apply Nat.eqb_eq in PL. rewrite PL.
  apply in_range_map_seq. intros m Hm. cbn [Nat.add].
  rewrite forallb_forall in PA.
  assert (Hin : In m (seq 0 (length (shape x)))) by (apply in_seq; lia).
  destruct (index_of_found m dims (PA m Hin)) as [L N].
  pose proof (in_range_nth _ _ Hidx (index_of m dims)) as R.
  rewrite length_map in R. specialize (R L).
  rewrite (nth_indep (map (fun d => nth d (shape x) 0) dims) 0
             (nth 0 (shape x) 0)) in R by (rewrite length_map; exact L).
  rewrite (map_nth (fun d => nth d (shape x) 0)) in R.
  rewrite N in R. exact R.
Qed.

Lemma squeeze_teq (A : Type) (x x' y : tensor A) (reverse : bool) :
  teq x' x -> squeeze x reverse = Ok y ->
  exists y', squeeze x' reverse = Ok y' /\ teq y' y.
Proof.
  intros T E. pose proof T as [S _]. unfold squeeze in *. rewrite S.
  destruct (shape x) as [|b [|c [|h [|w [|? ?]]]]]; try discriminate.
  destruct reverse.
  - destruct (view x _) as [x1|e] eqn:E1; cbn [bind] in E; [|discriminate].
    destruct (view_teq A x x' x1 _ T E1) as (x1' & E1' & T1).
    rewrite E1'. cbn [bind].
    destruct (permute x1 _) as [x2|e] eqn:E2; cbn [bind] in E; [|discriminate].
    destruct (permute_teq A x1 x1' x2 _ T1 E2) as (x2' & E2' & T2).
    rewrite E2'. cbn [bind].
    apply (view_teq A x2 x2' y _ T2 E).
  - destruct (view x _) as [x1|e] eqn:E1; cbn [bind] in E; [|discriminate].
    destruct (view_teq A x x' x1 _ T E1) as (x1' & E1' & T1).
    rewrite E1'. cbn [bind].
    destruct (permute x1 _) as [x2|e] eqn:E2; cbn [bind] in E; [|discriminate].
    destruct (permute_teq A x1 x1' x2 _ T1 E2) as (x2' & E2' & T2).
    rewrite E2'. cbn [bind].
    apply (view_teq A x2 x2' y _ T2 E).
Qed.

(** The squeeze of the forward direction is undone by that of the reverse
    direction; the accumulator passes through both. *)
Lemma squeeze_step_roundtrip (x : rtensor) (l : option rtensor) (b c h w : nat) :
  shape x = [b; c; 2 * h; 2 * w] ->
  exists y,
    squeeze_step false (x, l) = Ok (y, l) /\
    shape y = [b; 4 * c; h; w] /\
    forall y' l', teq y' y -> acc_eq l' l ->
      exists x', squeeze_step true (y', l') = Ok (x', l') /\ teq x' x.
Proof.
  intros Hx.
  assert (Eh : Nat.even (2 * h) = true).
  { apply Nat.even_spec. exists h. reflexivity. }
  assert (Ew : Nat.even (2 * w) = true).
  { apply Nat.even_spec. exists w. reflexivity. }
  destruct (squeeze_roundtrip R x b c (2 * h) (2 * w) Hx Eh Ew)
    as (y & x0 & Ey & Sy & Ex & Tx).
  exists y. unfold squeeze_step. cbn [fst snd]. rewrite Ey. cbn [bind].
  split; [reflexivity|]. split.
  { rewrite Sy. replace (2 * h) with (h * 2) by lia.
    replace (2 * w) with (w * 2) by lia.
    rewrite !Nat.div_mul by lia. f_equal. f_equal. lia. }
  intros y' l' Ty _.
  destruct (squeeze_teq R y y' x0 true Ty Ex) as (x' & Ex' & Tx').
  exists x'. rewrite Ex'. cbn [bind]. split; [reflexivity|].
  apply (teq_trans R x' x0 x Tx' Tx).
Qed.

(** *** [_FlowStep] and the steps of a level *)

Lemma _FlowStep_roundtrip (fs : _FlowStep) (x : rtensor) (l : option rtensor)
  (c mid b h w : nat) :
  _FlowStep_ready fs c mid ->
  Nat.even c = true ->
  shape x = [b; c; h; w] -> 0 < h -> 0 < w ->
  acc_per_batch l b ->
  exists y l1 fs',
    _FlowStep_forward fs x l false = Ok (y, l1, fs') /\
    shape y = [b; c; h; w] /\
    acc_shape l1 = acc_shape l /\
    _FlowStep_ready fs' c mid /\
    forall y' l1', teq y' y -> acc_eq l1' l1 ->
      exists x' l',
        _FlowStep_forward fs' y' l1' true = Ok (x', l', fs') /\
        teq x' x /\ acc_eq l' l.
Proof.
  intros [(Hp & Hr & Hc & Hw & Hcp) Hinv] Hev Hx Ph Pw Hacc.
  unfold _FlowStep_forward at 1.
  destruct (norm_call_pair_roundtrip (fs_norm fs) x l b c h w Hp Hr Hx)
    as (x1 & l1 & a' & E1 & S1 & A1 & Hp' & Hr' & B1).
  rewrite E1. cbn [bind].
  destruct (InvConv_roundtrip (fs_conv fs) x1 l1 b c h w Hc Hw Hinv S1 Ph Pw)
    as (x2 & l2 & E2 & S2 & A2 & B2).
  rewrite E2. cbn [bind].
  assert (Hacc2 : acc_per_batch l2 b).
  { apply (acc_per_batch_same l1); [exact A2|].
    apply (acc_per_batch_same l); assumption. }
  assert (S2' : shape x2 = [b; 2 * (c / 2); h; w]).
  { rewrite even_twice_half by exact Hev. exact S2. }
  destruct (Coupling_roundtrip (fs_coup fs) x2 l2 (c / 2) mid b h w
              Hcp S2' Ph Pw Hacc2)
    as (x3 & l3 & cp' & E3 & S3 & A3 & Hcp' & B3).
  rewrite E3. cbn [bind].
  do 3 eexists. split; [reflexivity|].
  split; [rewrite S3, even_twice_half by exact Hev; reflexivity|].
  split; [congruence|].
  split.
  { split; [|exact Hinv]. split; [exact Hp'|]. split; [exact Hr'|].
    split; [exact Hc|]. split; [exact Hw|exact Hcp']. }
  intros y' l3' Ty Tl. unfold _FlowStep_forward.
  cbn [fs_norm fs_conv fs_coup].
  destruct (B3 y' l3' Ty Tl) as (x2' & l2' & E3' & T2 & L2).
  rewrite E3'. cbn [bind].
  destruct (B2 x2' l2' T2 L2) as (x1' & l1' & E2' & T1 & L1).
  rewrite E2'. cbn [bind].
  destruct (B1 x1' l1' T1 L1) as (x' & l' & E1' & T0 & L0).
  rewrite E1'. cbn [bind].
  exists x', l'. split; [reflexivity|]. split; assumption.
Qed.

Lemma run_steps_app (s1 s2 : list _FlowStep) (reverse : bool) :
  forall (x : rtensor) (l : option rtensor),
    run_steps (s1 ++ s2) x l reverse
    = (' (x1, l1, s1') <- run_steps s1 x l reverse;;
       ' (x2, l2, s2') <- run_steps s2 x1 l1 reverse;;
       Ok (x2, l2, s1' ++ s2')).
Proof.
  induction s1 as [|fs s1 IH]; intros x l; cbn [app run_steps bind].
  - destruct (run_steps s2 x l reverse) as [[[x2 l2] s2']|e]; reflexivity.
  - destruct (_FlowStep_forward fs x l reverse) as [[[x1 l1] fs']|e];
      cbn [bind]; [|reflexivity].
    rewrite IH.
    destruct (run_steps s1 x1 l1 reverse) as [[[x2 l2] s1']|e];
      cbn [bind]; [|reflexivity].
    destruct (run_steps s2 x2 l2 reverse) as [[[x3 l3] s2']|e];
      cbn [bind]; reflexivity.
Qed.

(** The steps of a level, run in reverse order in the reverse direction,
    undo their run in the forward direction. *)
Lemma run_steps_roundtrip (steps : list _FlowStep) (c mid b h w : nat) :
  Forall (fun fs => _FlowStep_ready fs c mid) steps ->
  Nat.even c = true -> 0 < h -> 0 < w ->
  forall (x : rtensor) (l : option rtensor),
    shape x = [b; c; h; w] ->
    acc_per_batch l b ->
    exists y l1 steps',
      run_steps steps x l false = Ok (y, l1, steps') /\
      shape y = [b; c; h; w] /\
      acc_shape l1 = acc_shape l /\
      Forall (fun fs => _FlowStep_ready fs c mid) steps' /\
      forall y' l1', teq y' y -> acc_eq l1' l1 ->
        exists x' l',
          run_steps_reversed steps' y' l1' true = Ok (x', l', steps') /\
          teq x' x /\ acc_eq l' l.
Proof.
  intros Hall Hev Ph Pw.
  induction Hall as [|fs steps Hfs _ IH]; intros x l Hx Hacc.
  - cbn [run_steps]. exists x, l, []. split; [reflexivity|].
    split; [exact Hx|]. split; [reflexivity|]. split; [constructor|].
    intros y' l1' Ty Tl. exists y', l1'. split; [reflexivity|].
    split; assumption.
  - cbn [run_steps].
    destruct (_FlowStep_roundtrip fs x l c mid b h w Hfs Hev Hx Ph Pw Hacc)
      as (x1 & l1 & fs' & E1 & S1 & A1 & R1 & B1).
    rewrite E1. cbn [bind].
    destruct (IH x1 l1 S1 (acc_per_batch_same l l1 b A1 Hacc))
      as (x2 & l2 & steps' & E2 & S2 & A2 & R2 & B2).
    rewrite E2. cbn [bind].
    exists x2, l2, (fs' :: steps'). split; [reflexivity|].
    split; [exact S2|]. split; [congruence|].
    split; [constructor; assumption|].
    intros y' l2' Ty Tl.
    destruct (B2 y' l2' Ty Tl) as (x1' & l1' & E2' & T1 & L1).
    destruct (B1 x1' l1' T1 L1) as (x' & l' & E1' & T0 & L0).
    exists x', l'. split; [|split; assumption].
    unfold run_steps_reversed in *. cbn [rev]. rewrite run_steps_app.
    destruct (run_steps (rev steps') y' l2' true) as [[[u lu] su]|e];
      cbn [bind] in E2' |- *; [|discriminate].
    inversion E2'; subst u lu. cbn [run_steps]. rewrite E1'. cbn [bind].
    rewrite rev_app_distr. cbn [rev app]. congruence.
Qed.

(** *** [_Glow] *)

Lemma _Glow_roundtrip (mid : nat) :
  forall (n : nat) (g : _Glow), _Glow_depth g = n ->
  forall (c b h w : nat) (x : rtensor) (l : option rtensor),
    _Glow_ready g c mid ->
    Nat.even c = true -> 0 < h -> 0 < w ->
    shape x = [b; c; 2 ^ n * h; 2 ^ n * w] ->
    acc_per_batch l b ->
    exists y l1 g',
      _Glow_forward g x l false = Ok (y, l1, g') /\
      shape y = [b; 4 ^ n * c; h; w] /\
      acc_shape l1 = acc_shape l /\
      _Glow_ready g' c mid /\
      _Glow_depth g' = n /\
      forall y' l1', teq y' y -> acc_eq l1' l1 ->
        exists x' l',
          _Glow_forward g' y' l1' true = Ok (x', l', g') /\
          teq x' x /\ acc_eq l' l.
Proof.
  induction n as [|n IH]; intros g Hd c b h w x l Hg Hev Ph Pw Hx Hacc.
  { destruct g as [steps [lower|]]; discriminate Hd. }
  destruct g as [steps next]. cbn [_Glow_ready] in Hg.
  destruct Hg as [Hsteps Hnext].
  assert (P2 : 0 < 2 ^ n) by (apply Nat.neq_0_lt_0, Nat.pow_nonzero; lia).
  assert (Hx2 : shape x = [b; c; 2 * (2 ^ n * h); 2 * (2 ^ n * w)]).
  { rewrite Hx. cbn [Nat.pow]. repeat (f_equal; try lia). }
  destruct (run_steps_roundtrip steps c mid b (2 * (2 ^ n * h)) (2 * (2 ^ n * w))
              Hsteps Hev ltac:(nia) ltac:(nia) x l Hx2 Hacc)
    as (x1 & l1 & steps' & E1 & S1 & A1 & R1 & B1).
  destruct (squeeze_step_roundtrip x1 l1 b c (2 ^ n * h) (2 ^ n * w) S1)
    as (x2 & E2 & S2 & B2).
  assert (Hacc1 : acc_per_batch l1 b)
    by (apply (acc_per_batch_same l l1 b A1 Hacc)).
  destruct next as [lower|].
  - cbn [_Glow_depth] in Hd. injection Hd as Hd.
    destruct (IH lower Hd (4 * c) b h w x2 l1 Hnext (even_4_mul c) Ph Pw S2 Hacc1)
      as (x3 & l3 & lower' & E3 & S3 & A3 & R3 & D3 & B3).
    exists x3, l3, (mkGlowLevel steps' (Some lower')).
    split.
    { cbn [_Glow_forward negb]. rewrite E1. cbn [bind]. rewrite E2.
      cbn [bind]. rewrite E3. cbn [bind]. reflexivity. }
    split.
    { rewrite S3. cbn [Nat.pow]. repeat (f_equal; try lia). }
    split; [congruence|].
    split; [cbn [_Glow_ready]; split; assumption|].
    split; [cbn [_Glow_depth]; rewrite D3; reflexivity|].
    intros y' l3' Ty Tl.
    destruct (B3 y' l3' Ty Tl) as (x2' & l1' & E3' & T2 & L1).
    destruct (B2 x2' l1' T2 L1) as (x1' & E2' & T1).
    destruct (B1 x1' l1' T1 L1) as (x' & l' & E1' & T0 & L0).
    exists x', l'. split; [|split; assumption].
    cbn [_Glow_forward negb bind]. rewrite E3'. cbn [bind].
    rewrite E2'. cbn [bind]. rewrite E1'. cbn [bind]. reflexivity.
  - cbn [_Glow_depth] in Hd. injection Hd as Hd. subst n.
    exists x2, l1, (mkGlowLevel steps' None).
    split.
    { cbn [_Glow_forward negb]. rewrite E1. cbn [bind]. rewrite E2.
      cbn [bind]. reflexivity. }
    split.
    { rewrite S2. cbn [Nat.pow]. repeat (f_equal; try lia). }
    split; [exact A1|].
    split; [cbn [_Glow_ready]; split; [exact R1|exact I]|].
    split; [reflexivity|].
    intros y' l1' Ty Tl.
    destruct (B2 y' l1' Ty Tl) as (x1' & E2' & T1).
    destruct (B1 x1' l1' T1 Tl) as (x' & l' & E1' & T0 & L0).
    exists x', l'. split; [|split; assumption].
    cbn [_Glow_forward negb bind]. rewrite E2'. cbn [bind].
    rewrite E1'. cbn [bind]. reflexivity.
Qed.

(** *** [LogitTransform] and [Glow] *)

Section LogitRoundTrip.
Local Open Scope R_scope.

Lemma sigmoid_logit (s : R) : 0 < s < 1 -> sigmoid (ln s - ln (1 - s)) = s.
Proof.
  intros [H0 H1]. unfold sigmoid.
  replace (- (ln s - ln (1 - s))) with (ln (1 - s) + - ln s) by lra.
  rewrite exp_plus, exp_Ropp, !exp_ln by lra. field. lra.
Qed.

Lemma LogitTransform_roundtrip (lt : LogitTransform) (x : rtensor) :
  lt_alpha lt <> 1 / 2 ->
  in_logit_domain lt x ->
  exists y,
    LogitTransform_forward lt x None false = Ok (y, None) /\
    shape y = shape x /\
    forall y', teq y' y ->
      exists x', LogitTransform_forward lt y' None true = Ok (x', None) /\
                 teq x' x.
Proof.
  intros Ha Hd. unfold LogitTransform_forward, LogitTransform_inverse.
  eexists. split; [reflexivity|]. split; [reflexivity|].
  intros y' [S G]. eexists. split; [reflexivity|].
  cbn [tmap shape get] in *. split; [exact S|].
  intros idx Hidx. cbn [tmap shape get] in *.
  rewrite (G idx Hidx). rewrite S in Hidx.
  rewrite sigmoid_logit by (apply Hd; exact Hidx).
  field. lra.
Qed.

End LogitRoundTrip.

Lemma acc_shape_none (l : option rtensor) : acc_shape l = acc_shape None -> l = None.
Proof.
  destruct l; [discriminate|reflexivity].
Qed.

Lemma acc_eq_none (l : option rtensor) : acc_eq l None -> l = None.
Proof.
  destruct l; [contradiction|reflexivity].
Qed.

(** Without an accumulator, as the sampling script calls the model: the
    reverse direction maps every tensor equal to the output of the forward
    direction back to the input. *)
Lemma Glow_roundtrip (g : Glow) (x : rtensor) (n c mid b h w : nat) :
  _Glow_depth (glow_flows g) = n ->
  _Glow_ready (glow_flows g) (4 * c) mid ->
  (lt_alpha (glow_init g) <> 1 / 2)%R ->
  0 < h -> 0 < w ->
  shape x = [b; c; 2 ^ S n * h; 2 ^ S n * w] ->
  in_logit_domain (glow_init g) x ->
  exists z g',
    Glow_forward g x None false = Ok (z, None, g') /\
    shape z = [b; 4 ^ S n * c; h; w] /\
    _Glow_depth (glow_flows g') = n /\
    _Glow_ready (glow_flows g') (4 * c) mid /\
    glow_init g' = glow_init g /\
    forall z', teq z' z ->
      exists x', Glow_forward g' z' None true = Ok (x', None, g') /\ teq x' x.
Proof.
  intros Hd Hg Ha Ph Pw Hx Hdom.
  destruct (LogitTransform_roundtrip (glow_init g) x Ha Hdom)
    as (y0 & E0 & S0 & B0).
  assert (Hy0 : shape y0 = [b; c; 2 * (2 ^ n * h); 2 * (2 ^ n * w)]).
  { rewrite S0, Hx. cbn [Nat.pow]. repeat (f_equal; try lia). }
  destruct (squeeze_step_roundtrip y0 None b c (2 ^ n * h) (2 ^ n * w) Hy0)
    as (y1 & E1 & S1 & B1).
  destruct (_Glow_roundtrip mid n (glow_flows g) Hd (4 * c) b h w y1 None
              Hg (even_4_mul c) Ph Pw S1 ltac:(discriminate))
    as (z & l & flows' & E2 & S2 & A2 & R2 & D2 & B2).
  apply acc_shape_none in A2. subst l.
  exists z, {| glow_params := glow_params g; glow_flows := flows';
               glow_init := glow_init g |}.
  split.
  { unfold Glow_forward. cbn [negb]. rewrite E0. cbn [bind]. rewrite E1.
    cbn [bind]. rewrite E2. cbn [bind]. reflexivity. }
  split.
  { rewrite S2. cbn [Nat.pow]. repeat (f_equal; try lia). }
  split; [exact D2|]. split; [exact R2|]. split; [reflexivity|].
  intros z' Tz.
  destruct (B2 z' None Tz I) as (y1' & l' & E2' & T1 & L1).
  apply acc_eq_none in L1. subst l'.
  destruct (B1 y1' None T1 I) as (y0' & E1' & T0).
  destruct (B0 y0' T0) as (x' & E0' & Tx).
  exists x'. split; [|exact Tx].
  unfold Glow_forward. cbn [negb bind glow_flows glow_init glow_params].
  rewrite E2'. cbn [bind]. rewrite E1'. cbn [bind]. rewrite E0'.
  cbn [bind]. reflexivity.
Qed.

(** *** The models that the constructors build *)

Lemma steps_new_ready (c mid : nat) (p : params) (num_steps : nat) :
  batchnorm p = false ->
  inverts_initial_weights ->
  forall seed,
    Forall (fun fs => _FlowStep_ready fs c mid)
           (fst (steps_new c mid p num_steps seed)).
Proof.
  intros Hp Hinv. induction num_steps as [|n IH]; intros seed.
  - constructor.
  - cbn [steps_new].
    pose proof (_FlowStep_new_shapes c mid seed p Hp) as H1.
    assert (H2 : InvConv_invertible (fs_conv (fst (_FlowStep_new c mid p seed)))).
    { unfold _FlowStep_new. pose proof (Hinv c seed) as Hc.
      destruct (InvConv_new c seed) as [conv seed1].
      destruct (Coupling_new (c / 2) mid p seed1) as [coup seed2].
      exact Hc. }
    destruct (_FlowStep_new c mid p seed) as [step seed1].
    specialize (IH seed1).
    destruct (steps_new c mid p n seed1) as [rest seed2].
    cbn [fst] in *. constructor; [split; assumption|exact IH].
Qed.

Lemma _Glow_new_ready (mid num_steps : nat) (p : params) :
  batchnorm p = false ->
  inverts_initial_weights ->
  forall (num_levels c seed : nat),
    _Glow_ready (fst (_Glow_new c mid num_levels num_steps p seed)) c mid /\
    _Glow_depth (fst (_Glow_new c mid num_levels num_steps p seed))
    = num_built_levels num_levels.
Proof.
  intros Hp Hinv.
  assert (Terminal : forall c seed,
             _Glow_ready (mkGlowLevel (fst (steps_new c mid p num_steps seed)) None)
                         c mid).
  { intros c seed. cbn [_Glow_ready].
    split; [apply steps_new_ready; assumption|exact I]. }
  induction num_levels as [|n IH]; intros c seed.
  - cbn [_Glow_new]. specialize (Terminal c seed).
    destruct (steps_new c mid p num_steps seed) as [steps seed1].
    cbn [fst] in *. split; [exact Terminal|reflexivity].
  - destruct n as [|n].
    + cbn [_Glow_new]. specialize (Terminal c seed).
      destruct (steps_new c mid p num_steps seed) as [steps seed1].
      cbn [fst] in *. split; [exact Terminal|reflexivity].
    + change (_Glow_new c mid (S (S n)) num_steps p seed)
        with (let (steps, seed1) := steps_new c mid p num_steps seed in
              let (next, seed2) :=
                _Glow_new (4 * c) mid (S n) num_steps p seed1 in
              (mkGlowLevel steps (Some next), seed2)).
      pose proof (steps_new_ready c mid p num_steps Hp Hinv seed) as Hs.
      destruct (steps_new c mid p num_steps seed) as [steps seed1].
      specialize (IH (4 * c) seed1).
      destruct (_Glow_new (4 * c) mid (S n) num_steps p seed1) as [next seed2].
      cbn [fst] in *. destruct IH as [IHr IHd].
      split; [cbn [_Glow_ready]; split; assumption|].
      cbn [_Glow_depth]. rewrite IHd. reflexivity.
Qed.


(** ** The reverse direction undoes the forward direction

    The statements are over the real numbers: the products with [exp s] and
    [exp (- s)] cancel exactly and no value is NaN. *)


(** X2: when [torch.inverse] returns a left inverse of the weight, the
    reverse direction of the invertible 1x1 convolution applied to the
    output of its forward direction returns the input and the
    accumulator. *)
Theorem InvConv_reverse_undoes_forward (ic : InvConv) (x : rtensor)
  (l : option rtensor) (b c h w : nat) :
  ic_num_channels ic = c -> shape (ic_weight ic) = [c; c] ->
  InvConv_invertible ic ->
  shape x = [b; c; h; w] -> 0 < h -> 0 < w ->
  exists z l1 x' l',
    InvConv_forward ic x l false = Ok (z, l1) /\
    InvConv_forward ic z l1 true = Ok (x', l') /\
    shape z = [b; c; h; w] /\
    teq x' x /\ acc_eq l' l.
Proof.
  intros Hc Hw Hinv Hx Ph Pw.
  destruct (InvConv_roundtrip ic x l b c h w Hc Hw Hinv Hx Ph Pw)
    as (z & l1 & E & Sz & _ & B).
  destruct (B z l1 (teq_refl R z) (acc_eq_refl l1)) as (x' & l' & E' & T & L).
  exists z, l1, x', l'. repeat (split; [assumption|]). exact L.
Qed.

(** X3: on an input with an even number of channels, the reverse direction
    of the coupling layer applied to the output of its forward direction
    returns the input and the accumulator, whatever the weights of the
    conditioner: the half that is not changed gives the conditioner the same
    input in both directions. *)
Theorem Coupling_reverse_undoes_forward (cp : Coupling) (x : rtensor)
  (l : option rtensor) (k mid b h w : nat) :
  Coupling_shapes cp k mid ->
  shape x = [b; 2 * k; h; w] ->
  0 < b -> 0 < h -> 0 < w ->
  acc_per_batch l b ->
  exists y l1 cp' x' l',
    Coupling_forward cp x l false = Ok (y, l1, cp') /\
    Coupling_forward cp' y l1 true = Ok (x', l', cp') /\
    shape y = [b; 2 * k; h; w] /\
    teq x' x /\ acc_eq l' l.
Proof.
  intros Hcp Hx _ Ph Pw Hl.
  destruct (Coupling_roundtrip cp x l k mid b h w Hcp Hx Ph Pw Hl)
    as (y & l1 & cp' & E & Sy & _ & _ & B).
  destruct (B y l1 (teq_refl R y) (acc_eq_refl l1)) as (x' & l' & E' & T & L).
  exists y, l1, cp', x', l'. repeat (split; [assumption|]). exact L.
Qed.

(** X4: a flow step runs normalization, convolution and coupling in the
    forward direction and their reverse directions in the opposite order;
    the reverse direction applied to the output of the forward direction
    returns the input and the accumulator and leaves the step as the
    forward call left it. *)
Theorem flow_step_reverse_undoes_forward (fs : _FlowStep) (x : rtensor)
  (l : option rtensor) (c mid b h w : nat) :
  _FlowStep_ready fs c mid ->
  Nat.even c = true ->
  shape x = [b; c; h; w] ->
  0 < b -> 0 < h -> 0 < w ->
  acc_per_batch l b ->
  exists y l1 fs' x' l',
    _FlowStep_forward fs x l false = Ok (y, l1, fs') /\
    _FlowStep_forward fs' y l1 true = Ok (x', l', fs') /\
    shape y = [b; c; h; w] /\
    teq x' x /\ acc_eq l' l.
Proof.
  intros Hfs Hev Hx _ Ph Pw Hl.
  destruct (_FlowStep_roundtrip fs x l c mid b h w Hfs Hev Hx Ph Pw Hl)
    as (y & l1 & fs' & E & Sy & _ & _ & B).
  destruct (B y l1 (teq_refl R y) (acc_eq_refl l1)) as (x' & l' & E' & T & L).
  exists y, l1, fs', x', l'. repeat (split; [assumption|]). exact L.
Qed.

(** X5: a flow of [n] levels maps a batch of shape (B, C, 2^n H, 2^n W) to
    one of shape (B, 4^n C, H, W), and its reverse direction, which runs the
    levels below first, then unsqueezes and runs the steps in reverse order,
    maps that output back to the input and the accumulator back to its
    value. *)
Theorem flow_levels_reverse_undo_forward (g : _Glow) (x : rtensor)
  (l : option rtensor) (n c mid b h w : nat) :
  _Glow_depth g = n ->
  _Glow_ready g c mid ->
  Nat.even c = true ->
  0 < b -> 0 < h -> 0 < w ->
  shape x = [b; c; 2 ^ n * h; 2 ^ n * w] ->
  acc_per_batch l b ->
  exists y l1 g' x' l',
    _Glow_forward g x l false = Ok (y, l1, g') /\
    _Glow_forward g' y l1 true = Ok (x', l', g') /\
    shape y = [b; 4 ^ n * c; h; w] /\
    teq x' x /\ acc_eq l' l.
Proof.
  intros Hd Hg Hev _ Ph Pw Hx Hl.
  destruct (_Glow_roundtrip mid n g Hd c b h w x l Hg Hev Ph Pw Hx Hl)
    as (y & l1 & g' & E & Sy & _ & _ & _ & B).
  destruct (B y l1 (teq_refl R y) (acc_eq_refl l1)) as (x' & l' & E' & T & L).
  exists y, l1, g', x', l'. repeat (split; [assumption|]). exact L.
Qed.

(** X6: called without an accumulator, as the sampling script calls it, the
    reverse direction of the model applied to the latent that the forward
    direction returns gives back the images, when these lie where the logit
    of the first layer is defined and the weights of the 1x1 convolutions
    are inverted. *)
Theorem Glow_reverse_undoes_forward (g : Glow) (x : rtensor)
  (n c mid b h w : nat) :
  _Glow_depth (glow_flows g) = n ->
  _Glow_ready (glow_flows g) (4 * c) mid ->
  (lt_alpha (glow_init g) <> 1 / 2)%R ->
  0 < b -> 0 < h -> 0 < w ->
  shape x = [b; c; 2 ^ S n * h; 2 ^ S n * w] ->
  in_logit_domain (glow_init g) x ->
  exists z g' x',
    Glow_forward g x None false = Ok (z, None, g') /\
    Glow_forward g' z None true = Ok (x', None, g') /\
    shape z = [b; 4 ^ S n * c; h; w] /\
    teq x' x.
Proof.
  intros Hd Hg Ha _ Ph Pw Hx Hdom.
  destruct (Glow_roundtrip g x n c mid b h w Hd Hg Ha Ph Pw Hx Hdom)
    as (z & g' & E & Sz & _ & _ & _ & B).
  destruct (B z (teq_refl R z)) as (x' & E' & T).
  exists z, g', x'. repeat (split; [assumption|]). exact T.
Qed.

(** X7: where the logit is defined, that is where
    [alpha + (1 - 2 alpha) x] lies strictly between 0 and 1, the inverse of
    the logit transform applied to its output returns the input. *)
Theorem LogitTransform_inverse_undoes_forward (lt : LogitTransform)
  (x : rtensor) :
  (lt_alpha lt <> 1 / 2)%R ->
  in_logit_domain lt x ->
  exists y x',
    LogitTransform_forward lt x None false = Ok (y, None) /\
    LogitTransform_forward lt y None true = Ok (x', None) /\
    shape y = shape x /\
    teq x' x.
Proof.
  intros Ha Hdom.
  destruct (LogitTransform_roundtrip lt x Ha Hdom) as (y & E & Sy & B).
  destruct (B y (teq_refl R y)) as (x' & E' & T).
  exists y, x'. repeat (split; [assumption|]). exact T.
Qed.

(** X8: with the activation normalization selected, the constructor builds
    a flow of [num_built_levels num_levels] levels whose parameters have
    the shapes that the round trip needs, each level with four times the
    channels of the level above; the weights of its 1x1 convolutions are
    inverted when [torch.inverse] inverts the initial weights. *)
Theorem Glow_new_is_ready (in_channels mid num_levels num_steps seed : nat)
  (p : params) :
  batchnorm p = false ->
  inverts_initial_weights ->
  _Glow_ready (glow_flows (fst (Glow_new in_channels mid num_levels num_steps p seed)))
              (4 * in_channels) mid /\
  _Glow_depth (glow_flows (fst (Glow_new in_channels mid num_levels num_steps p seed)))
  = num_built_levels num_levels /\
  glow_init (fst (Glow_new in_channels mid num_levels num_steps p seed))
  = LogitTransform_new.
Proof.
  intros Hp Hinv. unfold Glow_new.
  pose proof (_Glow_new_ready mid num_steps p Hp Hinv num_levels
                (in_channels * 4) seed) as [Hr Hd].
  destruct (_Glow_new (in_channels * 4) mid num_levels num_steps p seed)
    as [flows seed'].
  cbn [fst glow_flows glow_init] in *.
  replace (4 * in_channels) with (in_channels * 4) by lia.
  split; [exact Hr|]. split; [exact Hd|reflexivity].
Qed.


(** ** Unsqueeze followed by squeeze *)

Lemma unsqueeze_roundtrip (A : Type) (x : tensor A) (b c h w : nat) :
  shape x = [b; 4 * c; h; w] ->
  exists y x',
    squeeze x true = Ok y /\ shape y = [b; c; h * 2; w * 2] /\
    squeeze y false = Ok x' /\ teq x' x.
Proof.
  intros Hs.
  assert (Ec : 4 * c / 4 = c).
  { replace (4 * c) with (c * 4) by lia. apply Nat.div_mul. lia. }
  assert (Eh : h * 2 / 2 = h) by (apply Nat.div_mul; lia).
  assert (Ew : w * 2 / 2 = w) by (apply Nat.div_mul; lia).
  assert (N1 : numel [b; c; 2; 2; h; w] = numel [b; 4 * c; h; w]).
  { cbn [numel]. nia. }
  assert (N2 : numel [b; c; h; 2; w; 2] = numel [b; c; h * 2; w * 2]).
  { cbn [numel]. nia. }
  assert (N3 : numel [b; c; 2; 2; h; w] = numel [b; c * 2 * 2; h; w]).
  { cbn [numel]. nia. }
  eexists. eexists. split; [|split; [|split]].
  - unfold squeeze. rewrite Hs, Ec.
    rewrite view_ok by (rewrite Hs; exact N1).
    cbn [bind]. unfold permute. cbn [shape length].
    replace (is_permutation [0; 1; 4; 2; 5; 3] 6) with true by reflexivity.
    cbn [map nth bind].
    rewrite view_ok by (cbn [shape]; symmetry; exact N2).
    reflexivity.
  - reflexivity.
  - unfold squeeze. cbn [shape]. rewrite Eh, Ew.
    rewrite view_ok by (cbn [shape]; exact N2).
    cbn [bind]. unfold permute. cbn [shape length].
    replace (is_permutation [0; 1; 3; 5; 2; 4] 6) with true by reflexivity.
    cbn [map nth bind].
    rewrite view_ok by (cbn [shape]; symmetry; exact N3).
    reflexivity.
  - split.
    + cbn [shape]. rewrite Hs. f_equal. f_equal. lia.
    + cbn [shape get]. intros idx Hidx. rewrite Hs.
      replace (c * 2 * 2) with (4 * c) in * by lia.
      assert (Hj : in_range (unravel [b; c; 2; 2; h; w]
                               (ravel [b; 4 * c; h; w] idx))
                            [b; c; 2; 2; h; w]).
      { apply unravel_in_range. rewrite N1. apply ravel_lt. exact Hidx. }
      destruct (in_range6 _ _ _ _ _ _ _ Hj)
        as (i0 & i1 & i2 & i3 & i4 & i5 & Ej & L0 & L1 & L2 & L3 & L4 & L5).
      rewrite Ej. cbn [map seq nth index_of Nat.eqb].
      rewrite reindex_through.
      2:{ exact N2. }
      2:{ apply in_range6_intro; assumption. }
      cbn [nth]. rewrite <- Ej.
      rewrite reindex_through; [reflexivity | symmetry; exact N1 | exact Hidx].
Qed.

(** X9: the two directions of [squeeze] are inverse to each other on both
    sides: for a tensor of shape (B, 4C, H, W), unsqueezing gives a tensor of
    shape (B, C, 2H, 2W), and squeezing that returns a tensor with the shape
    and every element of the input. *)
Theorem unsqueeze_squeeze_exact (A : Type) (x : tensor A) (b c h w : nat) :
  shape x = [b; 4 * c; h; w] ->
  exists y x',
    squeeze x true = Ok y /\ shape y = [b; c; h * 2; w * 2] /\
    squeeze y false = Ok x' /\ teq x' x.
Proof.
  exact (unsqueeze_roundtrip A x b c h w).
Qed.

(** ** The acceptance probability of the rejection sampling *)

Section DRSRegimes.
Local Open Scope R_scope.

Lemma sigmoid_bounds (r : R) : 0 < sigmoid r < 1.
Proof.
  unfold sigmoid. pose proof (exp_pos (- r)) as E.
  split.
  - apply Rdiv_lt_0_compat; lra.
  - apply (Rmult_lt_reg_r (1 + exp (- r))); [lra|].
    unfold Rdiv. rewrite Rmult_assoc, Rinv_l by lra. lra.
Qed.


Lemma drs_log_arg_fin (pq M : R) (args : drs_args) :
  0 < M ->
  drs_log_arg (Fin pq) (Fin M) args = Fin (1 - pq / M * exp (eps_drs args)).
Proof.
  intros HM. unfold drs_log_arg. rewrite xdiv_fin by lra. reflexivity.
Qed.

Lemma drs_interior (pq M : R) (args : drs_args) :
  0 < pq -> pq * exp (eps_drs args) < M ->
  drs (Fin pq) (Fin M) args
  = Fin (sigmoid (ln pq - ln M - ln (1 - pq / M * exp (eps_drs args))
                  - gamma_drs args)).
Proof.
  intros Hp Hlt.
  assert (HM : 0 < M).
  { pose proof (exp_pos (eps_drs args)).
    assert (0 < pq * exp (eps_drs args)) by (apply Rmult_lt_0_compat; lra).
    lra. }
  assert (Harg : 0 < 1 - pq / M * exp (eps_drs args)).
  { assert (pq / M * exp (eps_drs args) < 1); [|lra].
    apply (Rmult_lt_reg_r M); [exact HM|].
    replace (pq / M * exp (eps_drs args) * M) with (pq * exp (eps_drs args))
      by (field; lra).
    lra. }
  unfold drs. rewrite drs_log_arg_fin by exact HM.
  rewrite !xlog_pos by assumption. reflexivity.
Qed.

Lemma drs_boundary (pq M : R) (args : drs_args) :
  0 < pq -> pq * exp (eps_drs args) = M ->
  drs (Fin pq) (Fin M) args = Fin 1.
Proof.
  intros Hp Heq.
  assert (HM : 0 < M).
  { pose proof (exp_pos (eps_drs args)). rewrite <- Heq.
    apply Rmult_lt_0_compat; lra. }
  assert (Harg : 1 - pq / M * exp (eps_drs args) = 0).
  { replace (pq / M * exp (eps_drs args)) with (pq * exp (eps_drs args) / M)
      by (field; lra).
    rewrite Heq. field. lra. }
  unfold drs. rewrite drs_log_arg_fin by exact HM. rewrite Harg.
  rewrite !xlog_pos by assumption.
  unfold xlog. destruct (Rlt_dec 0 0) as [F|_]; [lra|].
  destruct (Req_dec_T 0 0) as [_|F]; [|lra]. reflexivity.
Qed.

Lemma drs_outside (pq M : R) (args : drs_args) :
  0 < pq -> 0 < M -> M < pq * exp (eps_drs args) ->
  drs (Fin pq) (Fin M) args = NaN.
Proof.
  intros Hp HM Hgt.
  assert (Harg : 1 - pq / M * exp (eps_drs args) < 0).
  { assert (1 < pq / M * exp (eps_drs args)); [|lra].
    apply (Rmult_lt_reg_r M); [exact HM|].
    replace (pq / M * exp (eps_drs args) * M) with (pq * exp (eps_drs args))
      by (field; lra).
    lra. }
  unfold drs. rewrite drs_log_arg_fin by exact HM.
  rewrite (xlog_neg (1 - pq / M * exp (eps_drs args))) by exact Harg.
  rewrite !xlog_pos by assumption. reflexivity.
Qed.

Lemma drs_zero_ratio (M : R) (args : drs_args) :
  0 <= M ->
  drs (Fin 0) (Fin M) args = Fin 0 \/ drs (Fin 0) (Fin M) args = NaN.
Proof.
  intros HM. unfold drs, drs_log_arg, xdiv.
  assert (L0 : xlog (Fin 0) = NInf).
  { unfold xlog. destruct (Rlt_dec 0 0) as [F|_]; [lra|].
    destruct (Req_dec_T 0 0) as [_|F]; [reflexivity|lra]. }
  rewrite L0.
  destruct (Req_dec_T M 0) as [Z|NZ].
  - right. destruct (Rlt_dec 0 0) as [F|_]; [lra|].
    destruct (Req_dec_T 0 0) as [_|F]; [|lra].
    subst M. rewrite L0. reflexivity.
  - left. rewrite xlog_pos by lra. cbn [xmul xsub xopp xadd].
    replace (1 + - (0 / M * exp (eps_drs args))) with 1 by (field; lra).
    rewrite xlog_pos by lra. reflexivity.
Qed.

Lemma spacing_positive_eps (args : drs_args) :
  float32_spacing <= eps_drs args -> 0 < eps_drs args.
Proof.
  intros H. apply (Rlt_le_trans _ float32_spacing); [|exact H].
  unfold float32_spacing. apply Rinv_0_lt_compat. apply pow_lt. lra.
Qed.

Lemma sigmoid_closed_bounds (r : R) : 0 <= sigmoid r <= 1.
Proof.
  pose proof (sigmoid_bounds r). lra.
Qed.

(** X10: the regimes of [drs] for a positive density ratio [pq] and
    maximum [M].  While [pq * exp eps < M] the result is a number and not
    NaN: over the reals the sigmoid of
    [log pq - log M - log (1 - pq / M * exp eps) - gamma], between 0 and 1
    (the float32 sigmoid reaches 0 and 1, so the bounds are stated with
    [<=]).  At [pq * exp eps = M] the logarithm is that of 0 and the result
    is 1.  For [pq] at least [M] and [eps] at least [float32_spacing] the
    logarithm is that of a negative number and the result is NaN. *)
Theorem drs_regimes (pq M : R) (args : drs_args) :
  0 < pq -> 0 < M ->
  (pq * exp (eps_drs args) < M ->
   exists p,
     drs (Fin pq) (Fin M) args = Fin p /\ 0 <= p <= 1 /\
     p = sigmoid (ln pq - ln M - ln (1 - pq / M * exp (eps_drs args))
                  - gamma_drs args)) /\
  (pq * exp (eps_drs args) = M -> drs (Fin pq) (Fin M) args = Fin 1) /\
  (float32_spacing <= eps_drs args -> M <= pq ->
   drs (Fin pq) (Fin M) args = NaN).
Proof.
  intros Hp HM. split; [|split].
  - intros Hlt. eexists. split; [apply drs_interior; assumption|].
    split; [apply sigmoid_closed_bounds|reflexivity].
  - intros Heq. apply drs_boundary; assumption.
  - intros Hb Hge. apply drs_outside; [assumption|assumption|].
    pose proof (exp_gt_1 _ (spacing_positive_eps args Hb)) as G.
    assert (pq * 1 < pq * exp (eps_drs args))
      by (apply Rmult_lt_compat_l; assumption).
    lra.
Qed.

Lemma proposal_accepted (M pq u : R) (args : drs_args) (M' : xreal) :
  0 < eps_drs args -> 0 <= M -> 0 <= pq -> 0 <= u ->
  proposal (Fin M) (Fin pq) (Fin u) args = (M', true) ->
  M' = Fin M /\ 0 < pq /\ pq * exp (eps_drs args) <= M.
Proof.
  intros He HM Hp Hu. unfold proposal.
  assert (E : xmax (Fin pq) (Fin M) = Fin (if Rlt_dec pq M then M else pq)).
  { unfold xmax, xlt. destruct (Rlt_dec pq M); reflexivity. }
  rewrite E. pose proof (exp_gt_1 _ He) as G1.
  destruct (Rlt_dec pq M) as [L|NL].
  - destruct (Req_dec_T pq 0) as [Z|NZ].
    + subst pq. intros H. exfalso.
      destruct (drs_zero_ratio M args HM) as [D|D]; rewrite D in H.
      * cbn [xlt] in H. destruct (Rlt_dec u 0); [lra|]. inversion H.
      * inversion H.
    + assert (P : 0 < pq) by lra.
      destruct (Rle_dec (pq * exp (eps_drs args)) M) as [Le|Gt].
      * intros H. inversion H. split; [reflexivity|]. split; assumption.
      * intros H. exfalso.
        rewrite drs_outside in H by lra. inversion H.
  - intros H. exfalso.
    destruct (Req_dec_T pq 0) as [Z|NZ].
    + subst pq.
      destruct (drs_zero_ratio 0 args ltac:(lra)) as [D|D]; rewrite D in H.
      * cbn [xlt] in H. destruct (Rlt_dec u 0); [lra|]. inversion H.
      * inversion H.
    + rewrite drs_at_max in H by lra. inversion H.
Qed.

Lemma proposal_accepted_below (M pq u : R) (args : drs_args) (M' : xreal) :
  float32_spacing <= eps_drs args -> 0 <= M -> 0 <= pq -> 0 <= u ->
  proposal (Fin M) (Fin pq) (Fin u) args = (M', true) ->
  M' = Fin M /\ 0 < pq < M.
Proof.
  intros Hb HM Hp Hu P.
  pose proof (spacing_positive_eps args Hb) as He.
  destruct (proposal_accepted M pq u args M' He HM Hp Hu P)
    as (E & Ppos & Ple).
  split; [exact E|]. split; [exact Ppos|].
  pose proof (exp_gt_1 _ He) as G.
  assert (pq * 1 < pq * exp (eps_drs args))
    by (apply Rmult_lt_compat_l; assumption).
  lra.
Qed.

(** X11: a proposal of the generation loop, for [eps] at least
    [float32_spacing]: it is accepted only if its density ratio is positive
    and strictly below the running maximum that the loop had before it, and
    it leaves that maximum as it was.  A sample that reaches or raises the
    maximum is never the one that is saved. *)
Theorem accepted_proposal_keeps_maximum (M pq u : R) (args : drs_args)
  (M' : xreal) :
  float32_spacing <= eps_drs args -> 0 <= M -> 0 <= pq -> 0 <= u ->
  proposal (Fin M) (Fin pq) (Fin u) args = (M', true) ->
  M' = Fin M /\ 0 < pq < M.
Proof.
  exact (proposal_accepted_below M pq u args M').
Qed.


End DRSRegimes.

(** ** The loops of the generation script *)

Section GenerationLoops.
Local Open Scope R_scope.

Lemma xmax_fin (a b : R) :
  xmax (Fin a) (Fin b) = Fin (if Rlt_dec a b then b else a).
Proof.
  unfold xmax, xlt. destruct (Rlt_dec a b); reflexivity.
Qed.

Lemma update_M_fin (pq : list R) (m : R) :
  exists m',
    update_M (map Fin pq) (Fin m) = Fin m' /\ m <= m' /\
    (forall r, In r pq -> r <= m') /\
    (m' = m \/ In m' pq).
Proof.
  induction pq as [|p pq IH]; cbn [map update_M fold_right].
  - exists m. split; [reflexivity|]. split; [lra|].
    split; [intros r []|left; reflexivity].
  - destruct IH as (m1 & E & L & A & O). unfold update_M in E. rewrite E.
    rewrite xmax_fin. eexists. split; [reflexivity|].
    destruct (Rlt_dec p m1) as [Lt|Ge].
    + split; [exact L|]. split.
      * intros r [<-|Hr]; [lra|apply A; exact Hr].
      * destruct O as [O|O]; [left; exact O|right; right; exact O].
    + split; [lra|]. split.
      * intros r [<-|Hr]; [lra|]. specialize (A r Hr). lra.
      * right. left. reflexivity.
Qed.

Lemma evaluate_M_from (batches : list (list R)) :
  forall m0,
  exists m,
    fold_left (fun M pq => update_M pq M) (map (map Fin) batches) (Fin m0)
    = Fin m /\ m0 <= m /\
    (forall b r, In b batches -> In r b -> r <= m) /\
    (m = m0 \/ exists b, In b batches /\ In m b).
Proof.
  induction batches as [|b batches IH]; intros m0; cbn [map fold_left].
  - exists m0. split; [reflexivity|]. split; [lra|].
    split; [intros b r []|left; reflexivity].
  - destruct (update_M_fin b m0) as (m1 & E1 & L1 & A1 & O1). rewrite E1.
    destruct (IH m1) as (m & E & L & A & O).
    exists m. split; [exact E|]. split; [lra|]. split.
    + intros b' r [<-|Hb] Hr.
      * specialize (A1 r Hr). lra.
      * apply (A b' r Hb Hr).
    + destruct O as [->|(b' & Hb & Hm)].
      * destruct O1 as [->|Hm]; [left; reflexivity|].
        right. exists b. split; [left; reflexivity|exact Hm].
      * right. exists b'. split; [right; exact Hb|exact Hm].
Qed.

(** X13: whatever the number and the size of the batches of the first
    loop, when the density ratios are numbers the maximum that the loop
    leaves is a number, not negative, at least every density ratio that
    the loop has seen, and either one of them or the 0 that it started
    from. *)
Theorem evaluate_M_dominates (batches : list (list R)) :
  exists m,
    evaluate_M (map (map Fin) batches) = Fin m /\ 0 <= m /\
    (forall b r, In b batches -> In r b -> r <= m) /\
    (m = 0 \/ exists b, In b batches /\ In m b).
Proof.
  exact (evaluate_M_from batches 0).
Qed.

(** X14: the loop that draws until a sample is accepted, for [eps] at least
    [float32_spacing]: it never lowers the running maximum; the sample that
    it accepts is one of those drawn, and its density ratio is positive and
    strictly below the maximum that the loop leaves. *)
Theorem accept_loop_invariant (draws : list (R * R)) (args : drs_args) :
  float32_spacing <= eps_drs args ->
  (forall d, In d draws -> 0 <= fst d /\ 0 <= snd d) ->
  forall (M : R) (M' : xreal) (r : option xreal),
    0 <= M ->
    accept_loop (Fin M) (map (fun d => (Fin (fst d), Fin (snd d))) draws) args
    = (M', r) ->
    exists m',
      M' = Fin m' /\ M <= m' /\
      forall q, r = Some q ->
        exists pq, q = Fin pq /\ In pq (map fst draws) /\ 0 < pq < m'.
Proof.
  intros He. induction draws as [|[pq u] draws IH]; intros Hd M M' r HM H.
  - cbn in H. inversion H; subst. exists M. split; [reflexivity|].
    split; [lra|]. intros q E. discriminate E.
  - cbn [map accept_loop fst snd] in H.
    destruct (Hd (pq, u) (or_introl eq_refl)) as [Hp Hu]. cbn [fst snd] in *.
    destruct (proposal (Fin M) (Fin pq) (Fin u) args) as [M1 acc] eqn:P.
    destruct acc.
    + inversion H; subst M' r.
      destruct (proposal_accepted_below M pq u args M1 He HM Hp Hu P)
        as (-> & Pb).
      exists M. split; [reflexivity|]. split; [lra|].
      intros q E. inversion E; subst q. exists pq.
      split; [reflexivity|]. split; [left; reflexivity|exact Pb].
    + assert (E1 : M1 = Fin (if Rlt_dec pq M then M else pq)).
      { unfold proposal in P. rewrite xmax_fin in P. inversion P. reflexivity. }
      subst M1.
      assert (HM1 : 0 <= (if Rlt_dec pq M then M else pq))
        by (destruct (Rlt_dec pq M); lra).
      destruct (IH (fun d Hin => Hd d (or_intror Hin)) _ M' r HM1 H)
        as (m' & EM & Lm & Acc).
      exists m'. split; [exact EM|]. split.
      { destruct (Rlt_dec pq M); lra. }
      intros q E. destruct (Acc q E) as (pq' & Eq & Hin & Pb).
      exists pq'. split; [exact Eq|]. split; [right; exact Hin|exact Pb].
Qed.

End GenerationLoops.

(** ** [Discriminator] *)

Section DiscriminatorFacts.
Local Open Scope R_scope.

Lemma odds_of_sigmoid (v : R) : sigmoid v / (1 - sigmoid v) = exp v.
Proof.
  unfold sigmoid. pose proof (exp_pos (- v)) as E.
  rewrite exp_Ropp in *. pose proof (exp_pos v) as P.
  field. split; lra.
Qed.

(** X15: on every batch on which [forward] returns, [pq] returns a tensor
    of the same shape with entries between 0 and 200; over the reals an
    entry is the odds [D / (1 - D)] of the entry [D] of [forward], capped at
    200 (in float32 the exponential can round to 0 and the two sides agree
    up to rounding).  When [forward] raises, [pq] raises the same error. *)
Theorem Discriminator_pq_is_capped_odds (img : rtensor) :
  match Discriminator_forward img with
  | Ok d =>
      exists q,
        Discriminator_pq img = Ok q /\ shape q = shape d /\
        forall idx,
          0 <= get q idx <= 200 /\
          get q idx = Rmin (get d idx / (1 - get d idx)) 200
  | Raise e => Discriminator_pq img = Raise e
  end.
Proof.
  unfold Discriminator_forward, Discriminator_pq.
  destruct (Discriminator_logit _) as [v|e]; cbn [bind]; [|reflexivity].
  eexists. split; [reflexivity|]. split; [reflexivity|].
  intros idx. cbn [clamp_max tmap get]. rewrite odds_of_sigmoid.
  split; [|reflexivity].
  pose proof (exp_pos (get v idx)) as P.
  unfold Rmin. destruct (Rle_dec (exp (get v idx)) 200); lra.
Qed.

End DiscriminatorFacts.

(** ** [utils.py] and [train.py] *)

Section UtilsFacts.
Local Open Scope R_scope.

Lemma unit_interval_in_logit_domain (y : rtensor) :
  (forall idx, in_range idx (shape y) -> 0 <= get y idx <= 1) ->
  in_logit_domain LogitTransform_new y.
Proof.
  intros H idx Hidx. specialize (H idx Hidx).
  cbn [LogitTransform_new lt_alpha]. lra.
Qed.

(** X16: for pixels between 0 and 1 and a uniform draw in [0, 1), the
    dequantization returns, over the reals, [(255 x + u) / 256] at every
    index, a value between 0 and 1 (in float32 the sum [255 + u] can round
    to 256 and the value to 1, so the upper bound is stated with [<=]);
    the logit of the first layer of the model is defined on it, as it is on
    every tensor with values between 0 and 1, both ends included. *)
Theorem AddNoise_keeps_logit_defined (rand : list nat -> R) (x : rtensor) :
  (forall idx, in_range idx (shape x) -> 0 <= get x idx <= 1) ->
  (forall idx, 0 <= rand idx < 1) ->
  (exists y,
     AddNoise_forward rand x = Ok y /\ shape y = shape x /\
     (forall idx, in_range idx (shape x) ->
        get y idx = (get x idx * 255 + rand idx) / 256 /\
        0 <= get y idx <= 1) /\
     in_logit_domain LogitTransform_new y) /\
  (forall y' : rtensor,
     (forall idx, in_range idx (shape y') -> 0 <= get y' idx <= 1) ->
     in_logit_domain LogitTransform_new y').
Proof.
  intros Hx Hu. split; [|exact unit_interval_in_logit_domain].
  unfold AddNoise_forward, tadd.
  rewrite (binop_same Rplus _ _ (shape x)) by reflexivity.
  cbn [bind]. eexists. split; [reflexivity|]. split; [reflexivity|].
  assert (V : forall idx, in_range idx (shape x) ->
            get (tmap (fun r => r / AddNoise_nvals)
                   (mkT (shape x)
                      (fun idx0 =>
                         get (tmap (fun r => r * (AddNoise_nvals - 1)) x)
                             (bidx (shape x) idx0)
                         + get (mkT (shape x) rand) (bidx (shape x) idx0))))
                idx
            = (get x idx * 255 + rand idx) / 256).
  { intros idx Hidx. cbn [tmap get]. rewrite (bidx_in_range _ _ Hidx).
    unfold AddNoise_nvals. cbn [pow]. lra. }
  split.
  - intros idx Hidx. rewrite (V idx Hidx). split; [reflexivity|].
    specialize (Hx idx Hidx). specialize (Hu idx). lra.
  - apply unit_interval_in_logit_domain.
    intros idx Hidx. cbn [tmap shape] in Hidx. rewrite (V idx Hidx).
    specialize (Hx idx Hidx). specialize (Hu idx). lra.
Qed.

Lemma unravel_one (b n : nat) : unravel [b] n = [n].
Proof.
  cbn [unravel numel]. rewrite Nat.div_1_r. reflexivity.
Qed.

Lemma NLLLoss_forward_value (self : NLLLoss) (z sldj : rtensor)
  (b c h w : nat) :
  shape z = [b; c; h; w] -> shape sldj = [b] ->
  exists nll bpd,
    NLLLoss_forward self z sldj = Ok (nll, bpd) /\
    shape nll = [] /\ shape bpd = [] /\
    get nll []
    = Rsum b (fun i =>
        - (Rsum (numel [c; h; w])
             (fun j => Normal_log_prob (get z (i :: unravel [c; h; w] j)))
           - ln (nll_k self) * INR (numel [c; h; w])
           + get sldj [i])) / INR b /\
    get bpd [] = get nll [] / (ln 2 * INR (numel [c; h; w])).
Proof.
  intros Hz Hs. unfold NLLLoss_forward, flatten1. cbn [tmap shape].
  rewrite Hz. cbn [bind]. unfold sum_last.
  cbn [shape rev app removelast bind]. unfold tadd.
  rewrite (binop_same Rplus _ sldj [b]) by (try reflexivity; exact Hs).
  cbn [bind]. do 2 eexists. split; [reflexivity|].
  split; [reflexivity|]. split; [reflexivity|].
  unfold bits_per_dim, prod_sizes_after_first, mean_all.
  cbn [scalar get shape tmap]. rewrite Hz. cbn [tl].
  replace (numel [b]) with b by (cbn [numel]; lia).
  split.
  - f_equal. apply Rsum_ext. intros i Hi. rewrite unravel_one.
    rewrite (bidx_in_range [b] [i]) by (repeat constructor; exact Hi).
    reflexivity.
  - unfold Rdiv. rewrite Rsum_scale. ring.
Qed.

(** X17: for a latent of shape (B, C, H, W) that is not empty and an
    accumulator with one entry per element of the batch, the criterion
    returns two numbers: the mean over the batch of
    [- (sum of log_prob(z) - log k * C H W + sldj)], and the bits per
    dimension, which is that mean divided by [log 2 * C H W]. *)
Theorem NLLLoss_bpd_is_scaled_nll (self : NLLLoss) (z sldj : rtensor)
  (b c h w : nat) :
  shape z = [b; c; h; w] -> shape sldj = [b] ->
  (0 < b)%nat -> (0 < c)%nat -> (0 < h)%nat -> (0 < w)%nat ->
  exists nll bpd,
    NLLLoss_forward self z sldj = Ok (nll, bpd) /\
    shape nll = [] /\ shape bpd = [] /\
    get nll []
    = Rsum b (fun i =>
        - (Rsum (numel [c; h; w])
             (fun j => Normal_log_prob (get z (i :: unravel [c; h; w] j)))
           - ln (nll_k self) * INR (numel [c; h; w])
           + get sldj [i])) / INR b /\
    get bpd [] = get nll [] / (ln 2 * INR (numel [c; h; w])).
Proof.
  intros Hz Hs _ _ _ _. exact (NLLLoss_forward_value self z sldj b c h w Hz Hs).
Qed.

End UtilsFacts.

(** X18: the evaluation step of the training script on a new model: for a
    batch of shape (B, C, 2^(n+1) H, 2^(n+1) W), where [n] is the number of
    levels that the constructor builds, the model returns a latent and an
    accumulator with one entry per element of the batch, and the criterion
    returns a number for them; no operation of the step raises. *)
Theorem one_step_eval_returns (in_channels mid num_levels num_steps seed : nat)
  (p : params) (inputs : rtensor) (b h w : nat) :
  batchnorm p = false ->
  0 < b -> 0 < h -> 0 < w ->
  shape inputs = [b; in_channels; 2 ^ S (num_built_levels num_levels) * h;
                                  2 ^ S (num_built_levels num_levels) * w] ->
  exists v g',
    one_step_eval inputs
      (fst (Glow_new in_channels mid num_levels num_steps p seed)) NLLLoss_new
    = Ok (v, g') /\
    shape v = [].
Proof.
  intros Hp Pb Ph Pw Hx. unfold one_step_eval, size. rewrite Hx.
  cbn [nth_error bind].
  destruct (Glow_forward_shape in_channels mid num_levels num_steps seed p
              inputs (Some (zeros [b])) b h w Hp Pb Ph Pw Hx)
    as (y & l & g' & E & Sy & A).
  { intros t Et. inversion Et. reflexivity. }
  rewrite E. cbn [bind].
  destruct l as [s|]; [|discriminate A].
  cbn [acc_shape option_map zeros shape] in A. inversion A as [Ss].
  destruct (NLLLoss_forward_value NLLLoss_new y s b _ h w Sy Ss)
    as (nll & bpd & En & _ & Sb & _).
  rewrite En. cbn [bind]. do 2 eexists. split; [reflexivity|].
  cbn [tmap shape]. exact Sb.
Qed.

(** ** The reverse direction on a latent *)

Lemma InvConv_reverse_shape (ic : InvConv) (x : rtensor) (l : option rtensor)
  (b c h w : nat) :
  ic_num_channels ic = c -> InvConv_invertible ic ->
  shape x = [b; c; h; w] -> 0 < h -> 0 < w ->
  exists z l',
    InvConv_forward ic x l true = Ok (z, l') /\
    shape z = [b; c; h; w] /\
    acc_shape l' = acc_shape l.
Proof.
  intros Hc (w' & Ei & Sw' & _) Hx Ph Pw. rewrite Hc in *.
  unfold InvConv_forward.
  destruct (InvConv_sldj_value ic x l true b c h w Hx) as (l1 & E1 & A1 & _).
  rewrite E1. cbn [bind]. rewrite Hc, Ei. cbn [bind].
  destruct (conv2d_matrix x w' b c h w Hx Sw' Ph Pw) as (z & Ez & Sz & _).
  cbn [bind] in Ez.
  destruct (view w' [c; c; 1; 1]) as [kernel|e] eqn:Ek;
    cbn [bind] in Ez |- *; [|discriminate].
  rewrite Ez. cbn [bind]. exists z, l1.
  split; [reflexivity|]. split; [exact Sz|exact A1].
Qed.

Lemma Coupling_reverse_shape (cp : Coupling) (x : rtensor) (l : option rtensor)
  (k mid b h w : nat) :
  Coupling_shapes cp k mid ->
  shape x = [b; 2 * k; h; w] -> 0 < h -> 0 < w ->
  acc_per_batch l b ->
  exists y l' cp',
    Coupling_forward cp x l true = Ok (y, l', cp') /\
    shape y = [b; 2 * k; h; w] /\
    acc_shape l' = acc_shape l.
Proof.
  intros [Hn Hsc] Hx Ph Pw Hl.
  assert (Sid : shape (narrow x 1 k k) = [b; k; h; w]).
  { unfold narrow. cbn [shape]. rewrite Hx. reflexivity. }
  destruct (NN_forward_shape (cp_nn cp) (narrow x 1 k k) b k mid (2 * k) h w
              Hn Sid Ph Pw) as (st & net' & En & Sst & _).
  destruct (Coupling_forward_value cp x l true k b h w st net' Hsc Hx En Sst Hl)
    as (y & l' & s & E & Sy & _ & _ & _ & _ & Sl & _).
  exists y, l', {| cp_nn := net'; cp_scale := cp_scale cp |}.
  split; [exact E|]. split; [exact Sy|exact Sl].
Qed.

Lemma _FlowStep_reverse_shape (fs : _FlowStep) (x : rtensor)
  (l : option rtensor) (c mid b h w : nat) :
  _FlowStep_ready fs c mid ->
  Nat.even c = true ->
  shape x = [b; c; h; w] -> 0 < h -> 0 < w ->
  acc_per_batch l b ->
  exists y l' fs',
    _FlowStep_forward fs x l true = Ok (y, l', fs') /\
    shape y = [b; c; h; w] /\
    acc_shape l' = acc_shape l.
Proof.
  intros [(Hp & Hr & Hc & Hw & Hcp) Hinv] Hev Hx Ph Pw Hacc.
  unfold _FlowStep_forward.
  assert (Hx' : shape x = [b; 2 * (c / 2); h; w]).
  { rewrite even_twice_half by exact Hev. exact Hx. }
  destruct (Coupling_reverse_shape (fs_coup fs) x l (c / 2) mid b h w
              Hcp Hx' Ph Pw Hacc)
    as (x1 & l1 & cp' & E1 & S1 & A1).
  rewrite E1. cbn [bind].
  rewrite even_twice_half in S1 by exact Hev.
  destruct (InvConv_reverse_shape (fs_conv fs) x1 l1 b c h w Hc Hinv S1 Ph Pw)
    as (x2 & l2 & E2 & S2 & A2).
  rewrite E2. cbn [bind].
  destruct (norm_call_pair_shape (fs_norm fs) x2 l2 true b c h w Hp Hr S2)
    as (x3 & l3 & a' & E3 & S3 & A3).
  rewrite E3. cbn [bind].
  do 3 eexists. split; [reflexivity|]. split; [exact S3|]. congruence.
Qed.

Lemma run_steps_reverse_shape (steps : list _FlowStep) (c mid b h w : nat) :
  Forall (fun fs => _FlowStep_ready fs c mid) steps ->
  Nat.even c = true -> 0 < h -> 0 < w ->
  forall (x : rtensor) (l : option rtensor),
    shape x = [b; c; h; w] ->
    acc_per_batch l b ->
    exists y l' steps',
      run_steps steps x l true = Ok (y, l', steps') /\
      shape y = [b; c; h; w] /\
      acc_shape l' = acc_shape l.
Proof.
  intros Hall Hev Ph Pw.
  induction Hall as [|fs steps Hfs _ IH]; intros x l Hx Hacc.
  - cbn [run_steps]. do 3 eexists. split; [reflexivity|].
    split; [exact Hx|reflexivity].
  - cbn [run_steps].
    destruct (_FlowStep_reverse_shape fs x l c mid b h w Hfs Hev Hx Ph Pw Hacc)
      as (x1 & l1 & fs' & E1 & S1 & A1).
    rewrite E1. cbn [bind].
    destruct (IH x1 l1 S1 (acc_per_batch_same l l1 b A1 Hacc))
      as (x2 & l2 & steps' & E2 & S2 & A2).
    rewrite E2. cbn [bind]. do 3 eexists. split; [reflexivity|].
    split; [exact S2|]. congruence.
Qed.

Lemma _Glow_reverse_shape (mid : nat) :
  forall (n : nat) (g : _Glow), _Glow_depth g = n ->
  forall (c b h w : nat) (x : rtensor) (l : option rtensor),
    _Glow_ready g c mid ->
    Nat.even c = true -> 0 < h -> 0 < w ->
    shape x = [b; 4 ^ n * c; h; w] ->
    acc_per_batch l b ->
    exists y l' g',
      _Glow_forward g x l true = Ok (y, l', g') /\
      shape y = [b; c; 2 ^ n * h; 2 ^ n * w] /\
      acc_shape l' = acc_shape l.
Proof.
  induction n as [|n IH]; intros g Hd c b h w x l Hg Hev Ph Pw Hx Hacc.
  { destruct g as [steps [lower|]]; discriminate Hd. }
  destruct g as [steps next]. cbn [_Glow_ready] in Hg.
  destruct Hg as [Hsteps Hnext].
  assert (P2 : 0 < 2 ^ n) by (apply Nat.neq_0_lt_0, Nat.pow_nonzero; lia).
  assert (Tail : forall (x1 : rtensor) (l1 : option rtensor),
             shape x1 = [b; 4 * c; 2 ^ n * h; 2 ^ n * w] ->
             acc_per_batch l1 b ->
             exists y l' steps',
               (' (x2, l2) <- squeeze_step true (x1, l1);;
                run_steps_reversed steps x2 l2 true) = Ok (y, l', steps') /\
               shape y = [b; c; 2 ^ S n * h; 2 ^ S n * w] /\
               acc_shape l' = acc_shape l1).
  { intros x1 l1 S1 Hacc1.
    destruct (unsqueeze_roundtrip R x1 b c (2 ^ n * h) (2 ^ n * w) S1)
      as (x2 & _ & E2 & S2 & _).
    unfold squeeze_step. cbn [fst snd]. rewrite E2. cbn [bind].
    unfold run_steps_reversed.
    destruct (run_steps_reverse_shape (rev steps) c mid b
                (2 ^ n * h * 2) (2 ^ n * w * 2)
                (Forall_rev Hsteps) Hev ltac:(nia) ltac:(nia) x2 l1 S2 Hacc1)
      as (y & l' & steps' & E3 & S3 & A3).
    rewrite E3. cbn [bind]. do 3 eexists. split; [reflexivity|].
    split; [|exact A3].
    rewrite S3. cbn [Nat.pow]. repeat (f_equal; try lia). }
  destruct next as [lower|].
  - cbn [_Glow_depth] in Hd. injection Hd as Hd.
    assert (Hx' : shape x = [b; 4 ^ n * (4 * c); h; w]).
    { rewrite Hx. cbn [Nat.pow]. repeat (f_equal; try lia). }
    destruct (IH lower Hd (4 * c) b h w x l Hnext (even_4_mul c) Ph Pw Hx' Hacc)
      as (x1 & l1 & lower' & E1 & S1 & A1).
    destruct (Tail x1 l1 S1 (acc_per_batch_same l l1 b A1 Hacc))
      as (y & l' & steps' & E2 & S2 & A2).
    exists y, l', (mkGlowLevel steps' (Some lower')).
    split; [|split; [exact S2|congruence]].
    cbn [_Glow_forward negb bind]. rewrite E1. cbn [bind].
    destruct (squeeze_step true (x1, l1)) as [[x2 l2]|e];
      cbn [bind] in E2 |- *; [|discriminate].
    rewrite E2. cbn [bind]. reflexivity.
  - cbn [_Glow_depth] in Hd. injection Hd as Hd. subst n.
    assert (Hx' : shape x = [b; 4 * c; 2 ^ 0 * h; 2 ^ 0 * w]).
    { rewrite Hx. cbn [Nat.pow]. repeat (f_equal; try lia). }
    destruct (Tail x l Hx' Hacc) as (y & l' & steps' & E2 & S2 & A2).
    exists y, l', (mkGlowLevel steps' None).
    split; [|split; [exact S2|exact A2]].
    cbn [_Glow_forward negb bind].
    destruct (squeeze_step true (x, l)) as [[x2 l2]|e];
      cbn [bind] in E2 |- *; [|discriminate].
    rewrite E2. cbn [bind]. reflexivity.
Qed.

(** X19: the call of the sampling script, [model(sample, None, True)]: on a
    latent of shape (B, 4^(n+1) C, H, W) the reverse direction of a model of
    [n] levels returns a batch of images of shape
    (B, C, 2^(n+1) H, 2^(n+1) W) and no accumulator; none of the inverse
    convolutions, unsqueezes and couplings raises. *)
Theorem Glow_reverse_returns_images (g : Glow) (z : rtensor)
  (n c mid b h w : nat) :
  _Glow_depth (glow_flows g) = n ->
  _Glow_ready (glow_flows g) (4 * c) mid ->
  0 < h -> 0 < w ->
  shape z = [b; 4 ^ S n * c; h; w] ->
  exists x g',
    Glow_forward g z None true = Ok (x, None, g') /\
    shape x = [b; c; 2 ^ S n * h; 2 ^ S n * w].
Proof.
  intros Hd Hg Ph Pw Hz.
  assert (Hz' : shape z = [b; 4 ^ n * (4 * c); h; w]).
  { rewrite Hz. cbn [Nat.pow]. repeat (f_equal; try lia). }
  destruct (_Glow_reverse_shape mid n (glow_flows g) Hd (4 * c) b h w z None
              Hg (even_4_mul c) Ph Pw Hz' ltac:(discriminate))
    as (x1 & l1 & flows' & E1 & S1 & A1).
  apply acc_shape_none in A1. subst l1.
  destruct (unsqueeze_roundtrip R x1 b c (2 ^ n * h) (2 ^ n * w) S1)
    as (x2 & _ & E2 & S2 & _).
  unfold Glow_forward. cbn [negb bind]. rewrite E1. cbn [bind].
  unfold squeeze_step. cbn [fst snd]. rewrite E2. cbn [bind].
  unfold LogitTransform_forward, LogitTransform_inverse. cbn [bind].
  do 2 eexists. split; [reflexivity|].
  cbn [tmap shape]. rewrite S2. cbn [Nat.pow]. repeat (f_equal; try lia).
Qed.

(** ** The parameter groups of the optimizer *)

Section ParameterGroupFacts.
Import Stdlib.Strings.Ascii Stdlib.Strings.String.
Local Open Scope string_scope.

Lemma list_ascii_of_string_app (a b : string) :
  list_ascii_of_string (a ++ b)
  = (list_ascii_of_string a ++ list_ascii_of_string b)%list.
Proof.
  induction a as [|c a IH]; cbn; [reflexivity|]. rewrite IH. reflexivity.
Qed.

Lemma attribute_does_not_end_in_weight_g (path leaf : string) :
  In leaf parameter_attributes -> endswith (path ++ leaf) "weight_g" = false.
Proof.
  intros H. unfold endswith.
  rewrite list_ascii_of_string_app, rev_app_distr.
  destruct H as [<-|[<-|[<-|[<-|[]]]]]; reflexivity.
Qed.

Lemma fold_groups_all_unnormalized (parameter : Type) (suffix : string)
  (named : list (string * parameter)) :
  (forall np, In np named -> endswith (fst np) suffix = false) ->
  forall norm unnorm,
    fold_left
      (fun groups np =>
         if endswith (fst np) suffix
         then ((fst groups ++ [snd np])%list, snd groups)
         else (fst groups, (snd groups ++ [snd np])%list))
      named (norm, unnorm)
    = (norm, (unnorm ++ map snd named)%list).
Proof.
  induction named as [|np named IH]; intros H norm unnorm; cbn [fold_left map].
  - rewrite app_nil_r. reflexivity.
  - rewrite (H np (or_introl eq_refl)). cbn [fst snd].
    rewrite IH by (intros np' Hin; apply H; right; exact Hin).
    rewrite <- app_assoc. reflexivity.
Qed.

(** X20: the optimizer gives the weight decay of the command line to the
    group of the parameters whose name ends in [weight_g]; no parameter of
    the models of this repository has such a name, so that group is empty
    and every parameter, in the order of [named_parameters], is in the group
    that inherits the weight decay of the optimizer. *)
Theorem weight_decay_group_is_empty (parameter : Type)
  (named_parameters : list (string * parameter)) (weight_decay : R) :
  (forall np, In np named_parameters -> parameter_name (fst np)) ->
  get_param_groups named_parameters weight_decay "weight_g"
  = [ {| pg_name := "normalized"; pg_params := [];
         pg_weight_decay := Some weight_decay |};
      {| pg_name := "unnormalized"; pg_params := map snd named_parameters;
         pg_weight_decay := None |} ].
Proof.
  intros H. unfold get_param_groups.
  rewrite fold_groups_all_unnormalized.
  - reflexivity.
  - intros np Hin. destruct (H np Hin) as (path & leaf & Hl & ->).
    apply attribute_does_not_end_in_weight_g. exact Hl.
Qed.

End ParameterGroupFacts.

(** ** The state of the model after a call

    The only state that a call changes is that of the activation
    normalizations, and only in the call that initializes them. *)

Lemma ActNorm_initialize_parameters_settles (a a' : ActNorm) (x : rtensor) :
  ActNorm_initialize_parameters a x = Ok a' -> ActNorm_settled a'.
Proof.
  unfold ActNorm_initialize_parameters, ActNorm_settled. intros H.
  destruct (an_training a) eqn:T; cbn [negb] in H.
  - bind_all. right. cbn [an_is_initialized]. lia.
  - inversion H; subst. left. exact T.
Qed.

Lemma ActNorm_forward_state (a a' : ActNorm) (x : rtensor)
  (ldj : option rtensor) (reverse : bool) (r : ret) :
  ActNorm_forward a x ldj reverse = Ok (r, a') ->
  ActNorm_settled a' /\ (ActNorm_settled a -> a' = a).
Proof.
  intros H. split.
  - unfold ActNorm_forward in H.
    destruct (an_is_initialized a =? 0) eqn:Z.
    + bind_step H. apply ActNorm_initialize_parameters_settles in E.
      bind_step H. destruct v0 as [y l]. inversion H; subst. exact E.
    + cbn [bind] in H. bind_step H. destruct v as [y l].
      inversion H; subst. right. apply Nat.eqb_neq in Z. exact Z.
  - intros S. rewrite (ActNorm_forward_settled a x ldj reverse S) in H.
    bind_step H. destruct v as [y l]. inversion H. reflexivity.
Qed.

Lemma norm_fn_call_state (n n' : norm_fn) (x y : rtensor) :
  norm_fn_call n x = Ok (y, n') ->
  (norm_is_act n -> norm_settled n') /\ (norm_settled n -> n' = n).
Proof.
  intros H. destruct n as [a|bn].
  - unfold norm_fn_call in H. bind_step H. destruct v as [r a'].
    apply ActNorm_forward_state in E. destruct E as [S U].
    destruct r; [|discriminate H]. inversion H; subst.
    split; [intros _; exact S|]. intros Sa. cbn in Sa.
    rewrite (U Sa). reflexivity.
  - split; intros F; contradiction.
Qed.

Lemma NN_forward_state (net net' : NN) (x st : rtensor) :
  NN_forward net x = Ok (st, net') ->
  (NN_actnorm net -> NN_settled net') /\ (NN_settled net -> net' = net).
Proof.
  unfold NN_forward. intros H.
  bind_step H. destruct v as [x1 n1]. apply norm_fn_call_state in E.
  bind_step H. bind_step H.
  bind_step H. destruct v1 as [x4 n2]. apply norm_fn_call_state in E2.
  bind_step H.
  bind_step H. destruct v2 as [x6 n3]. apply norm_fn_call_state in E4.
  bind_step H. inversion H; subst; clear H.
  destruct E as [S1 U1], E2 as [S2 U2], E4 as [S3 U3].
  split.
  - intros (A1 & A2 & A3). split; [|split]; cbn; auto.
  - intros (T1 & T2 & T3). rewrite (U1 T1), (U2 T2), (U3 T3).
    destruct net; reflexivity.
Qed.

Lemma Coupling_forward_state (cp cp' : Coupling) (x y : rtensor)
  (l l' : option rtensor) (reverse : bool) :
  Coupling_forward cp x l reverse = Ok (y, l', cp') ->
  (NN_actnorm (cp_nn cp) -> NN_settled (cp_nn cp')) /\
  (NN_settled (cp_nn cp) -> cp' = cp).
Proof.
  unfold Coupling_forward. intros H.
  bind_step H. destruct v as [|x_change [|x_id [|? ?]]]; try discriminate H.
  bind_step H. destruct v as [st net']. apply NN_forward_state in E0.
  bind_step H. bind_step H. bind_step H.
  bind_step H. destruct v2 as [xc lc].
  bind_step H. inversion H; subst; clear H.
  destruct E0 as [S U]. cbn [cp_nn]. split; [exact S|].
  intros T. rewrite (U T). destruct cp; reflexivity.
Qed.

Lemma norm_call_pair_state (a a' : ActNorm) (x y : rtensor)
  (l l' : option rtensor) (reverse : bool) :
  norm_call_pair a x l reverse = Ok (y, l', a') ->
  ActNorm_settled a' /\ (ActNorm_settled a -> a' = a).
Proof.
  unfold norm_call_pair. intros H.
  bind_step H. destruct v as [r a1]. apply ActNorm_forward_state in E.
  destruct r as [y0|y0 l0].
  - bind_step H. destruct v as [y1 y2]. inversion H; subst. exact E.
  - inversion H; subst. exact E.
Qed.

Lemma _FlowStep_forward_state (fs fs' : _FlowStep) (x y : rtensor)
  (l l' : option rtensor) (reverse : bool) :
  _FlowStep_forward fs x l reverse = Ok (y, l', fs') ->
  (_FlowStep_actnorm fs -> _FlowStep_settled fs') /\
  (_FlowStep_settled fs -> fs' = fs).
Proof.
  unfold _FlowStep_forward. intros H.
  destruct reverse.
  - bind_step H. destruct v as [[x1 l1] cp'].
    apply Coupling_forward_state in E.
    bind_step H. destruct v as [x2 l2].
    bind_step H. destruct v as [[x3 l3] a'].
    apply norm_call_pair_state in E1.
    inversion H; subst; clear H. destruct E as [S U], E1 as [Sa Ua].
    split.
    + intros A. split; cbn [fs_norm fs_coup]; [exact Sa|exact (S A)].
    + intros [Ta Tn]. rewrite (U Tn), (Ua Ta). destruct fs; reflexivity.
  - bind_step H. destruct v as [[x1 l1] a'].
    apply norm_call_pair_state in E.
    bind_step H. destruct v as [x2 l2].
    bind_step H. destruct v as [[x3 l3] cp'].
    apply Coupling_forward_state in E1.
    inversion H; subst; clear H. destruct E as [Sa Ua], E1 as [S U].
    split.
    + intros A. split; cbn [fs_norm fs_coup]; [exact Sa|exact (S A)].
    + intros [Ta Tn]. rewrite (U Tn), (Ua Ta). destruct fs; reflexivity.
Qed.

Lemma run_steps_state (steps : list _FlowStep) (reverse : bool) :
  forall (x y : rtensor) (l l' : option rtensor) (steps' : list _FlowStep),
    run_steps steps x l reverse = Ok (y, l', steps') ->
    (Forall _FlowStep_actnorm steps -> Forall _FlowStep_settled steps') /\
    (Forall _FlowStep_settled steps -> steps' = steps).
Proof.
  induction steps as [|fs steps IH]; intros x y l l' steps' H.
  - cbn in H. inversion H; subst. split; [intros _; constructor|reflexivity].
  - cbn [run_steps] in H.
    bind_step H. destruct v as [[x1 l1] fs'].
    apply _FlowStep_forward_state in E. destruct E as [S U].
    bind_step H. destruct v as [[x2 l2] rest'].
    apply IH in E. destruct E as [SR UR].
    inversion H; subst; clear H. split.
    + intros A. inversion A; subst. constructor; auto.
    + intros T. inversion T; subst. rewrite U, UR by assumption.
      reflexivity.
Qed.

Lemma run_steps_reversed_state (steps : list _FlowStep) (reverse : bool)
  (x y : rtensor) (l l' : option rtensor) (steps' : list _FlowStep) :
  run_steps_reversed steps x l reverse = Ok (y, l', steps') ->
  (Forall _FlowStep_actnorm steps -> Forall _FlowStep_settled steps') /\
  (Forall _FlowStep_settled steps -> steps' = steps).
Proof.
  unfold run_steps_reversed. intros H.
  bind_step H. destruct v as [[x1 l1] s1].
  apply run_steps_state in E. destruct E as [S U].
  inversion H; subst; clear H. split.
  - intros A. apply Forall_rev. apply S. apply Forall_rev. exact A.
  - intros T. rewrite U by (apply Forall_rev; exact T).
    apply rev_involutive.
Qed.

Lemma _Glow_forward_state :
  forall (g g' : _Glow) (x y : rtensor) (l l' : option rtensor)
         (reverse : bool),
    _Glow_forward g x l reverse = Ok (y, l', g') ->
    (_Glow_actnorm g -> _Glow_settled g') /\
    (_Glow_settled g -> g' = g).
Proof.
  fix IH 1. intros [steps next] g' x y l l' reverse H.
  cbn [_Glow_forward] in H.
  bind_step H. destruct v as [[x1 l1] steps1].
  assert (H1 : (Forall _FlowStep_actnorm steps ->
                reverse = false -> Forall _FlowStep_settled steps1) /\
               (reverse = true -> steps1 = steps) /\
               (Forall _FlowStep_settled steps -> steps1 = steps)).
  { destruct reverse; cbn [negb] in E.
    - inversion E; subst.
      split; [intros _ F; discriminate F|]. split; reflexivity.
    - bind_step E. destruct v as [[x0 l0] steps0].
      apply run_steps_state in E0. destruct E0 as [S U].
      bind_step E. destruct v as [x2 l2]. inversion E; subst.
      split; [intros A _; exact (S A)|]. split; [intros F; discriminate F|exact U]. }
  bind_step H. destruct v as [[x2 l2] next2].
  assert (H2 : (match next with Some lower => _Glow_actnorm lower | None => True end ->
                match next2 with Some lower => _Glow_settled lower | None => True end) /\
               (match next with Some lower => _Glow_settled lower | None => True end ->
                next2 = next)).
  { destruct next as [lower|].
    - bind_step E0. destruct v as [[x0 l0] lower0].
      apply IH in E1. destruct E1 as [S U].
      inversion E0; subst. split; [exact S|].
      intros T. rewrite (U T). reflexivity.
    - inversion E0; subst. split; [intros _; exact I|reflexivity]. }
  bind_step H. destruct v as [[x3 l3] steps3].
  inversion H; subst; clear H.
  destruct H1 as (S1 & R1 & U1), H2 as (S2 & U2).
  destruct reverse.
  - specialize (R1 eq_refl). subst steps1.
    bind_step E1. destruct v as [x4 l4].
    apply run_steps_reversed_state in E1. destruct E1 as [S3 U3].
    split.
    + intros [A1 A2]. cbn [_Glow_settled]. split; [exact (S3 A1)|exact (S2 A2)].
    + intros [T1 T2]. rewrite (U3 T1), (U2 T2). reflexivity.
  - inversion E1; subst. split.
    + intros [A1 A2]. cbn [_Glow_settled].
      split; [exact (S1 A1 eq_refl)|exact (S2 A2)].
    + intros [T1 T2]. rewrite (U1 T1), (U2 T2). reflexivity.
Qed.

Lemma Glow_forward_state (g g' : Glow) (x y : rtensor)
  (l l' : option rtensor) (reverse : bool) :
  Glow_forward g x l reverse = Ok (y, l', g') ->
  (_Glow_actnorm (glow_flows g) -> _Glow_settled (glow_flows g')) /\
  (_Glow_settled (glow_flows g) -> g' = g).
Proof.
  unfold Glow_forward. intros H.
  bind_step H. destruct v as [x1 l1].
  bind_step H. destruct v as [[x2 l2] flows].
  apply _Glow_forward_state in E0. destruct E0 as [S U].
  bind_step H. destruct v as [x3 l3].
  inversion H; subst. cbn [glow_flows]. split; [exact S|].
  intros T. rewrite (U T). destruct g; reflexivity.
Qed.

Lemma norm_ok_is_act (n : norm_fn) (nc : nat) : norm_ok n nc -> norm_is_act n.
Proof.
  destruct n; [intros _; exact I|intros F; exact F].
Qed.

Lemma _FlowStep_ready_actnorm (fs : _FlowStep) (c mid : nat) :
  _FlowStep_ready fs c mid -> _FlowStep_actnorm fs.
Proof.
  intros [(_ & _ & _ & _ & [(N1 & _ & _ & N2 & _ & N3 & _) _]) _].
  split; [|split]; eapply norm_ok_is_act; eassumption.
Qed.

Lemma _Glow_ready_actnorm (mid : nat) :
  forall (g : _Glow) (c : nat), _Glow_ready g c mid -> _Glow_actnorm g.
Proof.
  fix IH 1. intros [steps next] c [Hs Hn]. cbn [_Glow_actnorm]. split.
  - clear Hn. induction Hs as [|fs steps Hfs _ IHs]; constructor.
    + exact (_FlowStep_ready_actnorm fs c mid Hfs).
    + exact IHs.
  - destruct next as [lower|]; [|exact I]. exact (IH lower (4 * c) Hn).
Qed.

(** X22: a call of the model that returns, in either direction, leaves no
    activation normalization to be initialized, when the model uses no
    batch normalization: after it, the model is settled. *)
Theorem Glow_forward_settles_model (g g' : Glow) (x y : rtensor)
  (l l' : option rtensor) (reverse : bool) :
  _Glow_actnorm (glow_flows g) ->
  Glow_forward g x l reverse = Ok (y, l', g') ->
  _Glow_settled (glow_flows g').
Proof.
  intros A H. exact (proj1 (Glow_forward_state g g' x y l l' reverse H) A).
Qed.

(** X23: a call on a settled model, in either direction and on any input,
    returns the model as it was: the data-dependent initialization happens
    once, and nothing else in [forward] changes the state. *)
Theorem Glow_forward_keeps_settled_model (g g' : Glow) (x y : rtensor)
  (l l' : option rtensor) (reverse : bool) :
  _Glow_settled (glow_flows g) ->
  Glow_forward g x l reverse = Ok (y, l', g') ->
  g' = g.
Proof.
  intros T H. exact (proj2 (Glow_forward_state g g' x y l l' reverse H) T).
Qed.

(** ** [mean_dim] without [keepdims] *)

Section MeanDimFacts.
Local Open Scope R_scope.

(** X24: for the batch and the two spatial dimensions given in any order,
    [mean_dim] sorts them, takes the three means and, without [keepdims],
    squeezes the dimensions 0, 2 - 1 and 3 - 2 of what is left: the result
    has one entry per channel, the mean over batch, rows and columns, which
    is the entry that the call with [keepdims] holds at (0, c, 0, 0). *)
Theorem mean_dim_squeezes_reduced_dims (x : rtensor) (dim : list nat)
  (nb nc nh nw : nat) :
  shape x = [nb; nc; nh; nw] ->
  sorted dim = [0; 2; 3]%nat ->
  exists m mk,
    mean_dim x (Some dim) false = Ok m /\
    mean_dim x (Some dim) true = Ok mk /\
    shape m = [nc] /\ shape mk = [1; nc; 1; 1]%nat /\
    forall c,
      get m [c] = mean3 nb nh nw (fun k0 k2 k3 => get x [k0; c; k2; k3]) /\
      get mk [0; c; 0; 0]%nat = get m [c].
Proof.
  intros Hs Hd.
  assert (M : mean_over x [0; 2; 3]%nat
              = Ok (mkT [1; nc; 1; 1]%nat
                      (fun idx =>
                         Rsum nw (fun k3 =>
                           Rsum nh (fun k2 =>
                             Rsum nb (fun k0 =>
                               get x (set_nth 0 k0
                                        (set_nth 2 k2 (set_nth 3 k3 idx))))
                             / INR nb) / INR nh) / INR nw))).
  { cbn [mean_over]. unfold mean_keepdim at 1. rewrite Hs.
    cbn [nth_error bind set_nth].
    unfold mean_keepdim at 1. cbn [shape nth_error bind set_nth].
    unfold mean_keepdim at 1. cbn [shape nth_error bind set_nth get].
    reflexivity. }
  unfold mean_dim. rewrite Hd, M. cbn [bind].
  cbn [squeeze_over Nat.sub]. unfold squeeze_ at 1.
  cbn [shape nth_error remove_nth bind].
  unfold squeeze_ at 1. cbn [shape nth_error remove_nth bind].
  unfold squeeze_ at 1. cbn [shape nth_error remove_nth bind].
  do 2 eexists. split; [reflexivity|]. split; [reflexivity|].
  split; [reflexivity|]. split; [reflexivity|].
  intros c. split; reflexivity.
Qed.

End MeanDimFacts.

End Model.

(** ** The theorems at concrete inputs *)

Close Scope R_scope.
Unset Implicit Arguments.

Lemma squeeze_unsqueeze_exact_witness :
  exists y x',
    squeeze_step false (mkT [1; 1; 2; 2] (fun idx => idx), @None unit)
    = Ok (y, None) /\
    squeeze_step true (y, @None unit) = Ok (x', None) /\
    shape y = [1; 4 * 1; 2 / 2; 2 / 2] /\
    teq x' (mkT [1; 1; 2; 2] (fun idx => idx)).
Proof.
  exact (proj1 (squeeze_unsqueeze_exact (list nat) unit
                  (mkT [1; 1; 2; 2] (fun idx => idx)) None 1 1 2 2
                  eq_refl eq_refl eq_refl)).
Defined.

Lemma default_eps_above_spacing : (float32_spacing <= eps_drs default_args)%R.
Proof.
  unfold float32_spacing. cbn [default_args eps_drs].
  apply (Rle_trans _ (/ 1000)); [|lra].
  apply Rinv_le_contravar; [lra|]. cbn [pow]. lra.
Qed.


Lemma two_pixels_mean :
  mean3 2 1 1 (fun k0 k2 k3 => get two_pixels [k0; 0; k2; k3]) = 2%R.
Proof.
  unfold mean3. cbn [Rsum INR two_pixels get]. lra.
Qed.

Lemma two_pixels_variance :
  mean3 2 1 1
    (fun k0 k2 k3 => ((get two_pixels [k0; 0%nat; k2; k3] - 2) ^ 2)%R)
  = 1%R.
Proof.
  unfold mean3. cbn [Rsum INR two_pixels get pow]. lra.
Qed.

Lemma ActNorm_one_shot_init_witness :
  (exists r1 a1 r2,
      ActNorm_forward (ActNorm_new 1 1 true) two_pixels None false
      = Ok (r1, a1) /\
      an_is_initialized a1 = 1 /\
      get (an_bias a1) [0; 0; 0; 0] = (- 2)%R /\
      get (an_logs a1) [0; 0; 0; 0] = ln (1 / (1 + 1 / 1000000))%R /\
      ActNorm_forward a1 (full [3; 1; 2; 2] 7) None false = Ok (r2, a1)) /\
  (exists r,
      ActNorm_forward (ActNorm_eval (ActNorm_new 1 1 true))
                      two_pixels None false
      = Ok (r, ActNorm_eval (ActNorm_new 1 1 true))).
Proof.
  pose proof (ActNorm_one_shot_init 1 1 true
                two_pixels (full [3; 1; 2; 2] 7)
                None None false false 2 1 1 3 2 2 eq_refl eq_refl)
    as (First & _ & Inference).
  split.
  - destruct First
      as (r1 & a1 & bias & logs & E1 & _ & _ & _ & _ & F & B & L & r2 & E2).
    exists r1, a1, r2. split; [exact E1|]. split; [exact F|].
    split.
    { rewrite (B 0 ltac:(lia)), two_pixels_mean. reflexivity. }
    split; [|exact E2].
    rewrite (L ltac:(lia) ltac:(lia) ltac:(lia) ltac:(lra) 0 ltac:(lia)).
    rewrite two_pixels_mean, two_pixels_variance, sqrt_1. reflexivity.
  - apply (Inference (ActNorm_eval (ActNorm_new 1 1 true))
             two_pixels None false 2 1 1 1).
    + split; reflexivity.
    + reflexivity.
    + left. reflexivity.
Defined.


Lemma InvConv_same_logdet_witness :
  exists s1 s2,
    InvConv_sldj identity_logabsdet
      (fst (InvConv_new zero_draw identity_Q 4 0))
      (full [2; 4; 2; 2] 1) (Some (full [2] 0)) false = Ok (Some s1) /\
    InvConv_sldj identity_logabsdet
      (fst (InvConv_new zero_draw identity_Q 4 0))
      (full [2; 4; 2; 2] 1) (Some (full [2] 0)) true = Ok (Some s2) /\
    shape s1 = [2] /\ shape s2 = [2].
Proof.
  destruct (InvConv_same_logdet identity_logabsdet identity_inverse
              (fst (InvConv_new zero_draw identity_Q 4 0))
              (full [2; 4; 2; 2] 1) (full [2; 4; 2; 2] 1)
              (full [2] 0) (full [2] 0) 2 4 2 4 2 2 eq_refl eq_refl)
    as ((s1 & E1 & S1 & _) & (s2 & E2 & S2 & _) & _).
  exists s1, s2. split; [exact E1|]. split; [exact E2|].
  split; assumption.
Defined.

Lemma Coupling_identity_at_init_witness :
  exists y ldj' cp',
    Coupling_forward no_batchnorm_forward
      (fst (Coupling_new zero_draw no_batchnorm_new 1 1 (mkParams false) 0))
      (full [1; 2; 1; 1] 1) None false
    = Ok (y, ldj', cp') /\
    teq y (full [1; 2; 1; 1] 1).
Proof.
  destruct (Coupling_identity_at_init zero_draw unit no_batchnorm_new
              no_batchnorm_forward 1 1 0 (mkParams false)
              (full [1; 2; 1; 1] 1) None 1 1 1
              eq_refl ltac:(lia) ltac:(lia) ltac:(lia) ltac:(lia) eq_refl
              ltac:(discriminate))
    as (y & ldj' & cp' & E & T & _).
  exists y, ldj', cp'. split; assumption.
Defined.

Lemma terminal_level_squeezes_witness :
  exists y sldj' g',
    Glow_forward identity_logabsdet identity_inverse no_batchnorm_forward
      (fst (Glow_new zero_draw identity_Q no_batchnorm_new 1 16 3 1
              (mkParams false) 0))
      (full [8; 1; 32; 32] (1 / 2)) None false
    = Ok (y, sldj', g') /\
    shape y = [8; 4 ^ 4; 2; 2].
Proof.
  exact (proj2 (proj2 (terminal_level_squeezes identity_logabsdet
                         identity_inverse zero_draw identity_Q unit
                         no_batchnorm_new no_batchnorm_forward))
           16 0 (mkParams false) (full [8; 1; 32; 32] (1 / 2)) None
           eq_refl eq_refl ltac:(discriminate)).
Defined.

(** C2, as stated, fails: the flow with [num_levels = 3], [num_steps = 1]
    and [in_channels = 1] does not map a batch of 8 images of 32x32 to a
    tensor of shape (8, 4^3, 4, 4); the terminal level squeezes once more. *)
Lemma forward_shape_is_not_8_64_4_4 :
  ~ exists y sldj' g',
      Glow_forward identity_logabsdet identity_inverse no_batchnorm_forward
        (fst (Glow_new zero_draw identity_Q no_batchnorm_new 1 16 3 1
                (mkParams false) 0))
        (full [8; 1; 32; 32] (1 / 2)) None false
      = Ok (y, sldj', g') /\
      shape y = [8; 4 ^ 3; 4; 4].
Proof.
  intros (y & l & g & E & S).
  destruct (Glow_forward_shape identity_logabsdet identity_inverse zero_draw
              identity_Q unit no_batchnorm_new no_batchnorm_forward
              1 16 3 1 0 (mkParams false) (full [8; 1; 32; 32] (1 / 2)) None
              8 2 2 eq_refl ltac:(lia) ltac:(lia) ltac:(lia) eq_refl
              ltac:(discriminate))
    as (y' & l' & g' & E' & S' & _).
  rewrite E in E'. inversion E'; subst y'.
  rewrite S in S'. discriminate S'.
Qed.

Lemma preconditions_raise_library_errors_witness :
  squeeze (full [1; 1; 3; 3] 1%R) false = Raise RuntimeError /\
  exists e,
    Coupling_forward no_batchnorm_forward
      (fst (Coupling_new zero_draw no_batchnorm_new (5 / 2) 1 (mkParams false) 0))
      (full [1; 5; 1; 1] 1%R) None false
    = Raise e.
Proof.
  split.
  - exact (proj1 (preconditions_raise_library_errors zero_draw unit
                    no_batchnorm_new no_batchnorm_forward)
             R (full [1; 1; 3; 3] 1%R) 1 1 3 3
             eq_refl ltac:(cbn; lia) (or_introl eq_refl)).
  - exact (proj2 (preconditions_raise_library_errors zero_draw unit
                    no_batchnorm_new no_batchnorm_forward)
             5 1 0 (mkParams false) (full [1; 5; 1; 1] 1%R) None false 1 1 1
             eq_refl eq_refl ltac:(lia) ltac:(lia) ltac:(lia) eq_refl).
Defined.

(** C8, as stated, fails: a coupling layer built for a step of 3 channels
    splits an input of 3 channels into halves of 2 and 1 channels and
    returns a result instead of raising. *)
Lemma coupling_proceeds_with_unequal_halves :
  exists x_change x_id y cp',
    chunk (full [1; 3; 1; 1] 1%R) 2 1 = Ok [x_change; x_id] /\
    shape x_change = [1; 2; 1; 1] /\
    shape x_id = [1; 1; 1; 1] /\
    Coupling_forward no_batchnorm_forward
      (fst (Coupling_new zero_draw no_batchnorm_new (3 / 2) 1 (mkParams false) 0))
      (full [1; 3; 1; 1] 1%R) None false
    = Ok (y, None, cp') /\
    shape y = [1; 3; 1; 1].
Proof.
  apply (Coupling_forward_three_channels unit no_batchnorm_forward _ _ 1 1 1 1).
  - apply (Coupling_new_shapes zero_draw unit no_batchnorm_new 1 1 0
             (mkParams false) eq_refl).
  - reflexivity.
  - lia.
  - lia.
Qed.

(** C1, at a batch of two images and an accumulator of two zeros: the
    forward direction returns an accumulator with two entries; the reverse
    direction on that output returns a tensor of the shape of the images,
    but the accumulator comes back with shape (2, 2) and not as the two
    entries it started from. *)
Lemma accumulator_comes_back_as_matrix :
  returned_shapes
    (Glow_forward identity_logabsdet identity_inverse no_batchnorm_forward
       (fst (Glow_new zero_draw identity_Q no_batchnorm_new 1 1 1 1
               (mkParams false) 0))
       two_images (Some (zeros [2])) false)
  = Some ([2; 16; 1; 1], Some [2]) /\
  returned_shapes
    (Glow_forward_then_reverse identity_logabsdet identity_inverse
       no_batchnorm_forward
       (fst (Glow_new zero_draw identity_Q no_batchnorm_new 1 1 1 1
               (mkParams false) 0))
       two_images (Some (zeros [2])))
  = Some ([2; 1; 4; 4], Some [2; 2]).
Proof.
  split; vm_compute; reflexivity.
Qed.











(** ** The round trips at concrete inputs *)

Lemma identity_inverts_initial_weights :
  inverts_initial_weights identity_inverse zero_draw identity_Q.
Proof.
  intros c seed. eexists. split; [reflexivity|].
  split; [reflexivity|]. intros o d Ho Hd.
  cbn [fst InvConv_new ic_weight ic_num_channels get identity_Q].
  rewrite (Rsum_delta c o (fun j => if (j =? d)%nat then 1%R else 0%R) Ho).
  reflexivity.
Qed.


Lemma InvConv_reverse_undoes_forward_witness :
  exists z l1 x' l',
    InvConv_forward identity_logabsdet identity_inverse
      (fst (InvConv_new zero_draw identity_Q 2 0))
      (full [1; 2; 1; 1] 3) (Some (zeros [1])) false = Ok (z, l1) /\
    InvConv_forward identity_logabsdet identity_inverse
      (fst (InvConv_new zero_draw identity_Q 2 0)) z l1 true = Ok (x', l') /\
    shape z = [1; 2; 1; 1] /\
    teq x' (full [1; 2; 1; 1] 3) /\ acc_eq l' (Some (zeros [1])).
Proof.
  apply (InvConv_reverse_undoes_forward identity_logabsdet identity_inverse
           (fst (InvConv_new zero_draw identity_Q 2 0))
           (full [1; 2; 1; 1] 3) (Some (zeros [1])) 1 2 1 1).
  - reflexivity.
  - reflexivity.
  - apply identity_inverts_initial_weights.
  - reflexivity.
  - lia.
  - lia.
Defined.

Lemma Coupling_reverse_undoes_forward_witness :
  exists y l1 cp' x' l',
    Coupling_forward no_batchnorm_forward
      (fst (Coupling_new zero_draw no_batchnorm_new 1 1 (mkParams false) 0))
      (full [1; 2; 1; 1] 3) (Some (zeros [1])) false = Ok (y, l1, cp') /\
    Coupling_forward no_batchnorm_forward cp' y l1 true = Ok (x', l', cp') /\
    shape y = [1; 2; 1; 1] /\
    teq x' (full [1; 2; 1; 1] 3) /\ acc_eq l' (Some (zeros [1])).
Proof.
  apply (Coupling_reverse_undoes_forward unit no_batchnorm_forward
           (fst (Coupling_new zero_draw no_batchnorm_new 1 1 (mkParams false) 0))
           (full [1; 2; 1; 1] 3) (Some (zeros [1])) 1 1 1 1 1).
  - apply (Coupling_new_shapes zero_draw unit no_batchnorm_new 1 1 0
             (mkParams false) eq_refl).
  - reflexivity.
  - lia.
  - lia.
  - lia.
  - intros t E. inversion E. reflexivity.
Defined.


Lemma flow_step_reverse_undoes_forward_witness :
  exists y l1 fs' x' l',
    _FlowStep_forward identity_logabsdet identity_inverse no_batchnorm_forward
      (fst (_FlowStep_new zero_draw identity_Q no_batchnorm_new 2 1
              (mkParams false) 0))
      (full [1; 2; 1; 1] 3) (Some (zeros [1])) false = Ok (y, l1, fs') /\
    _FlowStep_forward identity_logabsdet identity_inverse no_batchnorm_forward
      fs' y l1 true = Ok (x', l', fs') /\
    shape y = [1; 2; 1; 1] /\
    teq x' (full [1; 2; 1; 1] 3) /\ acc_eq l' (Some (zeros [1])).
Proof.
  apply (flow_step_reverse_undoes_forward identity_logabsdet identity_inverse
           unit no_batchnorm_forward
           (fst (_FlowStep_new zero_draw identity_Q no_batchnorm_new 2 1
                   (mkParams false) 0))
           (full [1; 2; 1; 1] 3) (Some (zeros [1])) 2 1 1 1 1).
  - split.
    + apply (_FlowStep_new_shapes zero_draw identity_Q unit no_batchnorm_new
               2 1 0 (mkParams false) eq_refl).
    + exact (identity_inverts_initial_weights 2 0).
  - reflexivity.
  - reflexivity.
  - lia.
  - lia.
  - lia.
  - intros t E. inversion E. reflexivity.
Defined.

Lemma flow_levels_reverse_undo_forward_witness :
  exists y l1 g' x' l',
    _Glow_forward identity_logabsdet identity_inverse no_batchnorm_forward
      (fst (_Glow_new zero_draw identity_Q no_batchnorm_new 4 1 2 1
              (mkParams false) 0))
      (full [1; 4; 2 ^ 2 * 1; 2 ^ 2 * 1] 3) (Some (zeros [1])) false
    = Ok (y, l1, g') /\
    _Glow_forward identity_logabsdet identity_inverse no_batchnorm_forward
      g' y l1 true = Ok (x', l', g') /\
    shape y = [1; 4 ^ 2 * 4; 1; 1] /\
    teq x' (full [1; 4; 2 ^ 2 * 1; 2 ^ 2 * 1] 3) /\
    acc_eq l' (Some (zeros [1])).
Proof.
  apply (flow_levels_reverse_undo_forward identity_logabsdet identity_inverse
           unit no_batchnorm_forward
           (fst (_Glow_new zero_draw identity_Q no_batchnorm_new 4 1 2 1
                   (mkParams false) 0))
           (full [1; 4; 2 ^ 2 * 1; 2 ^ 2 * 1] 3) (Some (zeros [1]))
           2 4 1 1 1 1).
  - exact (proj2 (_Glow_new_ready identity_inverse zero_draw identity_Q unit
                    no_batchnorm_new 1 1 (mkParams false) eq_refl
                    identity_inverts_initial_weights 2 4 0)).
  - exact (proj1 (_Glow_new_ready identity_inverse zero_draw identity_Q unit
                    no_batchnorm_new 1 1 (mkParams false) eq_refl
                    identity_inverts_initial_weights 2 4 0)).
  - reflexivity.
  - lia.
  - lia.
  - lia.
  - reflexivity.
  - intros t E. inversion E. reflexivity.
Defined.

Lemma half_in_logit_domain (s : list nat) :
  in_logit_domain LogitTransform_new (full s (1 / 2)).
Proof.
  intros idx _. cbn [LogitTransform_new lt_alpha full get]. lra.
Qed.

Lemma Glow_new_is_ready_witness :
  _Glow_ready identity_inverse
    (glow_flows (fst (Glow_new zero_draw identity_Q no_batchnorm_new 1 16 4 5
                        (mkParams false) 0)))
    (4 * 1) 16 /\
  _Glow_depth
    (glow_flows (fst (Glow_new zero_draw identity_Q no_batchnorm_new 1 16 4 5
                        (mkParams false) 0)))
  = num_built_levels 4 /\
  glow_init (fst (Glow_new zero_draw identity_Q no_batchnorm_new 1 16 4 5
                    (mkParams false) 0))
  = LogitTransform_new.
Proof.
  apply (Glow_new_is_ready identity_inverse zero_draw identity_Q unit
           no_batchnorm_new 1 16 4 5 0 (mkParams false)).
  - reflexivity.
  - exact identity_inverts_initial_weights.
Defined.

Lemma Glow_reverse_undoes_forward_witness :
  exists z g' x',
    Glow_forward identity_logabsdet identity_inverse no_batchnorm_forward
      (fst (Glow_new zero_draw identity_Q no_batchnorm_new 1 1 1 1
              (mkParams false) 0))
      (full [2; 1; 2 ^ 2 * 1; 2 ^ 2 * 1] (1 / 2)) None false
    = Ok (z, None, g') /\
    Glow_forward identity_logabsdet identity_inverse no_batchnorm_forward
      g' z None true = Ok (x', None, g') /\
    shape z = [2; 4 ^ 2 * 1; 1; 1] /\
    teq x' (full [2; 1; 2 ^ 2 * 1; 2 ^ 2 * 1] (1 / 2)).
Proof.
  pose proof (_Glow_new_ready identity_inverse zero_draw identity_Q unit
                no_batchnorm_new 1 1 (mkParams false) eq_refl
                identity_inverts_initial_weights 1 (1 * 4) 0) as [Hr Hd].
  apply (Glow_reverse_undoes_forward identity_logabsdet identity_inverse
           unit no_batchnorm_forward
           (fst (Glow_new zero_draw identity_Q no_batchnorm_new 1 1 1 1
                   (mkParams false) 0))
           (full [2; 1; 2 ^ 2 * 1; 2 ^ 2 * 1] (1 / 2)) 1 1 1 2 1 1).
  - exact Hd.
  - exact Hr.
  - cbn. lra.
  - lia.
  - lia.
  - lia.
  - reflexivity.
  - apply half_in_logit_domain.
Defined.

Lemma LogitTransform_inverse_undoes_forward_witness :
  exists y x',
    LogitTransform_forward LogitTransform_new (full [1; 1; 2; 2] (1 / 2))
      None false = Ok (y, None) /\
    LogitTransform_forward LogitTransform_new y None true = Ok (x', None) /\
    shape y = [1; 1; 2; 2] /\
    teq x' (full [1; 1; 2; 2] (1 / 2)).
Proof.
  apply (LogitTransform_inverse_undoes_forward LogitTransform_new
           (full [1; 1; 2; 2] (1 / 2))).
  - cbn. lra.
  - apply half_in_logit_domain.
Defined.


Lemma unsqueeze_squeeze_exact_witness :
  exists y x',
    squeeze (mkT [1; 4 * 1; 1; 1] (fun idx => idx)) true = Ok y /\
    shape y = [1; 1; 1 * 2; 1 * 2] /\
    squeeze y false = Ok x' /\
    teq x' (mkT [1; 4 * 1; 1; 1] (fun idx => idx)).
Proof.
  exact (unsqueeze_squeeze_exact (list nat)
           (mkT [1; 4 * 1; 1; 1] (fun idx => idx)) 1 1 1 1 eq_refl).
Defined.


(** ** The acceptance probability at concrete inputs *)

Lemma exp_default_eps : (exp (eps_drs default_args) < 3)%R.
Proof.
  cbn [default_args eps_drs].
  apply (Rlt_le_trans _ (exp 1)); [apply exp_increasing; lra|].
  apply exp_le_3.
Qed.

Lemma drs_regimes_witness :
  (exists p,
      drs (Fin 1) (Fin 10) default_args = Fin p /\ (0 <= p <= 1)%R) /\
  drs (Fin 10) (Fin 10) default_args = NaN.
Proof.
  assert (H1 : (0 < 1)%R) by lra.
  assert (H2 : (0 < 10)%R) by lra.
  split.
  - destruct (proj1 (drs_regimes 1 10 default_args H1 H2))
      as (p & E & B & _).
    + pose proof exp_default_eps. lra.
    + exists p. split; assumption.
  - apply (proj2 (proj2 (drs_regimes 10 10 default_args H2 H2))).
    + exact default_eps_above_spacing.
    + lra.
Defined.

Lemma accepted_proposal_keeps_maximum_witness :
  Fin 10 = Fin 10 /\ (0 < 1 < 10)%R.
Proof.
  apply (accepted_proposal_keeps_maximum 10 1 0 default_args (Fin 10)).
  - exact default_eps_above_spacing.
  - lra.
  - lra.
  - lra.
  - unfold proposal.
    assert (E : xmax (Fin 1) (Fin 10) = Fin 10).
    { unfold xmax, xlt. destruct (Rlt_dec 1 10); [reflexivity|lra]. }
    rewrite E. rewrite drs_interior.
    + cbn [xlt].
      destruct (Rlt_dec 0 _) as [_|N]; [reflexivity|].
      exfalso. apply N. apply sigmoid_bounds.
    + lra.
    + pose proof exp_default_eps. lra.
Defined.



Lemma accept_loop_invariant_witness :
  exists m',
    Fin 20 = Fin m' /\ (10 <= m')%R /\
    forall q, Some (Fin 1) = Some q ->
      exists pq, q = Fin pq /\ In pq (map fst [(20, 0); (1, 0)]%R) /\
                 (0 < pq < m')%R.
Proof.
  pose proof exp_default_eps as B.
  apply (accept_loop_invariant [(20, 0); (1, 0)]%R default_args).
  - exact default_eps_above_spacing.
  - intros d [<-|[<-|[]]]; cbn [fst snd]; lra.
  - lra.
  - cbn [map accept_loop fst snd]. unfold proposal.
    rewrite (xmax_fin 20 10).
    destruct (Rlt_dec 20 10) as [F|_]; [lra|].
    rewrite drs_at_max by (cbn; lra). cbn [xlt].
    rewrite (xmax_fin 1 20).
    destruct (Rlt_dec 1 20) as [_|F]; [|lra].
    rewrite drs_interior by lra. cbn [xlt].
    destruct (Rlt_dec 0 _) as [_|N]; [reflexivity|].
    exfalso. apply N. apply sigmoid_bounds.
Defined.


(** ** [utils.py] and [train.py] at concrete inputs *)

Lemma AddNoise_keeps_logit_defined_witness :
  exists y,
    AddNoise_forward (fun _ => 1 / 2)%R (full [1; 1; 2; 2] 1) = Ok y /\
    shape y = [1; 1; 2; 2] /\
    in_logit_domain LogitTransform_new y.
Proof.
  destruct (proj1 (AddNoise_keeps_logit_defined (fun _ => 1 / 2)%R
                     (full [1; 1; 2; 2] 1)
                     ltac:(intros idx _; cbn [full get]; lra)
                     ltac:(intros idx; lra)))
    as (y & E & S & _ & D).
  exists y. split; [exact E|]. split; [exact S|exact D].
Defined.

Lemma NLLLoss_bpd_is_scaled_nll_witness :
  exists nll bpd,
    NLLLoss_forward NLLLoss_new (zeros [2; 1; 1; 1]) (zeros [2]) = Ok (nll, bpd) /\
    get bpd [] = (get nll [] / (ln 2 * INR (numel [1; 1; 1]%nat)))%R.
Proof.
  destruct (NLLLoss_bpd_is_scaled_nll NLLLoss_new (zeros [2; 1; 1; 1])
              (zeros [2]) 2 1 1 1 eq_refl eq_refl
              ltac:(lia) ltac:(lia) ltac:(lia) ltac:(lia))
    as (nll & bpd & E & _ & _ & _ & B).
  exists nll, bpd. split; assumption.
Defined.

Lemma one_step_eval_returns_witness :
  exists v g',
    one_step_eval identity_logabsdet identity_inverse no_batchnorm_forward
      (full [256; 1; 2 ^ 5 * 1; 2 ^ 5 * 1] (1 / 2))
      (fst (Glow_new zero_draw identity_Q no_batchnorm_new 1 16 4 5
              (mkParams false) 0))
      NLLLoss_new
    = Ok (v, g') /\
    shape v = [].
Proof.
  apply (one_step_eval_returns identity_logabsdet identity_inverse zero_draw
           identity_Q unit no_batchnorm_new no_batchnorm_forward
           1 16 4 5 0 (mkParams false)
           (full [256; 1; 2 ^ 5 * 1; 2 ^ 5 * 1] (1 / 2)) 256 1 1).
  - reflexivity.
  - lia.
  - lia.
  - lia.
  - reflexivity.
Defined.


Lemma Glow_reverse_returns_images_witness :
  exists x g',
    Glow_forward identity_logabsdet identity_inverse no_batchnorm_forward
      (fst (Glow_new zero_draw identity_Q no_batchnorm_new 1 16 4 5
              (mkParams false) 0))
      (full [1; 4 ^ 5 * 1; 1; 1] 0) None true
    = Ok (x, None, g') /\
    shape x = [1; 1; 2 ^ 5 * 1; 2 ^ 5 * 1].
Proof.
  pose proof (_Glow_new_ready identity_inverse zero_draw identity_Q unit
                no_batchnorm_new 16 5 (mkParams false) eq_refl
                identity_inverts_initial_weights 4 (1 * 4) 0) as [Hr Hd].
  apply (Glow_reverse_returns_images identity_logabsdet identity_inverse
           unit no_batchnorm_forward
           (fst (Glow_new zero_draw identity_Q no_batchnorm_new 1 16 4 5
                   (mkParams false) 0))
           (full [1; 4 ^ 5 * 1; 1; 1] 0) 4 1 16 1 1 1).
  - exact Hd.
  - exact Hr.
  - lia.
  - lia.
  - reflexivity.
Defined.


(** ** The parameter groups at concrete names *)

Section ParameterGroupExamples.
Import Stdlib.Strings.Ascii Stdlib.Strings.String.
Local Open Scope string_scope.

Lemma weight_decay_group_is_empty_witness :
  get_param_groups
    [("flows.steps.0.norm.logs", 1); ("flows.steps.0.conv.weight", 2);
     ("flows.steps.0.coup.nn.out_conv.bias", 3);
     ("flows.steps.0.coup.scale", 4)]%nat
    (1 / 10000) "weight_g"
  = [ {| pg_name := "normalized"; pg_params := [];
         pg_weight_decay := Some (1 / 10000)%R |};
      {| pg_name := "unnormalized"; pg_params := [1; 2; 3; 4]%nat;
         pg_weight_decay := None |} ].
Proof.
  apply (weight_decay_group_is_empty nat
           [("flows.steps.0.norm.logs", 1); ("flows.steps.0.conv.weight", 2);
            ("flows.steps.0.coup.nn.out_conv.bias", 3);
            ("flows.steps.0.coup.scale", 4)]%nat (1 / 10000)%R).
  intros np [<-|[<-|[<-|[<-|[]]]]]; cbn [fst].
  - exists "flows.steps.0.norm.", "logs". split; [cbn; tauto|reflexivity].
  - exists "flows.steps.0.conv.", "weight". split; [cbn; tauto|reflexivity].
  - exists "flows.steps.0.coup.nn.out_conv.", "bias".
    split; [cbn; tauto|reflexivity].
  - exists "flows.steps.0.coup.", "scale". split; [cbn; tauto|reflexivity].
Defined.

End ParameterGroupExamples.


(** ** The state of the model at concrete inputs *)

Lemma Glow_forward_settles_model_witness :
  exists z g',
    Glow_forward identity_logabsdet identity_inverse no_batchnorm_forward
      (fst (Glow_new zero_draw identity_Q no_batchnorm_new 1 1 1 1
              (mkParams false) 0))
      (full [2; 1; 2 ^ 2 * 1; 2 ^ 2 * 1] (1 / 2)) None false
    = Ok (z, None, g') /\
    _Glow_settled (glow_flows g').
Proof.
  pose proof (_Glow_new_ready identity_inverse zero_draw identity_Q unit
                no_batchnorm_new 1 1 (mkParams false) eq_refl
                identity_inverts_initial_weights 1 (1 * 4) 0) as [Hr Hd].
  destruct (Glow_roundtrip identity_logabsdet identity_inverse unit
              no_batchnorm_forward
              (fst (Glow_new zero_draw identity_Q no_batchnorm_new 1 1 1 1
                      (mkParams false) 0))
              (full [2; 1; 2 ^ 2 * 1; 2 ^ 2 * 1] (1 / 2)) 1 1 1 2 1 1
              Hd Hr ltac:(cbn; lra) ltac:(lia) ltac:(lia) eq_refl
              (half_in_logit_domain _))
    as (z & g' & E & _).
  exists z, g'. split; [exact E|].
  apply (Glow_forward_settles_model identity_logabsdet identity_inverse
           unit no_batchnorm_forward
           (fst (Glow_new zero_draw identity_Q no_batchnorm_new 1 1 1 1
                   (mkParams false) 0))
           g' (full [2; 1; 2 ^ 2 * 1; 2 ^ 2 * 1] (1 / 2)) z None None false).
  - exact (_Glow_ready_actnorm identity_inverse unit 1 _ _ Hr).
  - exact E.
Defined.

Lemma Glow_forward_keeps_settled_model_witness :
  exists z g' x',
    Glow_forward identity_logabsdet identity_inverse no_batchnorm_forward
      (fst (Glow_new zero_draw identity_Q no_batchnorm_new 1 1 1 1
              (mkParams false) 0))
      (full [2; 1; 2 ^ 2 * 1; 2 ^ 2 * 1] (1 / 2)) None false
    = Ok (z, None, g') /\
    Glow_forward identity_logabsdet identity_inverse no_batchnorm_forward
      g' z None true = Ok (x', None, g') /\
    g' = g'.
Proof.
  pose proof (_Glow_new_ready identity_inverse zero_draw identity_Q unit
                no_batchnorm_new 1 1 (mkParams false) eq_refl
                identity_inverts_initial_weights 1 (1 * 4) 0) as [Hr Hd].
  destruct (Glow_roundtrip identity_logabsdet identity_inverse unit
              no_batchnorm_forward
              (fst (Glow_new zero_draw identity_Q no_batchnorm_new 1 1 1 1
                      (mkParams false) 0))
              (full [2; 1; 2 ^ 2 * 1; 2 ^ 2 * 1] (1 / 2)) 1 1 1 2 1 1
              Hd Hr ltac:(cbn; lra) ltac:(lia) ltac:(lia) eq_refl
              (half_in_logit_domain _))
    as (z & g' & E & _ & _ & _ & _ & B).
  destruct (B z (teq_refl R z)) as (x' & E' & _).
  exists z, g', x'. split; [exact E|]. split; [exact E'|].
  apply (Glow_forward_keeps_settled_model identity_logabsdet identity_inverse
           unit no_batchnorm_forward g' g' z x' None None true).
  - exact (proj1 (Glow_forward_state identity_logabsdet identity_inverse
                    unit no_batchnorm_forward
                    (fst (Glow_new zero_draw identity_Q no_batchnorm_new 1 1 1 1
                   (mkParams false) 0))
                    g' (full [2; 1; 2 ^ 2 * 1; 2 ^ 2 * 1] (1 / 2)) z None None false E)
             (_Glow_ready_actnorm identity_inverse unit 1 _ _ Hr)).
  - exact E'.
Defined.


Lemma mean_dim_squeezes_reduced_dims_witness :
  exists m mk,
    mean_dim (full [2; 3; 1; 1] 5) (Some [3; 0; 2]) false = Ok m /\
    mean_dim (full [2; 3; 1; 1] 5) (Some [3; 0; 2]) true = Ok mk /\
    shape m = [3] /\ shape mk = [1; 3; 1; 1].
Proof.
  destruct (mean_dim_squeezes_reduced_dims (full [2; 3; 1; 1] 5) [3; 0; 2]
              2 3 1 1 eq_refl eq_refl)
    as (m & mk & E & Ek & S & Sk & _).
  exists m, mk. repeat (split; [assumption|]). exact Sk.
Defined.
